(** * epic-linker: a linker for bundles of actions, reducers, selectors and views

    Shallow embedding of [src/utils.js], [src/bundle.js] and [src/index.js].

    Conventions of the embedding.
    - A JavaScript value is a [value]; functions and objects are references
      (an identity), primitives are themselves.
    - An object literal [{}] is the finite map of its own properties; what it
      inherits from [Object.prototype] is part of the runtime [Env], like the
      presence of [Proxy], which [makeSafeProxy] tests.
    - The closure variables of [link] (global scope, type map, action-type
      registry, enhancers, use queue) and the objects the linker mutates
      through references (the targets of the [locals] proxies, the display
      names of views) form the [Linker] state; code that mutates them is a
      function in the state-and-error monad [M].
    - A builder is a JavaScript function that calls the methods of the bundle
      it receives; it is embedded as the list of those calls ([directive]),
      an included builder being nested in its [Include].  Exceptions are not
      caught by builders: the first one aborts [link].
    - Reducers are total functions of the state and the action; an operand
      of the combinators may also be [null] or [undefined].  The reducer of
      an action ([addReducer] with two arguments) is a function.
    - redux, redux-saga and react-redux are outside the linker: [connect]
      makes a new component, and the store is given by the reducer and the
      enhancer it is created from. *)

From Stdlib Require Import ZArith.
From stdpp Require Import base option list strings gmap countable.

Open Scope string_scope.
Open Scope list_scope.

(** ** JavaScript values *)

Inductive value : Type :=
| VUndefined
| VNull
| VBool (b : bool)
| VNum (n : Z)
| VStr (s : string)
| VFun (f : nat)          (* a function or class supplied to the linker *)
| VObj (o : nat)          (* any other object supplied to the linker *)
| VConnected (k : nat).   (* the k-th component made by connect(selector)(view) *)

Global Instance value_eq_dec : EqDecision value.
Proof. solve_decision. Defined.

Definition value_encode (v : value) : unit + unit + bool + Z + string + nat + nat + nat :=
  match v with
  | VUndefined => inl (inl (inl (inl (inl (inl (inl tt))))))
  | VNull => inl (inl (inl (inl (inl (inl (inr tt))))))
  | VBool b => inl (inl (inl (inl (inl (inr b)))))
  | VNum n => inl (inl (inl (inl (inr n))))
  | VStr s => inl (inl (inl (inr s)))
  | VFun f => inl (inl (inr f))
  | VObj o => inl (inr o)
  | VConnected k => inr k
  end.

Definition value_decode (x : unit + unit + bool + Z + string + nat + nat + nat) : value :=
  match x with
  | inl (inl (inl (inl (inl (inl (inl _)))))) => VUndefined
  | inl (inl (inl (inl (inl (inl (inr _)))))) => VNull
  | inl (inl (inl (inl (inl (inr b))))) => VBool b
  | inl (inl (inl (inl (inr n)))) => VNum n
  | inl (inl (inl (inr s))) => VStr s
  | inl (inl (inr f)) => VFun f
  | inl (inr o) => VObj o
  | inr k => VConnected k
  end.

Global Instance value_countable : Countable value.
Proof.
  refine (inj_countable' value_encode value_decode _).
  intros []; reflexivity.
Defined.

(** [typeof v] *)
Definition typeof (v : value) : string :=
  match v with
  | VUndefined => "undefined"
  | VNull => "object"
  | VBool _ => "boolean"
  | VNum _ => "number"
  | VStr _ => "string"
  | VFun _ => "function"
  | VObj _ => "object"
  | VConnected _ => "function"
  end.

(** ** The runtime *)

Record Env : Type := {
  hasProxy : bool;                          (* typeof Proxy === 'function' *)
  Object_prototype : gmap string value      (* properties every {} inherits *)
}.

(** [property in obj], for an object literal with own properties [obj]. *)
Definition has_property (env : Env) (obj : gmap string value) (property : string) : bool :=
  bool_decide (is_Some (obj !! property))
  || bool_decide (is_Some (Object_prototype env !! property)).

(** [obj[property]] *)
Definition get_property (env : Env) (obj : gmap string value) (property : string) : value :=
  match obj !! property with
  | Some v => v
  | None => default VUndefined (Object_prototype env !! property)
  end.

(** ** Errors thrown by the linker *)

Inductive error : Type :=
| ActionTypeConflict (actionType : string)
| LinkerConflict (name : string)
| UndefinedDependency (name : string)
| InvalidUse
| UndefinedName (property : string)
| UndeclaredDependency (property : string)
| Sealed
| InvalidSelector
| TypeError.

(** The message of the [Error] object. *)
Definition message (e : error) : string :=
  match e with
  | ActionTypeConflict actionType => "action type conflict: " +:+ actionType
  | LinkerConflict name => "linker conflict on " +:+ name
  | UndefinedDependency name => "undefined dependency: " +:+ name
  | InvalidUse => "invalid use"
  | UndefinedName property => "use of undefined name " +:+ property
  | UndeclaredDependency property => "use of undeclared dependency " +:+ property
  | Sealed => "Dynamically calling epic-linker directives is not supported."
  | InvalidSelector => "invalid selector for view"
  | TypeError => "TypeError"
  end.

Inductive result (A : Type) : Type :=
| Ok (a : A)
| Throw (e : error).
Arguments Ok {A} a.
Arguments Throw {A} e.

(** ** utils.js *)

(** The object returned by [makeSafeProxy (obj, onError)], seen through its
    property reads: the [get] trap when the runtime has [Proxy], the bare
    object otherwise.  Writes go to [obj] in both cases. *)
Definition makeSafeProxy (env : Env) (obj : gmap string value)
    (onError : string -> error) (property : string) : result value :=
  if hasProxy env then
    if has_property env obj property then Ok (get_property env obj property)
    else Throw (onError property)
  else Ok (get_property env obj property).

(** A reducer operand: a function of the state and the action, or nothing. *)
Inductive reducerV (State Action : Type) : Type :=
| RUndefined
| RNull
| RFun (f : State -> Action -> State).
Arguments RUndefined {State Action}.
Arguments RNull {State Action}.
Arguments RFun {State Action} f.

Definition directCompose {State Action} (secondReducer firstReducer : reducerV State Action)
    : reducerV State Action :=
  match firstReducer with
  | RFun first =>
      match secondReducer with
      | RFun second => RFun (fun state action => second (first state action) action)
      | _ => firstReducer
      end
  | _ => secondReducer
  end.

Definition reverseCompose {State Action} (firstReducer secondReducer : reducerV State Action)
    : reducerV State Action :=
  match firstReducer with
  | RFun first =>
      match secondReducer with
      | RFun second => RFun (fun state action => second (first state action) action)
      | _ => firstReducer
      end
  | _ => secondReducer
  end.

(** ** index.js: the state of one call of [link] *)

(** The second component of a use-queue entry: [injectAll] tells a string
    from an array from anything else. *)
Inductive useArg : Type :=
| UseString (name : string)
| UseArray (names : list string)
| UseOther (v : value).

Record Linker : Type := mkLinker {
  globalScope : gmap string value;          (* own properties of globalScope *)
  typeMap : gmap string string;             (* name -> 'value'|'selector'|'action'|'view' *)
  nameForActionType : gmap string string;   (* action type -> action name *)
  enhancers : list value;
  useQueue : list (nat * useArg);           (* (address of the target, names) *)
  heap : list (gmap string value);          (* targets of the locals proxies, by address *)
  connected : list (value * value);         (* (selector, view) of each connect call *)
  displayName : gmap value string           (* the displayName property of view objects *)
}.

Definition initialLinker : Linker :=
  mkLinker ∅ ∅ ∅ [] [] [] [] ∅.

(** State and exceptions. *)
Definition M (A : Type) : Type := Linker -> result (A * Linker).

Definition ret {A} (a : A) : M A := fun st => Ok (a, st).

Definition bind {A B} (c : M A) (k : A -> M B) : M B :=
  fun st => match c st with
            | Ok (a, st') => k a st'
            | Throw e => Throw e
            end.

Definition throw {A} (e : error) : M A := fun _ => Throw e.

Definition gets {A} (f : Linker -> A) : M A := fun st => Ok (f st, st).

Definition modify (f : Linker -> Linker) : M unit := fun st => Ok (tt, f st).

Declare Scope linker_scope.
Delimit Scope linker_scope with linker.
Notation "x <- c ;; k" := (bind c (fun x => k))
  (at level 100, c at next level, right associativity) : linker_scope.
Notation "c ;; k" := (bind c (fun _ => k))
  (at level 100, right associativity) : linker_scope.
Open Scope linker_scope.

(** [for (x of l) f(x)] *)
Fixpoint forEach {A} (f : A -> M unit) (l : list A) : M unit :=
  match l with
  | [] => ret tt
  | x :: l' => f x ;; forEach f l'
  end.

Definition declareActionType (actionType name : string) : M unit :=
  known <- gets (fun st => bool_decide (is_Some (nameForActionType st !! actionType))) ;;
  if known : bool then throw (ActionTypeConflict actionType)
  else modify (fun st =>
    mkLinker (globalScope st) (typeMap st) (<[actionType := name]> (nameForActionType st))
             (enhancers st) (useQueue st) (heap st) (connected st) (displayName st)).

Definition declareUse (target : nat) (names : useArg) : M unit :=
  modify (fun st =>
    mkLinker (globalScope st) (typeMap st) (nameForActionType st)
             (enhancers st) (useQueue st ++ [(target, names)]) (heap st)
             (connected st) (displayName st)).

Definition addEnhancer (enhancer : value) : M unit :=
  modify (fun st =>
    mkLinker (globalScope st) (typeMap st) (nameForActionType st)
             (enhancers st ++ [enhancer]) (useQueue st) (heap st)
             (connected st) (displayName st)).

(** Publish a value in the global scope. *)
Definition publish (env : Env) (type name : string) (v : value) : M unit :=
  taken <- gets (fun st => has_property env (globalScope st) name) ;;
  if taken : bool then throw (LinkerConflict name)
  else modify (fun st =>
    mkLinker (<[name := v]> (globalScope st)) (<[name := type]> (typeMap st))
             (nameForActionType st) (enhancers st) (useQueue st) (heap st)
             (connected st) (displayName st)).

(** Look up a value in the global scope. *)
Definition lookup (env : Env) (name : string) : M value :=
  gets (fun st => get_property env (globalScope st) name).

(** The type filter of [inject]: nothing, an array of type names, or a string. *)
Inductive typeFilter : Type :=
| FilterNone
| FilterArray (types : list string)
| FilterString (types : string).

(** [if (typeFilter)]: arrays are truthy, a string is truthy unless empty. *)
Definition truthy_filter (f : typeFilter) : bool :=
  match f with
  | FilterNone => false
  | FilterArray _ => true
  | FilterString s => negb (bool_decide (s = ""))
  end.

(** [Array.prototype.indexOf] on an array of strings; the argument is a string
    or [undefined] ([None]), compared with [===]. *)
Fixpoint array_indexOf (l : list string) (x : option string) (i : Z) : Z :=
  match l with
  | [] => (-1)%Z
  | y :: l' => if bool_decide (x = Some y) then i else array_indexOf l' x (i + 1)%Z
  end.

(** [String.prototype.indexOf]; the argument is converted to a string. *)
Definition string_indexOf (s : string) (x : option string) : Z :=
  match String.index 0 (default "undefined" x) s with
  | Some i => Z.of_nat i
  | None => (-1)%Z
  end.

Definition indexOf (f : typeFilter) (x : option string) : Z :=
  match f with
  | FilterNone => (-1)%Z
  | FilterArray l => array_indexOf l x 0
  | FilterString s => string_indexOf s x
  end.

(** [locals[name] = v], on the target at address [locals]. *)
Definition set_local (locals : nat) (name : string) (v : value) : M unit :=
  modify (fun st =>
    mkLinker (globalScope st) (typeMap st) (nameForActionType st)
             (enhancers st) (useQueue st)
             (alter (fun obj => <[name := v]> obj) locals (heap st))
             (connected st) (displayName st)).

(** Inject a value into a local scope. *)
Definition inject (env : Env) (filter : typeFilter) (locals : nat) (name : string) : M unit :=
  type <- gets (fun st => typeMap st !! name) ;;
  if truthy_filter filter && bool_decide (indexOf filter type = (-1)%Z) then ret tt
  else
    present <- gets (fun st => has_property env (globalScope st) name) ;;
    if present : bool then
      v <- gets (fun st => get_property env (globalScope st) name) ;;
      set_local locals name v
    else throw (UndefinedDependency name).

(** Inject all values in all local scopes. *)
Definition injectAll (env : Env) (filter : typeFilter) : M unit :=
  queue <- gets useQueue ;;
  forEach (fun dir : nat * useArg =>
    let '(locals, arg) := dir in
    match arg with
    | UseString name => inject env filter locals name
    | UseArray names => forEach (inject env filter locals) names
    | UseOther _ => throw InvalidUse
    end) queue.

(** ** bundle.js *)

Definition undeclaredDependencyError (property : string) : error :=
  UndeclaredDependency property.

(** A view descriptor [{name, view, selector}]. *)
Inductive viewDescriptor : Type :=
| View (name : string) (view selector : value).

Section Bundles.
Context {State Action World : Type}.

(** A deferred callback acts on the world outside the linker and may look
    at the arguments it is called with. *)
Definition callback : Type := list value -> World -> World.

(** The fields of [this._] and [this.locals] (the address of the proxy's
    target).  [this._.linker] is the one [Linker] state, and [this.builder]
    is stored and never read. *)
#[warnings="-register-all"] Inductive Bundle : Type := mkBundle {
  locals : nat;
  bundles : list Bundle;
  earlyReducers : list (reducerV State Action);
  actionReducers : list (string * (State -> Action -> State));
  lateReducers : list (reducerV State Action);
  views : list viewDescriptor;
  defers : list callback;
  sagas : list value;
  sealed : bool
}.

(** [target = makeSafeProxy ({}, undeclaredDependencyError)]: a fresh object. *)
Definition newLocals : M nat :=
  fun st =>
    Ok (length (heap st),
        mkLinker (globalScope st) (typeMap st) (nameForActionType st)
                 (enhancers st) (useQueue st) (heap st ++ [∅])
                 (connected st) (displayName st)).

(** [new Bundle (linker, builder)] *)
Definition newBundle : M Bundle :=
  target <- newLocals ;;
  ret (mkBundle target [] [] [] [] [] [] [] false).

Definition _assertNotSealed (this : Bundle) : M unit :=
  if sealed this then throw Sealed else ret tt.

(** The builder is called on the new bundle; the bundle it has filled is
    the one [this._.bundles] holds.  Returns [bundle.locals]. *)
Definition include (builder : Bundle -> M Bundle) (this : Bundle) : M (nat * Bundle) :=
  _assertNotSealed this ;;
  bundle <- newBundle ;;
  bundle <- builder bundle ;;
  ret (locals bundle,
       mkBundle (locals this) (bundles this ++ [bundle]) (earlyReducers this)
                (actionReducers this) (lateReducers this) (views this)
                (defers this) (sagas this) (sealed this)).

Definition use (names : list string) (this : Bundle) : M Bundle :=
  _assertNotSealed this ;;
  declareUse (locals this) (UseArray names) ;;
  ret this.

Definition pack (names : list string) (this : Bundle) : M (nat * Bundle) :=
  _assertNotSealed this ;;
  target <- newLocals ;;
  declareUse target (UseArray names) ;;
  ret (target, this).

Definition defineValue (env : Env) (name : string) (v : value) (this : Bundle) : M Bundle :=
  _assertNotSealed this ;;
  publish env "value" name v ;;
  use [name] this.

Definition defineSelector (env : Env) (name : string) (v : value) (this : Bundle) : M Bundle :=
  _assertNotSealed this ;;
  publish env "selector" name v ;;
  use [name] this.

Definition defineAction (env : Env) (name actionType : string) (this : Bundle) : M Bundle :=
  _assertNotSealed this ;;
  declareActionType actionType name ;;
  publish env "action" name (VStr actionType) ;;
  use [name] this.

Definition defineView (name : string) (selector view : value) (this : Bundle) : M Bundle :=
  _assertNotSealed this ;;
  let '(selector, view) :=
    if decide (view = VUndefined) then (VUndefined, selector) else (selector, view) in
  this <- use [name] this ;;
  ret (mkBundle (locals this) (bundles this) (earlyReducers this)
                (actionReducers this) (lateReducers this)
                (views this ++ [View name view selector])
                (defers this) (sagas this) (sealed this)).

(** [addReducer (name, reducer)] with a reducer function. *)
Definition addReducer (name : string) (reducer : State -> Action -> State)
    (this : Bundle) : M Bundle :=
  _assertNotSealed this ;;
  this <- use [name] this ;;
  ret (mkBundle (locals this) (bundles this) (earlyReducers this)
                (actionReducers this ++ [(name, reducer)]) (lateReducers this)
                (views this) (defers this) (sagas this) (sealed this)).

(** [addReducer (reducer)]: the second argument is [undefined] and the first
    one is taken as a late reducer. *)
Definition addReducer1 (reducer : reducerV State Action) (this : Bundle) : M Bundle :=
  _assertNotSealed this ;;
  ret (mkBundle (locals this) (bundles this) (earlyReducers this)
                (actionReducers this) (lateReducers this ++ [reducer])
                (views this) (defers this) (sagas this) (sealed this)).

Definition addEarlyReducer (reducer : reducerV State Action) (this : Bundle) : M Bundle :=
  _assertNotSealed this ;;
  ret (mkBundle (locals this) (bundles this) (earlyReducers this ++ [reducer])
                (actionReducers this) (lateReducers this)
                (views this) (defers this) (sagas this) (sealed this)).

Definition addLateReducer (reducer : reducerV State Action) (this : Bundle) : M Bundle :=
  _assertNotSealed this ;;
  ret (mkBundle (locals this) (bundles this) (earlyReducers this)
                (actionReducers this) (lateReducers this ++ [reducer])
                (views this) (defers this) (sagas this) (sealed this)).

Definition addSaga (saga : value) (this : Bundle) : M Bundle :=
  _assertNotSealed this ;;
  ret (mkBundle (locals this) (bundles this) (earlyReducers this)
                (actionReducers this) (lateReducers this)
                (views this) (defers this) (sagas this ++ [saga]) (sealed this)).

Definition Bundle_addEnhancer (enhancer : value) (this : Bundle) : M Bundle :=
  _assertNotSealed this ;;
  addEnhancer enhancer ;;
  ret this.

Definition defer (cb : callback) (this : Bundle) : M Bundle :=
  _assertNotSealed this ;;
  ret (mkBundle (locals this) (bundles this) (earlyReducers this)
                (actionReducers this) (lateReducers this)
                (views this) (defers this ++ [cb]) (sagas this) (sealed this)).

Definition Bundle_lookup (env : Env) (name : string) (this : Bundle) : M (value * Bundle) :=
  v <- lookup env name ;;
  ret (v, this).

(** [connect (selector) (view)] of react-redux: a new component. *)
Definition connect (selector view : value) : M value :=
  fun st =>
    Ok (VConnected (length (connected st)),
        mkLinker (globalScope st) (typeMap st) (nameForActionType st)
                 (enhancers st) (useQueue st) (heap st)
                 (connected st ++ [(selector, view)]) (displayName st)).

(** [view.displayName = label]; a [TypeError] (strict mode) when [view] is
    not an object. *)
Definition set_displayName (view : value) (label : string) : M unit :=
  match view with
  | VFun _ | VObj _ | VConnected _ =>
      modify (fun st =>
        mkLinker (globalScope st) (typeMap st) (nameForActionType st)
                 (enhancers st) (useQueue st) (heap st) (connected st)
                 (<[view := label]> (displayName st)))
  | _ => throw TypeError
  end.

(** [this.locals[property]] *)
Definition read_locals (env : Env) (this : Bundle) (property : string) : M value :=
  fun st =>
    match makeSafeProxy env (default ∅ (heap st !! locals this))
                        undeclaredDependencyError property with
    | Ok v => Ok (v, st)
    | Throw e => Throw e
    end.

(** The body of the first loop of [_linkViews]. *)
Definition linkView (env : Env) (this : Bundle) (descriptor : viewDescriptor) : M unit :=
  let '(View name view selector) := descriptor in
  view <- (if decide (selector = VUndefined) then ret view
           else
             selector <- match selector with
                         | VStr s => read_locals env this s
                         | _ => ret selector
                         end ;;
             if decide (typeof selector = "function") then connect selector view
             else throw InvalidSelector) ;;
  set_displayName view ("View(" +:+ name +:+ ")") ;;
  publish env "view" name view.

Fixpoint _linkViews (env : Env) (this : Bundle) : M unit :=
  (* Define and connect views. *)
  forEach (linkView env this) (views this) ;;
  (* Define and connect views in included bundles. *)
  forEach (_linkViews env) (bundles this).

(** [_runDefers] declares no parameter: what [finalize] passes is in
    [arguments] only, and each callback is called with [.call ()]. *)
Fixpoint _runDefers (this : Bundle) (arguments : list value) (w : World) : World :=
  (* The bundle's defers run first, *)
  let w := fold_left (fun w (cb : callback) => cb [] w) (defers this) w in
  (* followed by the defers in included bundles. *)
  fold_left (fun w bundle => _runDefers bundle [] w) (bundles this) w.

(** [reducers.reduce (f, null)] *)
Definition reduce {A B} (f : B -> A -> B) (init : B) (l : list A) : B :=
  fold_left f l init.

Fixpoint _earlyReducer (this : Bundle) : reducerV State Action :=
  let reducers := earlyReducers this ++ map _earlyReducer (bundles this) in
  reduce reverseCompose RNull reducers.

Fixpoint _lateReducer (this : Bundle) : reducerV State Action :=
  let reducers := lateReducers this ++ map _lateReducer (bundles this) in
  reduce directCompose RNull reducers.

(** [actionMap.get (actionType)] is [undefined] for a missing key. *)
Definition actionMap_get (actionMap : gmap value (reducerV State Action)) (actionType : value)
    : reducerV State Action :=
  default RUndefined (actionMap !! actionType).

(** [_buildActionMap] only reads the linker state: the action map is threaded
    through the traversal and an exception of [this.locals[name]] ends it. *)
Definition buildActionEntry (env : Env) (st : Linker) (this : Bundle)
    (actionMap : gmap value (reducerV State Action))
    (entry : string * (State -> Action -> State))
    : result (gmap value (reducerV State Action)) :=
  let '(name, reducer) := entry in
  match read_locals env this name st with
  | Throw e => Throw e
  | Ok (actionType, _) =>
      let prevReducer := actionMap_get actionMap actionType in
      Ok (<[actionType := reverseCompose prevReducer (RFun reducer)]> actionMap)
  end.

(** [for] loop over [l] threading the action map. *)
Fixpoint foldM {A B} (f : B -> A -> result B) (l : list A) (b : B) : result B :=
  match l with
  | [] => Ok b
  | x :: l' => match f b x with
               | Ok b' => foldM f l' b'
               | Throw e => Throw e
               end
  end.

Fixpoint _buildActionMap (env : Env) (st : Linker) (this : Bundle)
    (actionMap : gmap value (reducerV State Action))
    : result (gmap value (reducerV State Action)) :=
  match foldM (buildActionEntry env st this) (actionReducers this) actionMap with
  | Throw e => Throw e
  | Ok actionMap =>
      foldM (fun actionMap bundle => _buildActionMap env st bundle actionMap)
            (bundles this) actionMap
  end.

Fixpoint _seal (this : Bundle) : Bundle :=
  mkBundle (locals this) (map _seal (bundles this)) (earlyReducers this)
           (actionReducers this) (lateReducers this) (views this)
           (defers this) (sagas this) true.

(** ** Builders *)

(** One call of a public method of the bundle the builder received. *)
#[warnings="-register-all"] Inductive directive : Type :=
| Include (builder : list directive)
| Use (names : list string)
| Pack (names : list string)
| DefineValue (name : string) (v : value)
| DefineSelector (name : string) (v : value)
| DefineAction (name actionType : string)
| DefineView (name : string) (selector view : value)
| AddReducer (name : string) (reducer : State -> Action -> State)
| AddReducer1 (reducer : reducerV State Action)
| AddEarlyReducer (reducer : reducerV State Action)
| AddLateReducer (reducer : reducerV State Action)
| AddSaga (saga : value)
| AddEnhancer (enhancer : value)
| Defer (cb : callback)
| Lookup (name : string).

Definition drop_result {A} (c : M (A * Bundle)) : M Bundle :=
  r <- c ;; ret (snd r).

(** The calls of a builder, one after the other, on the bundle it received. *)
Fixpoint run_calls {D} (call : D -> Bundle -> M Bundle) (builder : list D) (bundle : Bundle)
    : M Bundle :=
  match builder with
  | [] => ret bundle
  | d :: builder' => bundle <- call d bundle ;; run_calls call builder' bundle
  end.

Fixpoint run_directive (env : Env) (d : directive) (this : Bundle) : M Bundle :=
  match d with
  | Include builder => drop_result (include (run_calls (run_directive env) builder) this)
  | Use names => use names this
  | Pack names => drop_result (pack names this)
  | DefineValue name v => defineValue env name v this
  | DefineSelector name v => defineSelector env name v this
  | DefineAction name actionType => defineAction env name actionType this
  | DefineView name selector view => defineView name selector view this
  | AddReducer name reducer => addReducer name reducer this
  | AddReducer1 reducer => addReducer1 reducer this
  | AddEarlyReducer reducer => addEarlyReducer reducer this
  | AddLateReducer reducer => addLateReducer reducer this
  | AddSaga saga => addSaga saga this
  | AddEnhancer enhancer => Bundle_addEnhancer enhancer this
  | Defer cb => defer cb this
  | Lookup name => drop_result (Bundle_lookup env name this)
  end.

(** [builder (bundle, bundle.locals)] *)
Definition run_builder (env : Env) (builder : list directive) (bundle : Bundle) : M Bundle :=
  run_calls (run_directive env) builder bundle.

(** ** index.js: [link] *)

(** The task tree of [_saga]: the sagas of a bundle and of its included
    bundles, run by the saga middleware. *)
#[warnings="-register-all"] Inductive sagaTree : Type :=
| Call (saga : value)
| CallAll (effects : list sagaTree).

Fixpoint _saga (this : Bundle) : sagaTree :=
  CallAll (map Call (sagas this) ++ map _saga (bundles this)).

(** The store enhancer, as the expression [link] builds. *)
Inductive enhancerExp : Type :=
| ApplyMiddleware
| Given (enhancer : value)
| Compose (f g : enhancerExp).

Context (action_type : Action -> value).

(** What the closures returned by [link] see when linking is over. *)
Record linkFrame : Type := mkFrame {
  rootBundle : Bundle;
  linker : Linker;
  actionMap : gmap value (reducerV State Action)
}.

(** Everything [link] does until the action map is built. *)
Definition link_frame (env : Env) (rootBuilder : list directive) : result linkFrame :=
  let linking :=
    (* Call the root builder with a root bundle. *)
    rootBundle <- newBundle ;;
    rootBundle <- run_builder env rootBuilder rootBundle ;;
    (* Seal the bundles to ensure all linking is done statically. *)
    let rootBundle := _seal rootBundle in
    (* Views can depend on selector definitions, so inject them in a second phase. *)
    injectAll env (FilterArray ["action"; "selector"; "value"]) ;;
    _linkViews env rootBundle ;;
    injectAll env (FilterString "views") ;;
    ret rootBundle in
  match linking initialLinker with
  | Throw e => Throw e
  | Ok (rootBundle, st) =>
      match _buildActionMap env st rootBundle ∅ with
      | Throw e => Throw e
      | Ok actionMap => Ok (mkFrame rootBundle st actionMap)
      end
  end.

(** [actionMap.get (action.type) (state, action)] calls a function: every
    value [_buildActionMap] stores is one. *)
Definition actionReducer (actionMap : gmap value (reducerV State Action))
    (state : State) (action : Action) : State :=
  match actionMap !! action_type action with
  | Some (RFun reducer) => reducer state action
  | _ => state
  end.

Definition frame_reducer (frame : linkFrame) : reducerV State Action :=
  reduce reverseCompose RNull
    [ _earlyReducer (rootBundle frame);
      RFun (actionReducer (actionMap frame));
      _lateReducer (rootBundle frame) ].

(** The object [link] returns; [store] is [createStore (reducer, null,
    enhancer)] and [start] runs [rootSaga], both outside the linker. *)
Record linked : Type := mkLinked {
  scope : string -> result value;
  reducer : reducerV State Action;
  enhancer : enhancerExp;
  finalize : list value -> World -> World;
  rootSaga : sagaTree
}.

Definition undefinedNameError (property : string) : error :=
  UndefinedName property.

Definition link (env : Env) (rootBuilder : list directive) : result linked :=
  match link_frame env rootBuilder with
  | Throw e => Throw e
  | Ok frame =>
      Ok {| scope := makeSafeProxy env (globalScope (linker frame)) undefinedNameError;
            reducer := frame_reducer frame;
            enhancer := fold_left (fun enhancer other => Compose enhancer (Given other))
                                  (enhancers (linker frame)) ApplyMiddleware;
            finalize := fun args => _runDefers (rootBundle frame) args;
            rootSaga := _saga (rootBundle frame) |}
  end.

End Bundles.

Arguments Bundle : clear implicits.
Arguments directive : clear implicits.
Arguments linkFrame : clear implicits.
Arguments linked : clear implicits.
Arguments callback : clear implicits.

(** ** Vocabulary of the statements *)

Section Vocabulary.
Context {State Action World : Type}.

(** An operand is absent when it is [null] or [undefined]. *)
Definition absent (r : reducerV State Action) : bool :=
  match r with
  | RFun _ => false
  | _ => true
  end.

(** The transition an operand stands for in a composition: its function, or
    no change of the state when it is absent. *)
Definition transition (r : reducerV State Action) (state : State) (action : Action) : State :=
  match r with
  | RFun f => f state action
  | _ => state
  end.

(** The nodes of a bundle tree, a bundle before the bundles it includes. *)
Fixpoint nodes (this : Bundle State Action World) : list (Bundle State Action World) :=
  this :: concat (map nodes (bundles this)).

(** The deferred callbacks of a tree, depth first. *)
Fixpoint tree_defers (this : Bundle State Action World) : list (callback World) :=
  defers this ++ concat (map tree_defers (bundles this)).

(** The early and the late reducers of a tree, depth first. *)
Fixpoint tree_earlyReducers (this : Bundle State Action World) : list (reducerV State Action) :=
  earlyReducers this ++ concat (map tree_earlyReducers (bundles this)).

Fixpoint tree_lateReducers (this : Bundle State Action World) : list (reducerV State Action) :=
  lateReducers this ++ concat (map tree_lateReducers (bundles this)).

(** The action reducers of a tree, depth first, each with the address of the
    [locals] its name is read from. *)
Fixpoint tree_actionReducers (this : Bundle State Action World)
    : list (nat * string * (State -> Action -> State)) :=
  map (fun entry => (locals this, fst entry, snd entry)) (actionReducers this)
  ++ concat (map tree_actionReducers (bundles this)).

(** The reducers of such a list whose name reads as [actionType] in its
    [locals], in the order of the list. *)
Definition chain_for (env : Env) (st : Linker) (actionType : value)
    (l : list (nat * string * (State -> Action -> State))) : list (State -> Action -> State) :=
  omap (fun entry : nat * string * (State -> Action -> State) =>
          let '(target, name, reducer) := entry in
          match makeSafeProxy env (default ∅ (heap st !! target))
                              undeclaredDependencyError name with
          | Ok v => if decide (v = actionType) then Some reducer else None
          | Throw _ => None
          end) l.

(** From the action map [m] to [m'], the reducers of the list [l] were
    composed onto the chains of their action types, each after what the
    chain was; and maps that store functions only stay so. *)
Definition chains_extended (env : Env) (st : Linker)
    (l : list (nat * string * (State -> Action -> State)))
    (m m' : gmap value (reducerV State Action)) : Prop :=
  (forall actionType state action,
     transition (actionMap_get m' actionType) state action
     = fold_left (fun s (reducer : State -> Action -> State) => reducer s action)
                 (chain_for env st actionType l)
                 (transition (actionMap_get m actionType) state action)) /\
  ((forall actionType r, m !! actionType = Some r -> absent r = false) ->
   (forall actionType r, m' !! actionType = Some r -> absent r = false)) /\
  (forall actionType,
     is_Some (m !! actionType) \/ chain_for env st actionType l <> [] ->
     is_Some (m' !! actionType)).

(** Whether a directive is a call of [lookup]. *)
Definition is_lookup (d : directive State Action World) : bool :=
  match d with
  | Lookup _ => true
  | _ => false
  end.

(** What a builder publishes while it runs: a value or a selector under a
    name, or an action, whose type is registered before its name is published. *)
Inductive definition : Type :=
| Published (type name : string) (v : value)
| ActionDefined (name actionType : string).

Definition def_name (d : definition) : string :=
  match d with
  | Published _ name _ => name
  | ActionDefined name _ => name
  end.

Definition def_actionType (d : definition) : option string :=
  match d with
  | Published _ _ _ => None
  | ActionDefined _ actionType => Some actionType
  end.

(** The definitions a builder makes, in the order of its calls; those of an
    included builder are made during the [include] call. *)
Fixpoint directive_definitions (d : directive State Action World) : list definition :=
  match d with
  | Include builder => concat (map directive_definitions builder)
  | DefineValue name v => [Published "value" name v]
  | DefineSelector name v => [Published "selector" name v]
  | DefineAction name actionType => [ActionDefined name actionType]
  | _ => []
  end.

Definition definitions (builder : list (directive State Action World)) : list definition :=
  concat (map directive_definitions builder).

(** The linker calls one definition amounts to. *)
Definition run_definition (env : Env) (d : definition) : M unit :=
  match d with
  | Published type name v => publish env type name v
  | ActionDefined name actionType =>
      declareActionType actionType name ;;
      publish env "action" name (VStr actionType)
  end.

(** Definitions that cannot clash: distinct names, none of them inherited by
    the global scope object, and distinct action types. *)
Definition conflict_free (env : Env) (l : list definition) :=
  NoDup (map def_name l) /\
  NoDup (omap def_actionType l) /\
  Forall (fun d => Object_prototype env !! def_name d = None) l.

(** What one directive adds to the lists of the bundle it is called on. *)
Definition own_earlyReducers (d : directive State Action World) : list (reducerV State Action) :=
  match d with
  | AddEarlyReducer reducer => [reducer]
  | _ => []
  end.

Definition own_lateReducers (d : directive State Action World) : list (reducerV State Action) :=
  match d with
  | AddLateReducer reducer => [reducer]
  | AddReducer1 reducer => [reducer]
  | _ => []
  end.

Definition own_actionReducers (d : directive State Action World)
    : list (string * (State -> Action -> State)) :=
  match d with
  | AddReducer name reducer => [(name, reducer)]
  | _ => []
  end.

Definition own_views (d : directive State Action World) : list viewDescriptor :=
  match d with
  | DefineView name selector view =>
      if decide (view = VUndefined) then [View name selector VUndefined]
      else [View name view selector]
  | _ => []
  end.

Definition own_defers (d : directive State Action World) : list (callback World) :=
  match d with
  | Defer cb => [cb]
  | _ => []
  end.

Definition own_sagas (d : directive State Action World) : list value :=
  match d with
  | AddSaga saga => [saga]
  | _ => []
  end.

(** The tree a builder describes, addresses left out ([locals] is 0): the
    bundle of the builder, filled by its own calls, above the trees of the
    builders it includes. *)
Fixpoint included (d : directive State Action World) : list (Bundle State Action World) :=
  match d with
  | Include builder =>
      [mkBundle 0 (concat (map included builder))
                (concat (map own_earlyReducers builder))
                (concat (map own_actionReducers builder))
                (concat (map own_lateReducers builder))
                (concat (map own_views builder))
                (concat (map own_defers builder))
                (concat (map own_sagas builder)) false]
  | _ => []
  end.

(** A bundle after the calls of [builder] on it, addresses left out. *)
Definition extend (this : Bundle State Action World) (builder : list (directive State Action World))
    : Bundle State Action World :=
  mkBundle 0 (bundles this ++ concat (map included builder))
           (earlyReducers this ++ concat (map own_earlyReducers builder))
           (actionReducers this ++ concat (map own_actionReducers builder))
           (lateReducers this ++ concat (map own_lateReducers builder))
           (views this ++ concat (map own_views builder))
           (defers this ++ concat (map own_defers builder))
           (sagas this ++ concat (map own_sagas builder)) false.

Definition builder_tree (builder : list (directive State Action World)) : Bundle State Action World :=
  extend (mkBundle 0 [] [] [] [] [] [] [] false) builder.

(** A bundle tree without its addresses and seals. *)
Fixpoint erase (this : Bundle State Action World) : Bundle State Action World :=
  mkBundle 0 (map erase (bundles this)) (earlyReducers this) (actionReducers this)
           (lateReducers this) (views this) (defers this) (sagas this) false.

(** The names of the views of a tree, in the order [_linkViews] publishes them. *)
Definition view_name (descriptor : viewDescriptor) : string :=
  let '(View name _ _) := descriptor in name.

Fixpoint tree_viewNames (this : Bundle State Action World) : list string :=
  map view_name (views this) ++ concat (map tree_viewNames (bundles this)).

(** The linker states that agree on what has been published. *)
Definition same_registry (st st1 : Linker) : Prop :=
  globalScope st = globalScope st1 /\ typeMap st = typeMap st1 /\
  nameForActionType st = nameForActionType st1.

(** A run of calls on a bundle that follows the definitions [defs]: it fails
    where they fail, with the same error, and otherwise ends with their
    registry and with the bundle extended by the calls of [builder]. *)
Definition simulates (env : Env) (defs : list definition)
    (builder : list (directive State Action World))
    (run : Bundle State Action World -> M (Bundle State Action World)) : Prop :=
  forall this st st1,
    sealed this = false -> same_registry st st1 ->
    match forEach (run_definition env) defs st1 with
    | Throw e => run this st = Throw e
    | Ok (_, st1') =>
        exists this' st',
          run this st = Ok (this', st') /\ sealed this' = false /\
          locals this' = locals this /\ erase this' = extend (erase this) builder /\
          same_registry st' st1' /\
          connected st' = connected st /\ displayName st' = displayName st
    end.

(** Every name with a type tag is a property of the global scope. *)
Definition types_published (st : Linker) : Prop :=
  forall name, is_Some (typeMap st !! name) -> is_Some (globalScope st !! name).

(** Two linker states that differ at most in the properties of the [locals]
    targets. *)
Definition only_locals_changed (st st' : Linker) : Prop :=
  globalScope st' = globalScope st /\ typeMap st' = typeMap st /\
  nameForActionType st' = nameForActionType st /\ enhancers st' = enhancers st /\
  useQueue st' = useQueue st /\ length (heap st') = length (heap st) /\
  connected st' = connected st /\ displayName st' = displayName st.

(** The two type filters [link] passes to [injectAll]. *)
Definition link_filter (filter : typeFilter) : Prop :=
  filter = FilterArray ["action"; "selector"; "value"] \/ filter = FilterString "views".

(** From [st] to [st'], exactly the names [names] were published, each one
    once and none of them known before; targets and queues are untouched. *)
Definition published_between (env : Env) (names : list string) (st st' : Linker) : Prop :=
  NoDup names /\
  (forall n, n ∈ names -> has_property env (globalScope st) n = false) /\
  (forall n, is_Some (globalScope st' !! n) <-> is_Some (globalScope st !! n) \/ n ∈ names) /\
  (types_published st -> types_published st') /\
  heap st' = heap st /\ useQueue st' = useQueue st.

(** The errors view linking can raise. *)
Definition view_error (e : error) : Prop :=
  match e with
  | LinkerConflict _ | TypeError | InvalidSelector | UndeclaredDependency _ => True
  | _ => False
  end.

(** The names a builder has published when [link] is over: those of its
    definitions, in the order of the calls, then those of the views of its
    tree, in the order [_linkViews] visits them. *)
Definition published_names (builder : list (directive State Action World)) : list string :=
  map def_name (definitions builder) ++ tree_viewNames (builder_tree builder).

(** The errors a definition can raise. *)
Definition conflict_error (e : error) : Prop :=
  match e with
  | ActionTypeConflict _ | LinkerConflict _ => True
  | _ => False
  end.

Definition is_include (d : directive State Action World) : bool :=
  match d with
  | Include _ => true
  | _ => false
  end.

End Vocabulary.

(** ** Vocabulary of the linked application *)

Section Linked.
Context {State Action World : Type}.

(** The enhancers a builder adds, in the order of the calls: those of an
    included builder are added during the [include] call. *)
Fixpoint directive_enhancers (d : directive State Action World) : list value :=
  match d with
  | Include builder => concat (map directive_enhancers builder)
  | AddEnhancer enhancer => [enhancer]
  | _ => []
  end.

Definition builder_enhancers (builder : list (directive State Action World)) : list value :=
  concat (map directive_enhancers builder).

(** The sagas of a tree, depth first. *)
Fixpoint tree_sagas (this : Bundle State Action World) : list value :=
  sagas this ++ concat (map tree_sagas (bundles this)).

(** The sagas a task tree calls, from left to right. *)
Fixpoint saga_calls (task : sagaTree) : list value :=
  match task with
  | Call saga => [saga]
  | CallAll effects => concat (map saga_calls effects)
  end.

(** The view descriptors of a tree, in the order [_linkViews] visits them. *)
Fixpoint tree_views (this : Bundle State Action World) : list viewDescriptor :=
  views this ++ concat (map tree_views (bundles this)).

(** The action reducers of a tree with the names they were added under,
    depth first. *)
Fixpoint tree_namedReducers (this : Bundle State Action World)
    : list (string * (State -> Action -> State)) :=
  actionReducers this ++ concat (map tree_namedReducers (bundles this)).

(** The value and the type tag a definition publishes. *)
Definition def_value (d : definition) : value :=
  match d with
  | Published _ _ v => v
  | ActionDefined _ actionType => VStr actionType
  end.

Definition def_type (d : definition) : string :=
  match d with
  | Published type _ _ => type
  | ActionDefined _ _ => "action"
  end.

(** The names a call declares on the [locals] of the bundle it is called on. *)
Definition own_uses (d : directive State Action World) : list string :=
  match d with
  | Use names => names
  | DefineValue name _ => [name]
  | DefineSelector name _ => [name]
  | DefineAction name _ => [name]
  | DefineView name _ _ => [name]
  | AddReducer name _ => [name]
  | _ => []
  end.

(** The names the bundles of the builders a call includes declare on their
    [locals], one list for each bundle, in the order of [nodes]. *)
Fixpoint included_uses (d : directive State Action World) : list (list string) :=
  match d with
  | Include builder => concat (map own_uses builder) :: concat (map included_uses builder)
  | _ => []
  end.

(** The same for the tree of a builder, the bundle of the builder first. *)
Definition tree_uses (builder : list (directive State Action World)) : list (list string) :=
  concat (map own_uses builder) :: concat (map included_uses builder).

(** The names declared on the targets a call allocates, one list for each
    target, in the order of allocation: [include] makes the [locals] of the
    included bundle and then what the included builder allocates, [pack]
    makes one target. *)
Fixpoint allocated_uses (d : directive State Action World) : list (list string) :=
  match d with
  | Include builder => concat (map own_uses builder) :: concat (map allocated_uses builder)
  | Pack names => [names]
  | _ => []
  end.

(** The same for all the targets of a [link]: the [locals] of the root
    bundle, then what the root builder allocates. *)
Definition targets_uses (builder : list (directive State Action World)) : list (list string) :=
  concat (map own_uses builder) :: concat (map allocated_uses builder).

(** The entries a call other than [include] adds to the use queue, for a
    bundle whose [locals] is at [target] when the next free address is [next]. *)
Definition own_queue (d : directive State Action World) (target next : nat)
    : list (nat * useArg) :=
  match d with
  | Use names => [(target, UseArray names)]
  | Pack names => [(next, UseArray names)]
  | DefineValue name _ => [(target, UseArray [name])]
  | DefineSelector name _ => [(target, UseArray [name])]
  | DefineAction name _ => [(target, UseArray [name])]
  | DefineView name _ _ => [(target, UseArray [name])]
  | AddReducer name _ => [(target, UseArray [name])]
  | _ => []
  end.

(** The targets such a call allocates. *)
Definition own_targets (d : directive State Action World) : list (gmap string value) :=
  match d with
  | Pack _ => [∅]
  | _ => []
  end.

(** The use queue holds [name] for the target at address [target]. *)
Definition declared (st : Linker) (target : nat) (name : string) : Prop :=
  exists names, (target, UseArray names) ∈ useQueue st /\ name ∈ names.

(** The target at address [target] has the property [name], with the value
    the global scope has for it. *)
Definition entry_resolved (st : Linker) (target : nat) (name : string) : Prop :=
  exists obj v,
    heap st !! target = Some obj /\ obj !! name = Some v /\ globalScope st !! name = Some v.

(** The targets hold nothing but declared names with their global values. *)
Definition locals_sound (st : Linker) : Prop :=
  forall target obj name v,
    heap st !! target = Some obj -> obj !! name = Some v ->
    globalScope st !! name = Some v /\ declared st target name.

(** The own properties of the global scope are the names with a type tag,
    the tags are the four the linker knows, and no published name is one the
    global scope object inherits. *)
Definition registry_ok (env : Env) (st : Linker) : Prop :=
  (forall name, is_Some (globalScope st !! name) <-> is_Some (typeMap st !! name)) /\
  (forall name type, typeMap st !! name = Some type ->
     type ∈ ["value"; "selector"; "action"; "view"]) /\
  (forall name, is_Some (globalScope st !! name) -> Object_prototype env !! name = None).

(** Every entry of the use queue is an array of names for an allocated target. *)
Definition queue_ok (st : Linker) : Prop :=
  Forall (fun entry : nat * useArg =>
            fst entry < length (heap st) /\ exists names, snd entry = UseArray names)
         (useQueue st).

(** The [locals] of every bundle of the tree is allocated, and the names of
    its action reducers are declared on it. *)
Definition nodes_declared (this : Bundle State Action World) (st : Linker) : Prop :=
  forall n, n ∈ nodes this ->
    locals n < length (heap st) /\
    forall entry, entry ∈ actionReducers n -> declared st (locals n) (fst entry).

(** The bundles a bundle includes, with the bundles they include. *)
Definition subnodes (this : Bundle State Action World) : list (Bundle State Action World) :=
  concat (map nodes (bundles this)).

(** The bundle [n], made between the states [st] and [st'], has exactly the
    names [names] in the queue. *)
Definition node_uses (st st' : Linker) (n : Bundle State Action World) (names : list string)
    : Prop :=
  length (heap st) <= locals n < length (heap st') /\
  forall name, declared st' (locals n) name <-> name ∈ names.

(** What the calls of builders do to the queue and to the targets: entries
    are added at the end of the queue and new targets are empty objects. *)
Definition queue_grows (st st' : Linker) : Prop :=
  (exists q, useQueue st' = useQueue st ++ q) /\
  (exists k, heap st' = heap st ++ replicate k ∅).

(** The global scope only gets new names, none of them inherited. *)
Definition scope_grows (env : Env) (st st' : Linker) : Prop :=
  globalScope st ⊆ globalScope st' /\
  (forall name, is_Some (Object_prototype env !! name) ->
     globalScope st !! name = None -> globalScope st' !! name = None).

(** Publishing keeps the registry in order. *)
Definition registry_grows (env : Env) (st st' : Linker) : Prop :=
  scope_grows env st st' /\ (registry_ok env st -> registry_ok env st').

(** What view linking does to the linker state: views are published and
    connected; the queue, the targets and the enhancers stay. *)
Definition views_linked (env : Env) (st st' : Linker) : Prop :=
  registry_grows env st st' /\
  (forall name type, typeMap st' !! name = Some type ->
     type = "view" \/ typeMap st !! name = Some type) /\
  (exists c, connected st' = connected st ++ c) /\
  heap st' = heap st /\ useQueue st' = useQueue st /\ enhancers st' = enhancers st.

(** The type filter of an injection pass and the type tags it lets through. *)
Definition filter_types (filter : typeFilter) (types : list string) : Prop :=
  (filter = FilterArray ["action"; "selector"; "value"] /\
   types = ["action"; "selector"; "value"]) \/
  (filter = FilterString "views" /\ types = ["view"]).

(** A view descriptor is linked: its name is published with the view itself
    when it has no selector, and otherwise with a component connected to the
    selector, a string selector standing for the global value of that name. *)
Definition view_linked (env : Env) (st : Linker) (descriptor : viewDescriptor) : Prop :=
  let '(View name view selector) := descriptor in
  exists v,
    globalScope st !! name = Some v /\
    match selector with
    | VUndefined => v = view
    | VStr s =>
        exists k, v = VConnected k /\
          connected st !! k = Some (get_property env (globalScope st) s, view) /\
          typeof (get_property env (globalScope st) s) = "function"
    | _ => exists k, v = VConnected k /\ connected st !! k = Some (selector, view)
    end.

(** The reducers of a list added under a name whose global value is
    [actionType], in the order of the list. *)
Definition selected_reducers (env : Env) (st : Linker) (actionType : value)
    (l : list (string * (State -> Action -> State))) : list (State -> Action -> State) :=
  omap (fun entry : string * (State -> Action -> State) =>
          if decide (get_property env (globalScope st) (fst entry) = actionType)
          then Some (snd entry) else None) l.

(** The runtime [env] without [Proxy]. *)
Definition withoutProxy (env : Env) : Env :=
  {| hasProxy := false; Object_prototype := Object_prototype env |}.

(** The errors [link] can raise. *)
Definition link_error (e : error) : Prop :=
  match e with
  | ActionTypeConflict _ | LinkerConflict _ | TypeError | InvalidSelector
  | UndeclaredDependency _ => True
  | _ => False
  end.

End Linked.

(** ** Vocabulary of view linking *)

Section ViewVocabulary.
Context {State Action World : Type}.

(** A value that can be given a property: a function or another object. *)
Definition is_object (v : value) : Prop :=
  match v with
  | VFun _ | VObj _ | VConnected _ => True
  | _ => False
  end.

(** What a bundle reads under [s] in its [locals] when views are linked,
    [names] being the names the calls of its builder declare: the value of a
    definition of the tree when [s] is one of these names, or what every
    object inherits under [s]. *)
Definition local_value (env : Env) (b : list (directive State Action World))
    (names : list string) (s : string) (v : value) : Prop :=
  (s ∈ names /\ exists d, d ∈ definitions b /\ def_name d = s /\ def_value d = v) \/
  Object_prototype env !! s = Some v.

(** A view that can be linked in a bundle whose builder declares [names],
    its name apart: without selector the view is an object; a selector is a
    function, and a selector name reads as a function in the [locals] of the
    bundle. *)
Definition view_linkable (env : Env) (b : list (directive State Action World))
    (names : list string) (descriptor : viewDescriptor) : Prop :=
  let '(View name view selector) := descriptor in
  match selector with
  | VUndefined => is_object view
  | VStr s => exists f, local_value env b names s f /\ typeof f = "function"
  | _ => typeof selector = "function"
  end.

(** The builders that can be linked: the definitions do not clash; no name
    is published twice, views included, and no view has an inherited name;
    bundle by bundle, the views can be linked; and, if the runtime has
    [Proxy], the names given to [addReducer] are published or inherited. *)
Definition linkable (env : Env) (b : list (directive State Action World)) : Prop :=
  conflict_free env (definitions b) /\
  NoDup (published_names b) /\
  Forall (fun name => Object_prototype env !! name = None) (tree_viewNames (builder_tree b)) /\
  Forall2 (fun n names => Forall (view_linkable env b names) (views n))
          (nodes (builder_tree b)) (tree_uses b) /\
  (hasProxy env = true ->
   forall name reducer, (name, reducer) ∈ tree_namedReducers (builder_tree b) ->
     name ∈ published_names b \/ is_Some (Object_prototype env !! name)).

(** The same view for a bundle whose [locals] is in the targets [h]. *)
Definition view_ready (env : Env) (h : list (gmap string value))
    (this : Bundle State Action World) (descriptor : viewDescriptor) : Prop :=
  let '(View name view selector) := descriptor in
  match selector with
  | VUndefined => is_object view
  | VStr s =>
      exists f,
        makeSafeProxy env (default ∅ (h !! locals this)) undeclaredDependencyError s = Ok f /\
        typeof f = "function"
  | _ => typeof selector = "function"
  end.

(** No view of [ds] declared without selector is the [k]-th component that
    [connect] makes: such a component does not exist before views are linked. *)
Definition not_given (ds : list viewDescriptor) (k : nat) : Prop :=
  forall name, View name (VConnected k) VUndefined ∉ ds.

(** A view declared with a selector name is linked in the state [st]: the
    name was read in the [locals] of the bundle, in the targets [h], as a
    function; the view is published as a component connected to that
    function, and the component has the label of the view. *)
Definition selector_linked (env : Env) (h : list (gmap string value)) (ds : list viewDescriptor)
    (this : Bundle State Action World) (st : Linker) (descriptor : viewDescriptor) : Prop :=
  let '(View name view selector) := descriptor in
  forall s, selector = VStr s ->
    exists sel k,
      makeSafeProxy env (default ∅ (h !! locals this)) undeclaredDependencyError s = Ok sel /\
      typeof sel = "function" /\
      globalScope st !! name = Some (VConnected k) /\
      connected st !! k = Some (sel, view) /\
      (not_given ds k -> displayName st !! VConnected k = Some ("View(" +:+ name +:+ ")")).

(** What view linking keeps: the global scope and the connected components
    only grow, the targets stay, and so do the labels of the components made
    so far. *)
Definition labels_kept (ds : list viewDescriptor) (st st' : Linker) : Prop :=
  globalScope st ⊆ globalScope st' /\ heap st' = heap st /\
  (exists c, connected st' = connected st ++ c) /\
  forall k, k < length (connected st) -> not_given ds k ->
    displayName st' !! VConnected k = displayName st !! VConnected k.

(** The view [name], declared with the selector name [s] on the view [view]
    in the bundle [n] whose builder declares [names], is linked in the state
    [st] of a builder [b]: the [locals] of the bundle reads under [s] a
    function, which is the value the builder's declarations give the name;
    the view is published as a component connected to that function, and
    the component has the label of the view. *)
Definition selector_resolved (env : Env) (b : list (directive State Action World))
    (st : Linker) (n : Bundle State Action World) (names : list string)
    (name : string) (view : value) (s : string) : Prop :=
  exists selector k obj,
    heap st !! locals n = Some obj /\ get_property env obj s = selector /\
    local_value env b names s selector /\ typeof selector = "function" /\
    globalScope st !! name = Some (VConnected k) /\
    connected st !! k = Some (selector, view) /\
    (not_given (tree_views (builder_tree b)) k ->
     displayName st !! VConnected k = Some ("View(" +:+ name +:+ ")")).

End ViewVocabulary.

(** * Properties *)

(** The root bundle and the linker state when the root builder is called. *)
Local Abbreviation root0 := (mkBundle 0 [] [] [] [] [] [] [] false).
Local Abbreviation st0 :=
  (mkLinker (∅ : gmap string value) (∅ : gmap string string) (∅ : gmap string string)
            [] [] [(∅ : gmap string value)] [] (∅ : gmap value string)).

(** ** Induction on bundle trees and on builders *)

Section Induction.
Context {State Action World : Type}.

Lemma Bundle_tree_ind (P : Bundle State Action World -> Prop) :
  (forall this, Forall P (bundles this) -> P this) ->
  forall this, P this.
Proof.
  intros step.
  fix IH 1.
  intros this. apply step.
  destruct this as [l bs e a t v d s z]. simpl.
  induction bs as [|b bs IHbs]; constructor.
  - apply IH.
  - exact IHbs.
Qed.

Lemma directive_nested_ind (P : directive State Action World -> Prop) :
  (forall builder, Forall P builder -> P (Include builder)) ->
  (forall d, is_include d = false -> P d) ->
  forall d, P d.
Proof.
  intros Hinc Hother.
  fix IH 1.
  intros d. destruct d as [builder| | | | | | | | | | | | | |];
    try (apply Hother; reflexivity).
  apply Hinc.
  induction builder as [|d builder IHb]; constructor.
  - apply IH.
  - exact IHb.
Qed.

End Induction.

(** ** The reducer combinators *)

Section Combinators.
Context {State Action : Type}.
Implicit Types (f : State -> Action -> State) (x y : reducerV State Action).

Lemma directCompose_absent_l x f : absent x = true -> directCompose x (RFun f) = RFun f.
Proof. destruct x; simpl; intros; try reflexivity; discriminate. Qed.

Lemma directCompose_absent_r x f : absent x = true -> directCompose (RFun f) x = RFun f.
Proof. destruct x; simpl; intros; try reflexivity; discriminate. Qed.

Lemma reverseCompose_absent_l x f : absent x = true -> reverseCompose x (RFun f) = RFun f.
Proof. destruct x; simpl; intros; try reflexivity; discriminate. Qed.

Lemma reverseCompose_absent_r x f : absent x = true -> reverseCompose (RFun f) x = RFun f.
Proof. destruct x; simpl; intros; try reflexivity; discriminate. Qed.

(** Both combinators compute the same transition: the first reducer, then
    the second one. *)
Lemma transition_reverseCompose x y state action :
  transition (reverseCompose x y) state action
  = transition y (transition x state action) action.
Proof. destruct x, y; reflexivity. Qed.

Lemma transition_directCompose x y state action :
  transition (directCompose y x) state action
  = transition y (transition x state action) action.
Proof. destruct x, y; reflexivity. Qed.

(** C3 (as amended): a reducer combined with an absent operand, in either
    position and by either combinator, is returned unchanged; two absent
    operands give back one of them ([directCompose] its first argument,
    [reverseCompose] its second), which is absent and not a function. *)
Theorem compose_absent_operand x y f :
  absent x = true -> absent y = true ->
  directCompose (RFun f) x = RFun f /\ directCompose x (RFun f) = RFun f /\
  reverseCompose (RFun f) x = RFun f /\ reverseCompose x (RFun f) = RFun f /\
  directCompose x y = x /\ reverseCompose x y = y /\
  absent (directCompose x y) = true /\ absent (reverseCompose x y) = true.
Proof.
  intros Hx Hy.
  rewrite directCompose_absent_l, directCompose_absent_r,
    reverseCompose_absent_l, reverseCompose_absent_r by assumption.
  destruct x; try discriminate; destruct y; try discriminate; repeat split.
Qed.

End Combinators.

(** A reducer against [null], and [null] against [undefined]. *)
Lemma compose_absent_operand_witness :
  directCompose (RFun (fun s a : nat => s + a)) RNull = RFun (fun s a => s + a) /\
  directCompose (@RNull nat nat) RUndefined = RNull.
Proof.
  pose proof (compose_absent_operand (@RNull nat nat) RUndefined (fun s a => s + a)
                eq_refl eq_refl) as H.
  split; [exact (proj1 H) | exact (proj1 (proj2 (proj2 (proj2 (proj2 H)))))].
Defined.

(** C3 as stated fails: two absent operands do not give an identity
    transition, the result is [null], which is not a function at all. *)
Lemma compose_absent_absent_counterexample :
  ~ (exists r : nat -> nat -> nat,
       directCompose RNull RNull = RFun r /\ forall s a, r s a = s) /\
  ~ (exists r : nat -> nat -> nat,
       reverseCompose RNull RNull = RFun r /\ forall s a, r s a = s).
Proof. split; intros [r [H _]]; discriminate H. Qed.

(** ** Sealing *)

Section Sealing.
Context {State Action World : Type}.
Implicit Types (this root n : Bundle State Action World) (d : directive State Action World).

Lemma nodes_seal_sealed root n : n ∈ nodes (_seal root) -> sealed n = true.
Proof.
  revert n. induction root as [root IH] using Bundle_tree_ind. intros n.
  destruct root as [l bs e a t v df s z]; simpl in *.
  rewrite elem_of_cons. intros [->|Hn]; [reflexivity|].
  apply list_elem_of_In, in_concat in Hn as [ns [Hns Hn]].
  apply in_map_iff in Hns as [c [<- Hc]].
  apply in_map_iff in Hc as [c' [<- Hc']].
  rewrite Forall_forall in IH.
  apply (IH c' Hc'), list_elem_of_In, Hn.
Qed.

Lemma sealed_directive_throws env d this st :
  sealed this = true -> is_lookup d = false -> run_directive env d this st = Throw Sealed.
Proof.
  intros Hs Hd.
  destruct d; try discriminate Hd; simpl;
    unfold drop_result, include, use, pack, defineValue, defineSelector, defineAction,
      defineView, addReducer, addReducer1, addEarlyReducer, addLateReducer, addSaga,
      Bundle_addEnhancer, defer, bind, _assertNotSealed;
    rewrite Hs; reflexivity.
Qed.

(** C4 (as amended): once the tree is sealed, every public operation except
    [lookup], called on any node of the tree, fails with the already-sealed
    error; [lookup] is not guarded and still reads the global scope. *)
Theorem sealed_tree_rejects_directives env root n d st :
  n ∈ nodes (_seal root) ->
  (is_lookup d = false -> run_directive env d n st = Throw Sealed) /\
  (forall name,
     Bundle_lookup env name n st = Ok (get_property env (globalScope st) name, n, st)).
Proof.
  intros Hn. split.
  - intros Hd. apply sealed_directive_throws; [|exact Hd].
    eapply nodes_seal_sealed; eassumption.
  - reflexivity.
Qed.

End Sealing.

(** [defineValue] on the included bundle of a sealed tree. *)
Lemma sealed_tree_rejects_directives_witness :
  let root : Bundle unit unit unit := mkBundle 0 [mkBundle 1 [] [] [] [] [] [] [] false]
                                               [] [] [] [] [] [] false in
  let child : Bundle unit unit unit := mkBundle 1 [] [] [] [] [] [] [] true in
  child ∈ nodes (_seal root) /\
  run_directive {| hasProxy := true; Object_prototype := ∅ |}
    (DefineValue "x" (VNum 1)) child initialLinker = Throw Sealed.
Proof.
  intros root child.
  assert (Hn : child ∈ nodes (_seal root)).
  { simpl. apply list_elem_of_further, list_elem_of_here. }
  split; [exact Hn|].
  exact (proj1 (sealed_tree_rejects_directives
                  {| hasProxy := true; Object_prototype := ∅ |}
                  root child (DefineValue "x" (VNum 1)) initialLinker Hn) eq_refl).
Defined.

(** C4 as stated fails for [lookup]: after [link] has sealed the tree, a
    [lookup] on the root bundle returns the published value. *)
Lemma lookup_after_seal_counterexample :
  let env := {| hasProxy := true; Object_prototype := ∅ |} in
  match link_frame (State := unit) (Action := unit) (World := unit) env
          [DefineValue "x" (VNum 1)] with
  | Ok frame =>
      sealed (rootBundle frame) = true /\
      Bundle_lookup env "x" (rootBundle frame) (linker frame)
        = Ok (VNum 1, rootBundle frame, linker frame) /\
      Bundle_lookup env "x" (rootBundle frame) (linker frame) <> Throw Sealed
  | Throw _ => False
  end.
Proof. vm_compute. repeat split. discriminate. Qed.

(** ** Deferred callbacks *)

Section Defers.
Context {State Action World : Type}.
Implicit Types (this : Bundle State Action World) (w : World).

(** [_runDefers] calls every deferred callback of the tree once, depth first
    (a bundle's own callbacks before those of the bundles it includes), each
    with no argument, whatever it was called with. *)
Lemma _runDefers_tree this args w :
  _runDefers this args w = fold_left (fun w (cb : callback World) => cb [] w) (tree_defers this) w.
Proof.
  revert args w. induction this as [this IH] using Bundle_tree_ind. intros args w.
  destruct this as [l bs e a t v df s z]; simpl in *.
  rewrite fold_left_app.
  generalize (fold_left (fun w0 (cb : callback World) => cb [] w0) df w) as w'.
  induction bs as [|b bs IHbs]; intros w'; simpl; [reflexivity|].
  inversion IH as [|? ? Hb Hbs]; subst.
  rewrite fold_left_app, <- (Hb []). apply IHbs, Hbs.
Qed.

End Defers.

(** C2 at its failing input: a root bundle defers one callback, which logs
    the arguments it is called with; [finalize (1)] calls it with no argument,
    where the claim has it called with [1]. *)
Theorem finalize_drops_arguments :
  let env := {| hasProxy := true; Object_prototype := ∅ |} in
  let log : callback (list (list value)) := fun args w => w ++ [args] in
  match link (State := unit) (Action := unit) (fun _ => VUndefined) env [Defer log] with
  | Ok l => finalize l [VNum 1] [] = [ [] ] /\ finalize l [VNum 1] [] <> [ [VNum 1] ]
  | Throw _ => False
  end.
Proof. vm_compute. split; [reflexivity | discriminate]. Qed.

(** ** Early and late reducers *)

Section Reducers.
Context {State Action World : Type}.
Implicit Types (this : Bundle State Action World) (state : State) (action : Action).

Lemma transition_reduce_reverseCompose (l : list (reducerV State Action)) init state action :
  transition (reduce reverseCompose init l) state action
  = fold_left (fun s r => transition r s action) l (transition init state action).
Proof.
  unfold reduce. revert init. induction l as [|r l IH]; intros init; simpl; [reflexivity|].
  rewrite IH, transition_reverseCompose. reflexivity.
Qed.

Lemma transition_reduce_directCompose (l : list (reducerV State Action)) init state action :
  transition (reduce directCompose init l) state action
  = transition init (fold_right (fun r s => transition r s action) state l) action.
Proof.
  unfold reduce. revert init. induction l as [|r l IH]; intros init; simpl; [reflexivity|].
  rewrite IH, transition_directCompose. reflexivity.
Qed.

(** The early stage applies the early reducers of the tree in depth-first
    order: those added or included first apply first. *)
Lemma _earlyReducer_tree this state action :
  transition (_earlyReducer this) state action
  = fold_left (fun s r => transition r s action) (tree_earlyReducers this) state.
Proof.
  revert state. induction this as [this IH] using Bundle_tree_ind. intros state.
  destruct this as [l bs e a t v df s z]; simpl in *.
  rewrite transition_reduce_reverseCompose, !fold_left_app. simpl.
  generalize (fold_left (fun s0 r => transition r s0 action) e state) as state'.
  induction bs as [|b bs IHbs]; intros state'; simpl; [reflexivity|].
  inversion IH as [|? ? Hb Hbs]; subst.
  rewrite fold_left_app, <- Hb. apply IHbs, Hbs.
Qed.

(** The late stage applies the late reducers of the tree in the reverse of
    the depth-first order: those added or included first apply last. *)
Lemma _lateReducer_tree this state action :
  transition (_lateReducer this) state action
  = fold_right (fun r s => transition r s action) state (tree_lateReducers this).
Proof.
  revert state. induction this as [this IH] using Bundle_tree_ind. intros state.
  destruct this as [l bs e a t v df s z]; simpl in *.
  rewrite transition_reduce_directCompose, !fold_right_app. simpl. f_equal.
  revert state.
  induction bs as [|b bs IHbs]; intros state; simpl; [reflexivity|].
  inversion IH as [|? ? Hb Hbs]; subst.
  rewrite fold_right_app, <- Hb. f_equal. apply IHbs, Hbs.
Qed.

End Reducers.

(** ** Running a builder *)

Section Builders.
Context {State Action World : Type}.
Implicit Types (this : Bundle State Action World) (d : directive State Action World)
  (b : list (directive State Action World)) (st : Linker).

Lemma forEach_app {A} (f : A -> M unit) (l1 l2 : list A) st :
  forEach f (l1 ++ l2) st = (forEach f l1 ;; forEach f l2) st.
Proof.
  revert st. induction l1 as [|x l1 IH]; intros st; simpl.
  - reflexivity.
  - unfold bind in *. destruct (f x st) as [[[] st']|e]; [apply IH | reflexivity].
Qed.

Lemma run_directive_Include env b this :
  run_directive env (Include b) this = drop_result (include (run_builder env b) this).
Proof. reflexivity. Qed.

Lemma extend_app this b1 b2 : extend (extend this b1) b2 = extend this (b1 ++ b2).
Proof.
  unfold extend; simpl. rewrite !map_app, !concat_app, !app_assoc. reflexivity.
Qed.

Lemma extend_nil this : extend (erase this) [] = erase this.
Proof. destruct this; unfold extend; simpl. rewrite !app_nil_r. reflexivity. Qed.

Lemma same_registry_refl st : same_registry st st.
Proof. repeat split. Qed.

Lemma simulates_nil env : simulates env [] [] (fun this => ret this).
Proof.
  intros this st st1 Hs Hr. simpl. exists this, st.
  rewrite extend_nil. repeat split; try assumption; apply Hr.
Qed.

Lemma simulates_seq env defs1 defs2 b1 b2 run1 run2 :
  simulates env defs1 b1 run1 -> simulates env defs2 b2 run2 ->
  simulates env (defs1 ++ defs2) (b1 ++ b2) (fun this => this <- run1 this ;; run2 this).
Proof.
  intros H1 H2 this st st1 Hs Hr.
  rewrite forEach_app. specialize (H1 this st st1 Hs Hr).
  unfold bind at 1. destruct (forEach (run_definition env) defs1 st1) as [[[] st1']|e].
  - destruct H1 as (this' & st' & Hrun & Hs' & Hl' & He' & Hr' & Hc' & Hd').
    specialize (H2 this' st' st1' Hs' Hr').
    unfold bind. rewrite Hrun.
    destruct (forEach (run_definition env) defs2 st1') as [[[] st1'']|e]; [|exact H2].
    destruct H2 as (this'' & st'' & Hrun2 & Hs'' & Hl'' & He'' & Hr'' & Hc'' & Hd'').
    exists this'', st''. rewrite Hrun2, He'', He', extend_app.
    repeat split; try assumption; try apply Hr''; congruence.
  - unfold bind. rewrite H1. reflexivity.
Qed.

(** A directive that defines nothing never fails on a bundle that is not
    sealed, and leaves the registry as it is. *)
Lemma simulates_plain env d :
  is_include d = false -> directive_definitions d = [] ->
  simulates env [] [d] (run_directive env d).
Proof.
  intros Hi Hd this st st1 Hs Hr. simpl.
  destruct this as [l bs e a t v df s z]; simpl in Hs; subst z.
  destruct d; try discriminate Hi; try discriminate Hd; simpl;
    unfold drop_result, use, pack, defineView, addReducer, addReducer1, addEarlyReducer,
      addLateReducer, addSaga, Bundle_addEnhancer, defer, Bundle_lookup, bind,
      _assertNotSealed; simpl.
  all: try (eexists _, _; split; [reflexivity|]; unfold extend; simpl;
            rewrite ?app_nil_r; repeat split; apply Hr).
  unfold extend; simpl. rewrite ?app_nil_r.
  destruct (decide (view = VUndefined));
    (eexists _, _; split; [reflexivity|]; repeat split; apply Hr).
Qed.

(** A directive that defines a name does what its definition does. *)
Lemma simulates_define env d :
  is_include d = false -> directive_definitions d <> [] ->
  simulates env (directive_definitions d) [d] (run_directive env d).
Proof.
  intros Hi Hd this st st1 Hs Hr.
  destruct this as [l bs e a t v df s z]; simpl in Hs; subst z.
  destruct Hr as (Hg & Ht & Hn).
  destruct d; try discriminate Hi; try (exfalso; apply Hd; reflexivity); simpl;
    unfold defineValue, defineSelector, defineAction, use, publish, declareActionType,
      declareUse, modify, gets, bind, throw, ret, _assertNotSealed; simpl;
    rewrite <- ?Hg, <- ?Ht, <- ?Hn.
  3: destruct (bool_decide (is_Some (nameForActionType st !! actionType)));
       simpl; [reflexivity|].
  all: simpl; rewrite <- ?Hg, <- ?Ht, <- ?Hn.
  all: destruct (has_property env (globalScope st) name); simpl; try reflexivity.
  all: eexists _, _; split; [reflexivity|]; unfold extend, same_registry; simpl;
    rewrite ?app_nil_r, ?Hg, ?Ht, ?Hn; repeat split.
Qed.

(** Running a builder follows the definitions it makes. *)
Lemma run_builder_simulates env b : simulates env (definitions b) b (run_builder env b).
Proof.
  assert (Hall : forall d, simulates env (directive_definitions d) [d] (run_directive env d)).
  { induction d as [c IH|d Hd] using directive_nested_ind.
    - assert (Hc : simulates env (definitions c) c (run_builder env c)).
      { clear -IH. induction c as [|d c IHc].
        - apply simulates_nil.
        - inversion IH as [|? ? Hd Hc]; subst.
          apply (simulates_seq env _ _ [d] c _ _ Hd (IHc Hc)). }
      clear IH. intros this st st1 Hs Hr.
      change (directive_definitions (Include c)) with (definitions c).
      rewrite run_directive_Include.
      unfold drop_result, include, newBundle, newLocals, bind, ret, _assertNotSealed.
      rewrite Hs. unfold ret. cbv beta iota.
      match goal with |- context [run_builder env c ?bundle ?st2] =>
        specialize (Hc bundle st2 st1 eq_refl Hr) end.
      destruct (forEach (run_definition env) (definitions c) st1) as [[[] st1']|e].
      + destruct Hc as (this' & st' & Hrun & Hs' & Hl' & He' & Hr' & Hc' & Hd').
        rewrite Hrun. eexists _, _. split; [reflexivity|].
        destruct this as [l bs ea a t v df s z]. simpl.
        rewrite map_app. simpl. rewrite He'. unfold extend. simpl.
        rewrite !app_nil_r.
        repeat split; try assumption; apply Hr'.
      + rewrite Hc. reflexivity.
    - destruct (directive_definitions d) eqn:E.
      + apply simulates_plain; assumption.
      + rewrite <- E. apply simulates_define; [assumption|]. rewrite E. discriminate. }
  induction b as [|d b IHb].
  - apply simulates_nil.
  - apply (simulates_seq env _ _ [d] b _ _ (Hall d) IHb).
Qed.

End Builders.

(** ** Definitions and the registry *)

Section Definitions.
Implicit Types (l : list definition) (st : Linker) (d : definition).

Lemma has_property_false env (obj : gmap string value) name :
  has_property env obj name = false <->
  obj !! name = None /\ Object_prototype env !! name = None.
Proof.
  unfold has_property. rewrite orb_false_iff, !bool_decide_eq_false, <- !eq_None_not_Some.
  reflexivity.
Qed.

Lemma has_property_true env (obj : gmap string value) name :
  has_property env obj name = true <->
  is_Some (obj !! name) \/ is_Some (Object_prototype env !! name).
Proof.
  unfold has_property. rewrite orb_true_iff, !bool_decide_eq_true. reflexivity.
Qed.

(** One definition: which error it raises, or what it adds to the registry. *)
Lemma run_definition_spec env d st :
  match run_definition env d st with
  | Throw e =>
      match def_actionType d with
      | Some actionType =>
          if bool_decide (is_Some (nameForActionType st !! actionType))
          then e = ActionTypeConflict actionType
          else e = LinkerConflict (def_name d) /\
               has_property env (globalScope st) (def_name d) = true
      | None => e = LinkerConflict (def_name d) /\
                has_property env (globalScope st) (def_name d) = true
      end
  | Ok (_, st') =>
      has_property env (globalScope st) (def_name d) = false /\
      (forall actionType, def_actionType d = Some actionType ->
         nameForActionType st !! actionType = None) /\
      (exists v type, globalScope st' = <[def_name d := v]> (globalScope st) /\
                      typeMap st' = <[def_name d := type]> (typeMap st)) /\
      nameForActionType st'
        = match def_actionType d with
          | Some actionType => <[actionType := def_name d]> (nameForActionType st)
          | None => nameForActionType st
          end /\
      enhancers st' = enhancers st /\ useQueue st' = useQueue st /\ heap st' = heap st /\
      connected st' = connected st /\ displayName st' = displayName st
  end.
Proof.
  destruct d as [type name v|name actionType]; simpl;
    unfold publish, declareActionType, bind, gets, modify, throw; simpl.
  - destruct (has_property env (globalScope st) name) eqn:E; simpl.
    + split; reflexivity.
    + repeat split; try discriminate. eexists _, _; split; reflexivity.
  - destruct (bool_decide (is_Some (nameForActionType st !! actionType))) eqn:Ea; simpl.
    + reflexivity.
    + destruct (has_property env (globalScope st) name) eqn:E; simpl.
      * split; reflexivity.
      * apply bool_decide_eq_false in Ea. rewrite <- eq_None_not_Some in Ea.
        repeat split.
        -- intros ? [= <-]. exact Ea.
        -- eexists _, _; split; reflexivity.
Qed.

(** Definitions that cannot clash are all accepted, from a registry that
    knows none of their names and action types. *)
Lemma run_definitions_conflict_free env l st :
  conflict_free env l ->
  (forall d, d ∈ l -> globalScope st !! def_name d = None) ->
  (forall actionType, actionType ∈ omap def_actionType l ->
     nameForActionType st !! actionType = None) ->
  exists st',
    forEach (run_definition env) l st = Ok (tt, st') /\
    (forall n, is_Some (globalScope st' !! n)
               <-> is_Some (globalScope st !! n) \/ n ∈ map def_name l) /\
    (forall t, is_Some (nameForActionType st' !! t)
               <-> is_Some (nameForActionType st !! t) \/ t ∈ omap def_actionType l).
Proof.
  revert st. induction l as [|d l IH]; intros st (Hn & Ht & Hp) Hg Ha.
  - exists st. simpl. split; [reflexivity|].
    split; intros ?; rewrite elem_of_nil; tauto.
  - simpl in Hn. apply list.NoDup_cons in Hn as [Hd Hn].
    apply list.Forall_cons in Hp as [Hpd Hp].
    pose proof (run_definition_spec env d st) as Hspec.
    simpl. unfold bind.
    destruct (run_definition env d st) as [[[] st1]|e].
    + destruct Hspec as (_ & _ & (v & type & Hg1 & Ht1) & Ha1 & _).
      destruct (IH st1) as (st' & Hrun & Hg' & Ha').
      * split; [exact Hn|]. split; [|exact Hp].
        simpl in Ht. destruct (def_actionType d); [|exact Ht].
        apply list.NoDup_cons in Ht as [_ Ht]. exact Ht.
      * intros d' Hd'. rewrite Hg1, lookup_insert_ne; [apply Hg; right; exact Hd'|].
        intros Heq. apply Hd. rewrite Heq. apply list_elem_of_In, in_map, list_elem_of_In, Hd'.
      * intros t Htin. rewrite Ha1. simpl in Ht, Ha.
        destruct (def_actionType d) as [t0|].
        -- apply list.NoDup_cons in Ht as [Ht0 _].
           rewrite lookup_insert_ne; [apply Ha; right; exact Htin|].
           intros ->. contradiction.
        -- apply Ha, Htin.
      * exists st'. split; [exact Hrun|]. split.
        -- intros n. rewrite Hg', Hg1. simpl. rewrite elem_of_cons.
           destruct (decide (def_name d = n)) as [->|Hne].
           ++ rewrite lookup_insert_eq. split; [intros _; right; left; reflexivity|].
              intros _. left. eauto.
           ++ rewrite lookup_insert_ne by exact Hne. split; [tauto|].
              intros [?|[->|?]]; tauto.
        -- intros t. rewrite Ha', Ha1. simpl.
           destruct (def_actionType d) as [t0|]; [|reflexivity].
           rewrite elem_of_cons.
           destruct (decide (t0 = t)) as [->|Hne].
           ++ rewrite lookup_insert_eq. split; [intros _; right; left; reflexivity|].
              intros _. left. eauto.
           ++ rewrite lookup_insert_ne by exact Hne. split; [tauto|].
              intros [?|[->|?]]; tauto.
    + exfalso.
      assert (Hfree : has_property env (globalScope st) (def_name d) = false).
      { apply has_property_false. split; [apply Hg; left|exact Hpd]. }
      rewrite Hfree in Hspec.
      destruct (def_actionType d) as [t|] eqn:Et.
      * rewrite bool_decide_eq_false_2 in Hspec; [destruct Hspec; discriminate|].
        rewrite <- eq_None_not_Some. apply Ha. simpl. rewrite Et. left.
      * destruct Hspec; discriminate.
Qed.

(** Accepted definitions claim pairwise distinct action types, none of them
    registered before. *)
Lemma run_definitions_action_types env l st st' :
  forEach (run_definition env) l st = Ok (tt, st') ->
  NoDup (omap def_actionType l) /\
  (forall t, t ∈ omap def_actionType l -> nameForActionType st !! t = None) /\
  (forall t, is_Some (nameForActionType st' !! t)
             <-> is_Some (nameForActionType st !! t) \/ t ∈ omap def_actionType l).
Proof.
  revert st. induction l as [|d l IH]; intros st; simpl.
  - intros [= <-]. split; [apply NoDup_nil_2|]. split.
    + intros t Ht. apply elem_of_nil in Ht as [].
    + intros t. rewrite elem_of_nil. tauto.
  - unfold bind. pose proof (run_definition_spec env d st) as Hspec.
    destruct (run_definition env d st) as [[[] st1]|e]; [|discriminate].
    destruct Hspec as (_ & Hnew & _ & Ha1 & _).
    intros Hl. destruct (IH st1 Hl) as (Hnd & Hfresh & Hdom).
    destruct (def_actionType d) as [t0|] eqn:Et.
    + specialize (Hnew t0 eq_refl). rewrite Ha1 in Hfresh, Hdom.
      split; [|split].
      * apply list.NoDup_cons. split; [|exact Hnd].
        intros Hin. apply Hfresh in Hin. rewrite lookup_insert_eq in Hin. discriminate.
      * intros t Ht. apply elem_of_cons in Ht as [->|Ht]; [exact Hnew|].
        destruct (decide (t0 = t)) as [->|Hne]; [exact Hnew|].
        apply Hfresh in Ht. rewrite lookup_insert_ne in Ht by exact Hne. exact Ht.
      * intros t. rewrite Hdom, elem_of_cons.
        destruct (decide (t0 = t)) as [->|Hne].
        -- rewrite lookup_insert_eq. split; [intros _; right; left; reflexivity|].
           intros _. left. eauto.
        -- rewrite lookup_insert_ne by exact Hne. split; [tauto|].
           intros [?|[->|?]]; tauto.
    + rewrite Ha1 in Hfresh, Hdom. split; [exact Hnd|]. split; assumption.
Qed.

End Definitions.

(** ** Conflicts raised while the builders run *)

Section Conflicts.
Context {State Action World : Type} (action_type : Action -> value).
Implicit Types (b : list (directive State Action World)) (st : Linker) (d : definition).

(** The phases of [link], one after the other. *)
Lemma link_frame_phases env b :
  link_frame env b =
  match run_builder env b root0 st0 with
  | Throw e => Throw e
  | Ok (root1, st1) =>
      match injectAll env (FilterArray ["action"; "selector"; "value"]) st1 with
      | Throw e => Throw e
      | Ok (_, st2) =>
          match _linkViews env (_seal root1) st2 with
          | Throw e => Throw e
          | Ok (_, st3) =>
              match injectAll env (FilterString "views") st3 with
              | Throw e => Throw e
              | Ok (_, st4) =>
                  match _buildActionMap env st4 (_seal root1) ∅ with
                  | Throw e => Throw e
                  | Ok actionMap => Ok (mkFrame (_seal root1) st4 actionMap)
                  end
              end
          end
      end
  end.
Proof.
  unfold link_frame. cbv zeta.
  unfold bind at 1. unfold newBundle at 1, newLocals, bind at 1, ret at 1. cbv beta iota.
  unfold bind at 1.
  change (length (heap initialLinker)) with 0.
  change (mkLinker (globalScope initialLinker) (typeMap initialLinker)
            (nameForActionType initialLinker) (enhancers initialLinker)
            (useQueue initialLinker) (heap initialLinker ++ [∅])
            (connected initialLinker) (displayName initialLinker)) with st0.
  destruct (run_builder env b root0 st0) as [[root1 st1]|e]; [|reflexivity].
  unfold bind at 1.
  destruct (injectAll env (FilterArray ["action"; "selector"; "value"]) st1)
    as [[[] st2]|e]; [|reflexivity].
  unfold bind at 1.
  destruct (_linkViews env (_seal root1) st2) as [[[] st3]|e]; [|reflexivity].
  unfold bind at 1.
  destruct (injectAll env (FilterString "views") st3) as [[[] st4]|e]; reflexivity.
Qed.

(** [link] fails where the definitions of the root builder fail. *)
Lemma link_frame_definitions_throw env b e :
  forEach (run_definition env) (definitions b) initialLinker = Throw e ->
  link_frame env b = Throw e.
Proof.
  intros Hdefs. rewrite link_frame_phases.
  assert (Hsim : run_builder env b root0 st0 = Throw e).
  { pose proof (run_builder_simulates env b root0 st0 initialLinker eq_refl
                  (conj eq_refl (conj eq_refl eq_refl))) as H.
    rewrite Hdefs in H. exact H. }
  rewrite Hsim. reflexivity.
Qed.

Lemma link_definitions_throw env b e :
  forEach (run_definition env) (definitions b) initialLinker = Throw e ->
  link action_type env b = Throw e.
Proof.
  intros H. unfold link. rewrite (link_frame_definitions_throw env b e H). reflexivity.
Qed.

Lemma run_definitions_prefix_throw env pre d post st st1 e :
  forEach (run_definition env) pre st = Ok (tt, st1) ->
  run_definition env d st1 = Throw e ->
  forEach (run_definition env) (pre ++ d :: post) st = Throw e.
Proof.
  intros Hpre Hd. rewrite forEach_app. unfold bind at 1. rewrite Hpre.
  simpl. unfold bind. rewrite Hd. reflexivity.
Qed.

Lemma conflict_free_accepted env pre :
  conflict_free env pre ->
  exists st1,
    forEach (run_definition env) pre initialLinker = Ok (tt, st1) /\
    (forall n, is_Some (globalScope st1 !! n) <-> n ∈ map def_name pre) /\
    (forall t, is_Some (nameForActionType st1 !! t) <-> t ∈ omap def_actionType pre).
Proof.
  intros Hfree.
  destruct (run_definitions_conflict_free env pre initialLinker Hfree)
    as (st1 & Hrun & Hg & Ha).
  - intros; apply lookup_empty.
  - intros; apply lookup_empty.
  - exists st1. split; [exact Hrun|]. split.
    + intros n. rewrite Hg. simpl. rewrite lookup_empty.
      split; [intros [[? [=]]|?]; assumption | auto].
    + intros t. rewrite Ha. simpl. rewrite lookup_empty.
      split; [intros [[? [=]]|?]; assumption | auto].
Qed.

Lemma message_conflicts_differ actionType name :
  message (ActionTypeConflict actionType) <> message (LinkerConflict name).
Proof. simpl. discriminate. Qed.

End Conflicts.

(** ** Injection *)

Section Injection.
Implicit Types (st : Linker) (filter : typeFilter).

Lemma only_locals_changed_refl st : only_locals_changed st st.
Proof. repeat split. Qed.

Lemma only_locals_changed_trans st1 st2 st3 :
  only_locals_changed st1 st2 -> only_locals_changed st2 st3 -> only_locals_changed st1 st3.
Proof.
  intros (?&?&?&?&?&?&?&?) (?&?&?&?&?&?&?&?). repeat split; congruence.
Qed.

(** A loop whose body keeps a relation to the initial state, or fails with
    an error of a given kind. *)
Lemma forEach_invariant {A} (f : A -> M unit) (R : Linker -> Prop) (E : error -> Prop) l :
  (forall x st, x ∈ l -> R st ->
     match f x st with Ok (_, st') => R st' | Throw e => E e end) ->
  forall st, R st ->
    match forEach f l st with Ok (_, st') => R st' | Throw e => E e end.
Proof.
  induction l as [|x l IH]; intros Hf st HR; simpl; [exact HR|].
  unfold bind. pose proof (Hf x st (list_elem_of_here _ _) HR) as Hx.
  destruct (f x st) as [[[] st']|e]; [|exact Hx].
  apply IH; [|exact Hx]. intros y st'' Hy. apply Hf. right. exact Hy.
Qed.

(** No type at all passes neither of the two filters of [link]. *)
Lemma link_filter_undefined filter :
  link_filter filter ->
  truthy_filter filter = true /\ indexOf filter None = (-1)%Z.
Proof.
  intros [->| ->]; split; reflexivity.
Qed.

(** [inject] changes the target only; it can only fail on a name whose type
    passes the filter and that the global scope does not have. *)
Lemma inject_spec env filter locals name st :
  match inject env filter locals name st with
  | Ok (_, st') => only_locals_changed st st'
  | Throw e =>
      e = UndefinedDependency name /\
      has_property env (globalScope st) name = false /\
      (truthy_filter filter && bool_decide (indexOf filter (typeMap st !! name) = (-1)%Z)) = false
  end.
Proof.
  unfold inject, bind, gets, set_local, modify, throw, ret.
  destruct (truthy_filter filter && bool_decide (indexOf filter (typeMap st !! name) = (-1)%Z)) eqn:E.
  - apply only_locals_changed_refl.
  - destruct (has_property env (globalScope st) name) eqn:Ep.
    + repeat split. simpl. apply length_alter.
    + repeat split.
Qed.

(** In [link], no name at all makes [inject] fail: a name that was never
    published has no type and is skipped. *)
Lemma inject_link_filter env filter locals name st :
  link_filter filter -> types_published st ->
  exists st', inject env filter locals name st = Ok (tt, st') /\ only_locals_changed st st'.
Proof.
  intros Hf Hinv. pose proof (inject_spec env filter locals name st) as Hspec.
  destruct (inject env filter locals name st) as [[[] st']|e]; [eauto|].
  exfalso. destruct Hspec as (_ & Hp & Hskip).
  destruct (link_filter_undefined filter Hf) as [Ht Hu].
  rewrite Ht in Hskip. simpl in Hskip. apply bool_decide_eq_false in Hskip.
  destruct (typeMap st !! name) as [t|] eqn:Et; [|contradiction].
  apply has_property_false in Hp as [Hp _].
  destruct (Hinv name) as [v Hv]; [rewrite Et; eauto|]. congruence.
Qed.

Lemma types_published_only_locals st st' :
  only_locals_changed st st' -> types_published st -> types_published st'.
Proof. intros (Hg & Ht & _) H name. rewrite Hg, Ht. apply H. Qed.

(** [injectAll], with a filter of [link]: it changes nothing but targets and
    fails only on a use-queue entry that is neither a string nor an array. *)
Lemma injectAll_spec env filter st :
  link_filter filter -> types_published st ->
  match injectAll env filter st with
  | Ok (_, st') => only_locals_changed st st'
  | Throw e => e = InvalidUse
  end.
Proof.
  intros Hf Hinv. unfold injectAll, bind, gets.
  apply (forEach_invariant _ (fun st' => only_locals_changed st st') (fun e => e = InvalidUse));
    [|apply only_locals_changed_refl].
  intros [locals arg] st1 _ H1. destruct arg as [name|names|v]; [| |reflexivity].
  - destruct (inject_link_filter env filter locals name st1 Hf) as (st' & -> & H');
      [eapply types_published_only_locals; eassumption|].
    eapply only_locals_changed_trans; eassumption.
  - apply (forEach_invariant _ (fun st' => only_locals_changed st st') (fun e => e = InvalidUse));
      [|exact H1].
    intros name st2 _ H2.
    destruct (inject_link_filter env filter locals name st2 Hf) as (st' & -> & H');
      [eapply types_published_only_locals; eassumption|].
    eapply only_locals_changed_trans; eassumption.
Qed.

End Injection.

(** ** Linking views *)

Section Views.
Context {State Action World : Type}.
Implicit Types (this : Bundle State Action World) (st : Linker).

(** One view: the errors it can raise, and what it publishes. *)
Lemma linkView_spec env this name view selector st :
  match linkView env this (View name view selector) st with
  | Throw e =>
      e = LinkerConflict name \/ e = TypeError \/ e = InvalidSelector \/
      exists s, selector = VStr s /\ e = UndeclaredDependency s
  | Ok (_, st') =>
      exists v',
        has_property env (globalScope st) name = false /\
        globalScope st' = <[name := v']> (globalScope st) /\
        typeMap st' = <[name := "view"]> (typeMap st) /\
        nameForActionType st' = nameForActionType st /\
        enhancers st' = enhancers st /\ useQueue st' = useQueue st /\
        heap st' = heap st /\
        displayName st' = <[v' := "View(" +:+ name +:+ ")"]> (displayName st) /\
        if decide (selector = VUndefined) then v' = view /\ connected st' = connected st
        else
          v' = VConnected (length (connected st)) /\
          exists sel,
            connected st' = connected st ++ [(sel, view)] /\ typeof sel = "function" /\
            match selector with
            | VStr s => makeSafeProxy env (default ∅ (heap st !! locals this))
                                      undeclaredDependencyError s = Ok sel
            | _ => sel = selector
            end
  end.
Proof.
  unfold linkView.
  destruct (decide (selector = VUndefined)) as [->|Hsel].
  - unfold bind at 1 2, ret, set_displayName, publish, modify, gets, throw.
    destruct view; simpl; auto;
      unfold bind; simpl;
      (destruct (has_property env (globalScope st) name) eqn:Ep; simpl; [auto|]);
      eexists; repeat split.
  - unfold bind at 1 2.
    assert (Hconnect : forall sel, typeof sel = "function" ->
      (selector = sel \/ exists s, selector = VStr s /\
         makeSafeProxy env (default ∅ (heap st !! locals this))
                       undeclaredDependencyError s = Ok sel) ->
      match
        match connect sel view st with
        | Ok (a, st') =>
            (set_displayName a ("View(" +:+ name +:+ ")");; publish env "view" name a) st'
        | Throw e => Throw e
        end
      with
      | Throw e =>
          e = LinkerConflict name \/ e = TypeError \/ e = InvalidSelector \/
          exists s, selector = VStr s /\ e = UndeclaredDependency s
      | Ok (_, st') =>
          exists v',
            has_property env (globalScope st) name = false /\
            globalScope st' = <[name := v']> (globalScope st) /\
            typeMap st' = <[name := "view"]> (typeMap st) /\
            nameForActionType st' = nameForActionType st /\
            enhancers st' = enhancers st /\ useQueue st' = useQueue st /\
            heap st' = heap st /\
            displayName st' = <[v' := "View(" +:+ name +:+ ")"]> (displayName st) /\
            v' = VConnected (length (connected st)) /\
            exists sel,
              connected st' = connected st ++ [(sel, view)] /\ typeof sel = "function" /\
              match selector with
              | VStr s => makeSafeProxy env (default ∅ (heap st !! locals this))
                                        undeclaredDependencyError s = Ok sel
              | _ => sel = selector
              end
      end).
    { intros sel Hfun Hres. unfold connect, set_displayName, publish, bind, modify, gets, throw.
      simpl. destruct (has_property env (globalScope st) name) eqn:Ep; simpl; [auto|].
      eexists. do 9 (split; [reflexivity|]).
      exists sel. split; [reflexivity|]. split; [exact Hfun|].
      destruct Hres as [->|(s & -> & Hs)]; [|exact Hs].
      destruct sel; try reflexivity; discriminate Hfun. }
    destruct selector as [| |b|n|s|f|o|k]; try contradiction;
      unfold ret; try (simpl; auto; fail).
    + unfold read_locals.
      destruct (makeSafeProxy env (default ∅ (heap st !! locals this))
                  undeclaredDependencyError s) as [sel|e] eqn:Es.
      * destruct (decide (typeof sel = "function")) as [Hfun|Hfun]; [|simpl; auto].
        apply Hconnect; [exact Hfun|]. right. eauto.
      * unfold makeSafeProxy in Es. right. right. right. exists s. split; [reflexivity|].
        destruct (hasProxy env); [|discriminate].
        destruct (has_property env _ s); [discriminate|]. injection Es as <-. reflexivity.
    + destruct (decide (typeof (VFun f) = "function")) as [Hfun|Hfun]; [|contradiction].
      apply Hconnect; auto.
    + destruct (decide (typeof (VConnected k) = "function")) as [Hfun|Hfun]; [|contradiction].
      apply Hconnect; auto.
Qed.

Lemma published_between_nil env st : published_between env [] st st.
Proof.
  repeat split; try tauto; try reflexivity.
  - apply NoDup_nil_2.
  - intros n Hn. apply elem_of_nil in Hn as [].
  - intros [?|Hn]; [assumption | apply elem_of_nil in Hn as []].
Qed.

Lemma published_between_app env names1 names2 st st1 st2 :
  published_between env names1 st st1 -> published_between env names2 st1 st2 ->
  published_between env (names1 ++ names2) st st2.
Proof.
  intros (Hn1 & Hf1 & Hd1 & Hi1 & Hh1 & Hq1) (Hn2 & Hf2 & Hd2 & Hi2 & Hh2 & Hq2).
  assert (Hfresh : forall n, n ∈ names2 -> globalScope st !! n = None /\ n ∉ names1).
  { intros n Hn. apply Hf2, has_property_false in Hn as [Hn _].
    split.
    - apply eq_None_not_Some. intros Hs. apply eq_None_not_Some in Hn. apply Hn, Hd1. auto.
    - intros Hin. apply eq_None_not_Some in Hn. apply Hn, Hd1. auto. }
  repeat split; try congruence; try tauto.
  - apply list.NoDup_app. split; [exact Hn1|]. split; [|exact Hn2].
    intros n H1 H2. apply (Hfresh n H2), H1.
  - intros n Hn. apply elem_of_app in Hn as [Hn|Hn]; [apply Hf1, Hn|].
    apply has_property_false. split; [apply Hfresh, Hn|].
    apply Hf2, has_property_false in Hn. apply Hn.
  - rewrite Hd2, Hd1, elem_of_app. tauto.
  - rewrite Hd2, Hd1, elem_of_app. tauto.
Qed.

Lemma forEach_published {A} env (f : A -> M unit) (names : A -> list string)
    (E : error -> Prop) l :
  (forall x st, x ∈ l ->
     match f x st with
     | Ok (_, st') => published_between env (names x) st st'
     | Throw e => E e
     end) ->
  forall st,
    match forEach f l st with
    | Ok (_, st') => published_between env (concat (map names l)) st st'
    | Throw e => E e
    end.
Proof.
  induction l as [|x l IH]; intros Hf st; simpl; [apply published_between_nil|].
  unfold bind. pose proof (Hf x st (list_elem_of_here _ _)) as Hx.
  destruct (f x st) as [[[] st1]|e]; [|exact Hx].
  assert (Hl : forall y st, y ∈ l ->
            match f y st with
            | Ok (_, st') => published_between env (names y) st st'
            | Throw e => E e
            end) by (intros y st' Hy; apply Hf; right; exact Hy).
  specialize (IH Hl st1).
  destruct (forEach f l st1) as [[[] st2]|e]; [|exact IH].
  eapply published_between_app; eassumption.
Qed.

Lemma linkView_published env this descriptor st :
  match linkView env this descriptor st with
  | Ok (_, st') => published_between env [view_name descriptor] st st'
  | Throw e => view_error e
  end.
Proof.
  destruct descriptor as [name view selector].
  pose proof (linkView_spec env this name view selector st) as Hspec.
  destruct (linkView env this (View name view selector) st) as [[[] st']|e].
  - destruct Hspec as (v' & Hfree & Hg & Ht & Ha & He & Hq & Hh & _).
    simpl. repeat split; try assumption.
    + apply NoDup_singleton.
    + intros n Hn. apply list_elem_of_singleton in Hn as ->. exact Hfree.
    + rewrite Hg. destruct (decide (name = n)) as [->|Hne].
      * intros _. right. apply list_elem_of_here.
      * rewrite lookup_insert_ne by exact Hne. auto.
    + rewrite Hg. intros [Hs|Hn].
      * destruct (decide (name = n)) as [->|Hne];
          [rewrite lookup_insert_eq; eauto | rewrite lookup_insert_ne by exact Hne; exact Hs].
      * apply list_elem_of_singleton in Hn as ->. rewrite lookup_insert_eq. eauto.
    + intros Hinv n. rewrite Hg, Ht.
      destruct (decide (name = n)) as [->|Hne].
      * rewrite !lookup_insert_eq. eauto.
      * rewrite !lookup_insert_ne by exact Hne. apply Hinv.
  - destruct Hspec as [->|[->|[->|(s & _ & ->)]]]; exact I.
Qed.

Lemma concat_map_singleton {A B} (f : A -> B) (l : list A) :
  concat (map (fun x => [f x]) l) = map f l.
Proof. induction l as [|x l IH]; simpl; [reflexivity | rewrite IH; reflexivity]. Qed.

(** [_linkViews] publishes the names of the views of the tree, a bundle's own
    views before those of the bundles it includes, each one once. *)
Lemma _linkViews_published env this st :
  match _linkViews env this st with
  | Ok (_, st') => published_between env (tree_viewNames this) st st'
  | Throw e => view_error e
  end.
Proof.
  revert st. induction this as [this IH] using Bundle_tree_ind. intros st.
  destruct this as [l bs e a t v df s z]; simpl in *.
  unfold bind.
  pose proof (forEach_published env
                (linkView env (mkBundle l bs e a t v df s z)) (fun d => [view_name d])
                view_error v
                (fun x st _ => linkView_published env _ x st) st) as Hown.
  rewrite concat_map_singleton in Hown.
  destruct (forEach (linkView env (mkBundle l bs e a t v df s z)) v st) as [[[] st1]|err];
    [|exact Hown].
  assert (Hsub : forall x st, x ∈ bs ->
            match _linkViews env x st with
            | Ok (_, st') => published_between env (tree_viewNames x) st st'
            | Throw e => view_error e
            end).
  { intros x st' Hx. rewrite Forall_forall in IH. apply IH, list_elem_of_In, Hx. }
  pose proof (forEach_published env (_linkViews env) tree_viewNames view_error bs Hsub st1)
    as Hinc.
  destruct (forEach (_linkViews env) bs st1) as [[[] st2]|err]; [|exact Hinc].
  eapply published_between_app; eassumption.
Qed.

End Views.

(** ** What a successful [link] has published *)

Section Published.
Context {State Action World : Type}.
Implicit Types (this : Bundle State Action World) (b : list (directive State Action World))
  (st : Linker).

Lemma run_definition_published env d st :
  match run_definition env d st with
  | Ok (_, st') => published_between env [def_name d] st st'
  | Throw e => conflict_error e
  end.
Proof.
  pose proof (run_definition_spec env d st) as Hspec.
  destruct (run_definition env d st) as [[[] st']|e].
  - destruct Hspec as (Hfree & _ & (v & type & Hg & Ht) & _ & _ & Hq & Hh & _).
    repeat split; try assumption.
    + apply NoDup_singleton.
    + intros n Hn. apply list_elem_of_singleton in Hn as ->. exact Hfree.
    + rewrite Hg. destruct (decide (def_name d = n)) as [->|Hne].
      * intros _. right. apply list_elem_of_here.
      * rewrite lookup_insert_ne by exact Hne. auto.
    + rewrite Hg. intros [Hs|Hn].
      * destruct (decide (def_name d = n)) as [->|Hne];
          [rewrite lookup_insert_eq; eauto | rewrite lookup_insert_ne by exact Hne; exact Hs].
      * apply list_elem_of_singleton in Hn as ->. rewrite lookup_insert_eq. eauto.
    + intros Hinv n. rewrite Hg, Ht.
      destruct (decide (def_name d = n)) as [->|Hne].
      * rewrite !lookup_insert_eq. eauto.
      * rewrite !lookup_insert_ne by exact Hne. apply Hinv.
  - destruct (def_actionType d) as [t|].
    + destruct (bool_decide _); [subst e; exact I | destruct Hspec as [-> _]; exact I].
    + destruct Hspec as [-> _]. exact I.
Qed.

Lemma run_definitions_published env l st :
  match forEach (run_definition env) l st with
  | Ok (_, st') => published_between env (map def_name l) st st'
  | Throw e => conflict_error e
  end.
Proof.
  pose proof (forEach_published env (run_definition env) (fun d => [def_name d])
                conflict_error l
                (fun d st _ => run_definition_published env d st) st) as H.
  rewrite concat_map_singleton in H. exact H.
Qed.

Lemma erase_seal this : erase (_seal this) = erase this.
Proof.
  induction this as [this IH] using Bundle_tree_ind.
  destruct this as [l bs e a t v df s z]; simpl in *. f_equal.
  rewrite map_map. apply map_ext_in. intros c Hc.
  rewrite Forall_forall in IH. apply IH, Hc.
Qed.

Lemma tree_viewNames_erase this : tree_viewNames (erase this) = tree_viewNames this.
Proof.
  induction this as [this IH] using Bundle_tree_ind.
  destruct this as [l bs e a t v df s z]; simpl in *. f_equal. f_equal.
  rewrite map_map. apply map_ext_in. intros c Hc.
  rewrite Forall_forall in IH. apply IH, Hc.
Qed.

Lemma tree_defers_erase this : tree_defers (erase this) = tree_defers this.
Proof.
  induction this as [this IH] using Bundle_tree_ind.
  destruct this as [l bs e a t v df s z]; simpl in *. f_equal. f_equal.
  rewrite map_map. apply map_ext_in. intros c Hc.
  rewrite Forall_forall in IH. apply IH, Hc.
Qed.

Lemma tree_earlyReducers_erase this :
  tree_earlyReducers (erase this) = tree_earlyReducers this.
Proof.
  induction this as [this IH] using Bundle_tree_ind.
  destruct this as [l bs e a t v df s z]; simpl in *. f_equal. f_equal.
  rewrite map_map. apply map_ext_in. intros c Hc.
  rewrite Forall_forall in IH. apply IH, Hc.
Qed.

Lemma tree_lateReducers_erase this :
  tree_lateReducers (erase this) = tree_lateReducers this.
Proof.
  induction this as [this IH] using Bundle_tree_ind.
  destruct this as [l bs e a t v df s z]; simpl in *. f_equal. f_equal.
  rewrite map_map. apply map_ext_in. intros c Hc.
  rewrite Forall_forall in IH. apply IH, Hc.
Qed.

(** A successful [link], phase by phase. *)
Lemma link_frame_Ok env b frame :
  link_frame env b = Ok frame ->
  exists root1 st1 st1' st2 st3,
    run_builder env b root0 st0 = Ok (root1, st1) /\
    forEach (run_definition env) (definitions b) initialLinker = Ok (tt, st1') /\
    same_registry st1 st1' /\
    erase root1 = builder_tree b /\
    injectAll env (FilterArray ["action"; "selector"; "value"]) st1 = Ok (tt, st2) /\
    _linkViews env (_seal root1) st2 = Ok (tt, st3) /\
    injectAll env (FilterString "views") st3 = Ok (tt, linker frame) /\
    _buildActionMap env (linker frame) (_seal root1) ∅ = Ok (actionMap frame) /\
    rootBundle frame = _seal root1.
Proof.
  rewrite link_frame_phases.
  pose proof (run_builder_simulates env b root0 st0 initialLinker eq_refl
                (conj eq_refl (conj eq_refl eq_refl))) as Hsim.
  destruct (forEach (run_definition env) (definitions b) initialLinker) as [[[] st1']|e].
  - destruct Hsim as (root1 & st1 & Hrun & _ & _ & He & Hr & _).
    change (run_builder env b root0 st0 = Ok (root1, st1)) in Hrun. rewrite Hrun.
    destruct (injectAll env (FilterArray ["action"; "selector"; "value"]) st1)
      as [[[] st2]|e] eqn:E1; [|discriminate].
    destruct (_linkViews env (_seal root1) st2) as [[[] st3]|e] eqn:E2; [|discriminate].
    destruct (injectAll env (FilterString "views") st3) as [[[] st4]|e] eqn:E3;
      [|discriminate].
    destruct (_buildActionMap env st4 (_seal root1) ∅) as [am|e] eqn:Eam; [|discriminate].
    intros [= <-]. exists root1, st1, st1', st2, st3. simpl.
    split; [reflexivity|]. split; [reflexivity|]. split; [exact Hr|]. split; [exact He|].
    repeat split; assumption.
  - change (run_builder env b root0 st0 = Throw e) in Hsim. rewrite Hsim. discriminate.
Qed.

End Published.

(** ** Names are published once *)

Section Names.
Context {State Action World : Type} (action_type : Action -> value).
Implicit Types (this : Bundle State Action World) (b : list (directive State Action World))
  (st : Linker).

Lemma publish_taken env type name v st :
  has_property env (globalScope st) name = true ->
  publish env type name v st = Throw (LinkerConflict name).
Proof. intros H. unfold publish, bind, gets, throw. rewrite H. reflexivity. Qed.

Lemma link_frame_published env b frame :
  link_frame env b = Ok frame ->
  NoDup (published_names b) /\
  forall n, is_Some (globalScope (linker frame) !! n) <-> n ∈ published_names b.
Proof.
  intros Hlink.
  destruct (link_frame_Ok env b frame Hlink)
    as (root1 & st1 & st1' & st2 & st3 & _ & Hdefs & (Hg1 & Ht1 & _) & He & Hi1 & Hv & Hi3 & _).
  pose proof (run_definitions_published env (definitions b) initialLinker) as Hpd.
  rewrite Hdefs in Hpd. destruct Hpd as (Hnd & _ & Hdd & Hinv & _).
  assert (Hinv1 : types_published st1).
  { intros n. rewrite Hg1, Ht1. apply Hinv. intros n'. simpl. rewrite lookup_empty.
    intros [? [=]]. }
  pose proof (injectAll_spec env _ st1 (or_introl eq_refl) Hinv1) as H12.
  rewrite Hi1 in H12.
  pose proof (_linkViews_published env (_seal root1) st2) as Hpv.
  rewrite Hv in Hpv. destruct Hpv as (Hnv & Hfv & Hdv & Hinvv & _).
  assert (Hinv3 : types_published st3).
  { apply Hinvv. eapply types_published_only_locals; eassumption. }
  pose proof (injectAll_spec env _ st3 (or_intror eq_refl) Hinv3) as H34.
  rewrite Hi3 in H34.
  destruct H12 as (Hg2 & _). destruct H34 as (Hg4 & _).
  assert (Hnames : tree_viewNames (_seal root1) = tree_viewNames (builder_tree b)).
  { rewrite <- He, tree_viewNames_erase, <- (tree_viewNames_erase (_seal root1)), erase_seal,
      tree_viewNames_erase. reflexivity. }
  rewrite Hnames in *.
  assert (Hdom1 : forall n, is_Some (globalScope st2 !! n) <-> n ∈ map def_name (definitions b)).
  { intros n. rewrite Hg2, Hg1, Hdd. simpl. rewrite lookup_empty.
    split; [intros [[? [=]]|?]; assumption | auto]. }
  unfold published_names. split.
  - apply list.NoDup_app. split; [exact Hnd|]. split; [|exact Hnv].
    intros n Hd Hvn. apply Hfv, has_property_false in Hvn as [Hvn _].
    apply Hdom1 in Hd. rewrite Hvn in Hd. destruct Hd as [? [=]].
  - intros n. rewrite Hg4, Hdv, Hdom1, elem_of_app. reflexivity.
Qed.

(** C7: publishing a name that the global scope already has fails with the
    name conflict carrying the name, in a definition and in view linking
    alike, and a successful [link] has published every name exactly once.
    - (1) When a definition of the tree publishes the name of an earlier
      one, [link] fails with the conflict on that name.  The publication is
      reached: the definitions before it do not clash and, for a
      [defineAction], its action type is new.
    - (2) [publish] fails with the conflict on a name the scope has, and
      linking a view under such a name never succeeds: it fails with the
      conflict on the name unless the view itself is rejected first.
    - (3) After a successful [link] the published names, views included,
      are pairwise distinct and are exactly the names of the global scope. *)
Theorem name_published_once env :
  (forall b pre d post,
     definitions b = pre ++ d :: post ->
     conflict_free env pre ->
     def_name d ∈ map def_name pre ->
     (forall t, def_actionType d = Some t -> t ∉ omap def_actionType pre) ->
     link action_type env b = Throw (LinkerConflict (def_name d))) /\
  (forall st name,
     has_property env (globalScope st) name = true ->
     (forall type v, publish env type name v st = Throw (LinkerConflict name)) /\
     (forall this view selector,
        exists e, linkView env this (View name view selector) st = Throw e /\
                  (e = LinkerConflict name \/ e = TypeError \/ e = InvalidSelector \/
                   exists s, selector = VStr s /\ e = UndeclaredDependency s)) /\
     (forall this view,
        typeof view = "function" ->
        linkView env this (View name view VUndefined) st = Throw (LinkerConflict name))) /\
  (forall b frame,
     link_frame env b = Ok frame ->
     NoDup (published_names b) /\
     forall n, is_Some (globalScope (linker frame) !! n) <-> n ∈ published_names b).
Proof.
  split; [|split].
  - intros b pre d post Hdefs Hfree Hin Htype.
    apply link_definitions_throw. rewrite Hdefs.
    destruct (conflict_free_accepted env pre Hfree) as (st1 & Hrun & Hg & Ha).
    apply (run_definitions_prefix_throw env pre _ post _ st1); [exact Hrun|].
    pose proof (run_definition_spec env d st1) as Hspec.
    assert (Htaken : has_property env (globalScope st1) (def_name d) = true).
    { apply has_property_true. left. apply Hg, Hin. }
    destruct (run_definition env d st1) as [[[] st']|e].
    + destruct Hspec as [Hfreed _]. congruence.
    + destruct (def_actionType d) as [t|] eqn:Et.
      * rewrite bool_decide_eq_false_2 in Hspec; [destruct Hspec as [-> _]; reflexivity|].
        intros Hs. apply (Htype t eq_refl), Ha, Hs.
      * destruct Hspec as [-> _]. reflexivity.
  - intros st name Htaken. split; [|split].
    + intros type v. apply publish_taken, Htaken.
    + intros this view selector.
      pose proof (linkView_spec env this name view selector st) as Hspec.
      destruct (linkView env this (View name view selector) st) as [[[] st']|e].
      * destruct Hspec as (v' & Hfree & _). congruence.
      * exists e. split; [reflexivity | exact Hspec].
    + intros this view Hfun.
      unfold linkView. destruct (decide (VUndefined = VUndefined)) as [_|Hne]; [|contradiction].
      unfold bind, ret, set_displayName, publish, gets, modify, throw.
      destruct view; try discriminate Hfun; cbn -[has_property]; rewrite Htaken; reflexivity.
  - apply link_frame_published.
Qed.

End Names.

(** Two bundles define [x]; a value and a view under two names link. *)
Lemma name_published_once_witness :
  let env := {| hasProxy := true; Object_prototype := {[ "toString" := VFun 0 ]} |} in
  link (State := unit) (Action := unit) (World := unit) (fun _ => VUndefined) env
       [ Include [DefineValue "x" (VNum 1)]; Include [DefineSelector "x" (VFun 1)] ]
  = Throw (LinkerConflict "x") /\
  NoDup (published_names (State := unit) (Action := unit) (World := unit)
           [ DefineValue "x" (VNum 1); DefineView "App" VUndefined (VFun 2) ]).
Proof.
  intros env. split.
  - refine (proj1 (name_published_once (fun _ => VUndefined) env)
              [ Include [DefineValue "x" (VNum 1)]; Include [DefineSelector "x" (VFun 1)] ]
              [Published "value" "x" (VNum 1)] (Published "selector" "x" (VFun 1)) []
              eq_refl _ _ _).
    + repeat split; [apply NoDup_singleton | apply NoDup_nil_2 | repeat constructor].
    + simpl. apply list_elem_of_here.
    + intros t [=].
  - destruct (link_frame (State := unit) (Action := unit) (World := unit) env
                [ DefineValue "x" (VNum 1); DefineView "App" VUndefined (VFun 2) ])
      as [frame|e] eqn:E.
    + exact (proj1 (proj2 (proj2 (name_published_once (fun _ : unit => VUndefined) env))
                      _ frame E)).
    + vm_compute in E. discriminate E.
Defined.

(** View publication, at the level of [link]: a view named like a value, and
    two views of one name in two bundles, both end in the name conflict. *)
Example view_name_conflicts :
  let env := {| hasProxy := true; Object_prototype := ∅ |} in
  link (State := unit) (Action := unit) (World := unit) (fun _ => VUndefined) env
       [ DefineValue "App" (VNum 1); Include [DefineView "App" VUndefined (VFun 2)] ]
  = Throw (LinkerConflict "App") /\
  link (State := unit) (Action := unit) (World := unit) (fun _ => VUndefined) env
       [ Include [DefineView "App" VUndefined (VFun 1)];
         Include [DefineView "App" VUndefined (VFun 2)] ]
  = Throw (LinkerConflict "App").
Proof. split; vm_compute; reflexivity. Qed.

(** ** Action types are claimed once *)

Section ActionTypes.
Context {State Action World : Type} (action_type : Action -> value).
Implicit Types (b : list (directive State Action World)).

(** C8: an action type is claimed by one [defineAction] call of the tree at
    most, whatever the names.
    - (1) When a [defineAction] call claims an action type that an earlier
      call of the tree has claimed, under the same name or another, [link]
      fails with the action-type conflict carrying that type; that error and
      its message are not those of a conflict on a name.  The call is
      reached: the definitions made before it do not clash.
    - (2) Whenever two [defineAction] calls of the tree claim one action
      type, [link] fails: after a successful [link] the action types claimed
      in the tree are pairwise distinct. *)
Theorem duplicate_action_type_fails env :
  (forall b pre name actionType post,
     definitions b = pre ++ ActionDefined name actionType :: post ->
     conflict_free env pre ->
     actionType ∈ omap def_actionType pre ->
     link action_type env b = Throw (ActionTypeConflict actionType) /\
     forall n, ActionTypeConflict actionType <> LinkerConflict n /\
               message (ActionTypeConflict actionType) <> message (LinkerConflict n)) /\
  (forall b (frame : linkFrame State Action World),
     link_frame env b = Ok frame ->
     NoDup (omap def_actionType (definitions b))).
Proof.
  split.
  - intros b pre name actionType post Hdefs Hfree Hin. split.
    + apply link_definitions_throw. rewrite Hdefs.
      destruct (conflict_free_accepted env pre Hfree) as (st1 & Hrun & _ & Ha).
      apply (run_definitions_prefix_throw env pre _ post _ st1); [exact Hrun|].
      simpl. unfold declareActionType, bind, gets, throw.
      rewrite bool_decide_eq_true_2; [reflexivity|]. apply Ha, Hin.
    + intros n. split; [discriminate | apply message_conflicts_differ].
  - intros b frame Hlink.
    destruct (link_frame_Ok env b frame Hlink)
      as (root1 & st1 & st1' & st2 & st3 & _ & Hdefs & _).
    apply (run_definitions_action_types env _ _ _ Hdefs).
Qed.

End ActionTypes.

(** Two bundles claim one action type under two names. *)
Lemma duplicate_action_type_fails_witness :
  link (State := unit) (Action := unit) (World := unit) (fun _ => VUndefined)
       {| hasProxy := true; Object_prototype := {[ "toString" := VFun 0 ]} |}
       [ Include [DefineAction "inc" "counter/INC"];
         Include [DefineAction "increment" "counter/INC"] ]
  = Throw (ActionTypeConflict "counter/INC").
Proof.
  refine (proj1 (proj1 (duplicate_action_type_fails (fun _ => VUndefined)
                   {| hasProxy := true; Object_prototype := {[ "toString" := VFun 0 ]} |})
                   [ Include [DefineAction "inc" "counter/INC"];
                     Include [DefineAction "increment" "counter/INC"] ]
                   [ActionDefined "inc" "counter/INC"] "increment" "counter/INC" []
                   eq_refl _ _)).
  - repeat split.
    + apply NoDup_singleton.
    + apply NoDup_singleton.
    + repeat constructor.
  - simpl. apply list_elem_of_here.
Defined.

(** A repeated [defineAction] under one name and one type ends in the
    action-type conflict: the type is registered before the name is
    published. *)
Example repeated_action_type_first :
  link (State := unit) (Action := unit) (World := unit) (fun _ => VUndefined)
       {| hasProxy := true; Object_prototype := ∅ |}
       [ DefineAction "inc" "counter/INC"; DefineAction "inc" "counter/INC" ]
  = Throw (ActionTypeConflict "counter/INC").
Proof. vm_compute. reflexivity. Qed.

(** ** Unresolved names *)

Section Unresolved.
Context {State Action World : Type} (action_type : Action -> value).
Implicit Types (this : Bundle State Action World) (b : list (directive State Action World))
  (st : Linker).

Lemma foldM_error {A B} (f : B -> A -> result B) (E : error -> Prop) (l : list A) :
  (forall acc x, x ∈ l -> match f acc x with Throw e => E e | Ok _ => True end) ->
  forall acc, match foldM f l acc with Throw e => E e | Ok _ => True end.
Proof.
  induction l as [|x l IH]; intros Hf acc; simpl; [exact I|].
  pose proof (Hf acc x (list_elem_of_here _ _)) as Hx.
  destruct (f acc x) as [acc'|e]; [|exact Hx].
  apply IH. intros acc'' y Hy. apply Hf. right. exact Hy.
Qed.

Lemma read_locals_error env this property st e :
  read_locals env this property st = Throw e -> e = UndeclaredDependency property.
Proof.
  unfold read_locals, makeSafeProxy.
  destruct (hasProxy env); [|discriminate].
  destruct (has_property env _ property); [discriminate|]. intros [= <-]. reflexivity.
Qed.

Lemma _buildActionMap_error env st this actionMap :
  match _buildActionMap env st this actionMap with
  | Throw e => exists s, e = UndeclaredDependency s
  | Ok _ => True
  end.
Proof.
  revert actionMap. induction this as [this IH] using Bundle_tree_ind. intros actionMap.
  destruct this as [l bs ea a t v df s z]; simpl in *.
  pose proof (foldM_error (buildActionEntry env st (mkBundle l bs ea a t v df s z))
                (fun e => exists s, e = UndeclaredDependency s) a) as Hown.
  lapply Hown; [clear Hown; intros Hown|].
  - specialize (Hown actionMap).
    destruct (foldM _ a actionMap) as [actionMap'|e]; [|exact Hown].
    apply (foldM_error _ (fun e => exists s, e = UndeclaredDependency s)).
    intros acc x Hx. rewrite Forall_forall in IH. apply IH, list_elem_of_In, Hx.
  - intros acc [name reducer] _. unfold buildActionEntry.
    destruct (read_locals env _ name st) as [[actionType st']|e] eqn:E; [exact I|].
    exists name. eapply read_locals_error, E.
Qed.

(** The errors of [link]: a conflict of the definitions, a rejected view, a
    name read from a [locals] that does not have it, or a malformed use. *)
Lemma link_frame_errors env b e :
  link_frame env b = Throw e ->
  conflict_error e \/ view_error e \/ e = InvalidUse \/ exists s, e = UndeclaredDependency s.
Proof.
  rewrite link_frame_phases.
  pose proof (run_builder_simulates env b root0 st0 initialLinker eq_refl
                (conj eq_refl (conj eq_refl eq_refl))) as Hsim.
  pose proof (run_definitions_published env (definitions b) initialLinker) as Hpd.
  destruct (forEach (run_definition env) (definitions b) initialLinker) as [[[] st1']|e'].
  - destruct Hsim as (root1 & st1 & Hrun & _ & _ & _ & (Hg1 & Ht1 & _) & _).
    change (run_builder env b root0 st0 = Ok (root1, st1)) in Hrun. rewrite Hrun.
    destruct Hpd as (_ & _ & _ & Hinv & _).
    assert (Hinv1 : types_published st1).
    { intros n. rewrite Hg1, Ht1. apply Hinv. intros n'. simpl. rewrite lookup_empty.
      intros [? [=]]. }
    pose proof (injectAll_spec env _ st1 (or_introl eq_refl) Hinv1) as H12.
    destruct (injectAll env (FilterArray ["action"; "selector"; "value"]) st1)
      as [[[] st2]|e2]; [|intros [= <-]; auto].
    pose proof (_linkViews_published env (_seal root1) st2) as Hpv.
    destruct (_linkViews env (_seal root1) st2) as [[[] st3]|e3]; [|intros [= <-]; auto].
    destruct Hpv as (_ & _ & _ & Hinvv & _).
    assert (Hinv3 : types_published st3).
    { apply Hinvv. eapply types_published_only_locals; eassumption. }
    pose proof (injectAll_spec env _ st3 (or_intror eq_refl) Hinv3) as H34.
    destruct (injectAll env (FilterString "views") st3) as [[[] st4]|e4];
      [|intros [= <-]; auto].
    pose proof (_buildActionMap_error env st4 (_seal root1) ∅) as Ham.
    destruct (_buildActionMap env st4 (_seal root1) ∅) as [am|e5]; [discriminate|].
    intros [= <-]. auto.
  - change (run_builder env b root0 st0 = Throw e') in Hsim. rewrite Hsim.
    intros [= <-]. auto.
Qed.

(** [link] never raises the undefined-dependency error of [inject]. *)
Lemma link_never_undefined_dependency env b name :
  link action_type env b <> Throw (UndefinedDependency name).
Proof.
  unfold link. destruct (link_frame env b) as [frame|e] eqn:E; [discriminate|].
  intros [= ->]. apply link_frame_errors in E as [H|[H|[H|[s H]]]];
    try contradiction; discriminate.
Qed.

(** C1 at its failing input: a root builder that uses a name nobody
    publishes.  [link] returns normally, where the claim has it fail with the
    undefined-dependency error: the name has no type, so both injection
    passes skip it, and the [locals] of the root bundle stay empty. *)
Theorem unresolved_use_links env name :
  exists (frame : linkFrame State Action World) (l : linked State Action World),
    link_frame env [Use [name]] = Ok frame /\
    link action_type env [Use [name]] = Ok l /\
    useQueue (linker frame) = [(locals (rootBundle frame), UseArray [name])] /\
    heap (linker frame) !! locals (rootBundle frame) = Some ∅ /\
    link (State := State) (World := World) action_type env [Use [name]]
      <> Throw (UndefinedDependency name).
Proof.
  assert (Hframe : link_frame (State := State) (Action := Action) (World := World)
                     env [Use [name]]
                   = Ok (mkFrame (mkBundle 0 [] [] [] [] [] [] [] true)
                           (mkLinker ∅ ∅ ∅ [] [(0, UseArray [name])] [∅] [] ∅) ∅)).
  { reflexivity. }
  eexists _, _. split; [exact Hframe|].
  unfold link. rewrite Hframe. repeat split. discriminate.
Qed.

End Unresolved.

(** ** The store reducer *)

Section StoreReducer.
Context {State Action World : Type} (action_type : Action -> value).
Implicit Types (this : Bundle State Action World) (b : list (directive State Action World))
  (frame : linkFrame State Action World).

(** The store reducer is a function: the early stage, then the dispatch on
    the action type, then the late stage. *)
Lemma frame_reducer_stages frame :
  exists f,
    frame_reducer action_type frame = RFun f /\
    forall state action,
      f state action
      = transition (_lateReducer (rootBundle frame))
          (actionReducer action_type (actionMap frame)
             (transition (_earlyReducer (rootBundle frame)) state action) action)
          action.
Proof.
  unfold frame_reducer, reduce. simpl.
  destruct (_earlyReducer (rootBundle frame)), (_lateReducer (rootBundle frame));
    simpl; eexists; split; reflexivity.
Qed.

Lemma link_frame_tree env b frame :
  link_frame env b = Ok frame -> erase (rootBundle frame) = builder_tree b.
Proof.
  intros Hlink.
  destruct (link_frame_Ok env b frame Hlink)
    as (root1 & st1 & st1' & st2 & st3 & _ & _ & _ & He & _ & _ & _ & _ & ->).
  rewrite erase_seal. exact He.
Qed.

(** C5: bundle A is included before bundle B, and each adds one early and
    one late reducer.  The early stage applies A's reducer, then B's; the
    late stage applies B's, then A's; and the store reducer of [link] applies
    the early stage, then the dispatch on the action type, then the late
    stage.  The last holds of every successful [link]. *)
Theorem reducer_stage_order env A B eA lA eB lB frame :
  link_frame env [Include A; Include B] = Ok frame ->
  tree_earlyReducers (builder_tree A) = [RFun eA] ->
  tree_lateReducers (builder_tree A) = [RFun lA] ->
  tree_earlyReducers (builder_tree B) = [RFun eB] ->
  tree_lateReducers (builder_tree B) = [RFun lB] ->
  (forall state action,
     transition (_earlyReducer (rootBundle frame)) state action
     = eB (eA state action) action) /\
  (forall state action,
     transition (_lateReducer (rootBundle frame)) state action
     = lA (lB state action) action) /\
  (exists l f,
     link action_type env [Include A; Include B] = Ok l /\ reducer l = RFun f /\
     forall state action,
       f state action
       = lA (lB (actionReducer action_type (actionMap frame)
                   (eB (eA state action) action) action) action) action) /\
  (forall b' frame',
     link_frame env b' = Ok frame' ->
     exists l f,
       link action_type env b' = Ok l /\ reducer l = RFun f /\
       forall state action,
         f state action
         = transition (_lateReducer (rootBundle frame'))
             (actionReducer action_type (actionMap frame')
                (transition (_earlyReducer (rootBundle frame')) state action) action)
             action).
Proof.
  intros Hlink HeA HlA HeB HlB.
  pose proof (link_frame_tree env _ frame Hlink) as Htree.
  assert (Hearly : forall state action,
            transition (_earlyReducer (rootBundle frame)) state action
            = eB (eA state action) action).
  { intros state action.
    rewrite _earlyReducer_tree, <- tree_earlyReducers_erase, Htree.
    change (tree_earlyReducers (builder_tree [Include A; Include B]))
      with (tree_earlyReducers (builder_tree A)
            ++ tree_earlyReducers (builder_tree B) ++ []).
    rewrite HeA, HeB. reflexivity. }
  assert (Hlate : forall state action,
            transition (_lateReducer (rootBundle frame)) state action
            = lA (lB state action) action).
  { intros state action.
    rewrite _lateReducer_tree, <- tree_lateReducers_erase, Htree.
    change (tree_lateReducers (builder_tree [Include A; Include B]))
      with (tree_lateReducers (builder_tree A)
            ++ tree_lateReducers (builder_tree B) ++ []).
    rewrite HlA, HlB. reflexivity. }
  assert (Hgeneral : forall b' frame',
     link_frame env b' = Ok frame' ->
     exists l f,
       link action_type env b' = Ok l /\ reducer l = RFun f /\
       forall state action,
         f state action
         = transition (_lateReducer (rootBundle frame'))
             (actionReducer action_type (actionMap frame')
                (transition (_earlyReducer (rootBundle frame')) state action) action)
             action).
  { intros b' frame' Hlink'. destruct (frame_reducer_stages frame') as (f & Hf & Hstages).
    unfold link. rewrite Hlink'. eexists _, f. split; [reflexivity|]. split; [exact Hf|].
    exact Hstages. }
  split; [exact Hearly|]. split; [exact Hlate|]. split; [|exact Hgeneral].
  destruct (Hgeneral _ frame Hlink) as (l & f & Hl & Hf & Hstages).
  exists l, f. split; [exact Hl|]. split; [exact Hf|].
  intros state action. rewrite Hstages, Hlate, Hearly. reflexivity.
Qed.

(** X6: [finalize] runs the deferred callbacks of the builders, a builder's
    own before those of the builders it includes, each one once and with no
    argument, whatever arguments it is given. *)
Lemma finalize_calls_defers env b (l : linked State Action World) args (w : World) :
  link action_type env b = Ok l ->
  finalize l args w
  = fold_left (fun w (cb : callback World) => cb [] w) (tree_defers (builder_tree b)) w.
Proof.
  unfold link. destruct (link_frame env b) as [frame|e] eqn:E; [|discriminate].
  intros [= <-]. simpl.
  rewrite _runDefers_tree, <- tree_defers_erase, (link_frame_tree env b frame E).
  reflexivity.
Qed.

End StoreReducer.

(** Early reducers [+1] then [*10], late reducers [*2] after [-3]. *)
Lemma reducer_stage_order_witness :
  let env := {| hasProxy := true; Object_prototype := ∅ |} in
  let A : list (directive Z value unit) :=
    [AddEarlyReducer (RFun (fun s _ => s + 1)%Z); AddLateReducer (RFun (fun s _ => s * 2)%Z)] in
  let B : list (directive Z value unit) :=
    [AddEarlyReducer (RFun (fun s _ => s * 10)%Z); AddLateReducer (RFun (fun s _ => s - 3)%Z)] in
  match link_frame env [Include A; Include B] with
  | Ok frame =>
      transition (_earlyReducer (rootBundle frame)) 1%Z VNull = 20%Z /\
      transition (_lateReducer (rootBundle frame)) 1%Z VNull = (-4)%Z
  | Throw _ => False
  end.
Proof.
  intros env A B.
  destruct (link_frame env [Include A; Include B]) as [frame|e] eqn:E.
  - pose proof (reducer_stage_order (fun a : value => a) env A B
                  (fun s _ => s + 1)%Z (fun s _ => s * 2)%Z
                  (fun s _ => s * 10)%Z (fun s _ => s - 3)%Z
                  frame E eq_refl eq_refl eq_refl eq_refl) as (He & Hl & _).
    rewrite He, Hl. split; reflexivity.
  - vm_compute in E. discriminate E.
Defined.

(** ** The action map *)

Section ActionMap.
Context {State Action World : Type} (action_type : Action -> value).
Implicit Types (this : Bundle State Action World) (b : list (directive State Action World))
  (m : gmap value (reducerV State Action)).

Lemma foldM_rel {A B} (f : B -> A -> result B) (R : list A -> B -> B -> Prop) :
  (forall acc, R [] acc acc) ->
  (forall l1 l2 acc1 acc2 acc3, R l1 acc1 acc2 -> R l2 acc2 acc3 -> R (l1 ++ l2) acc1 acc3) ->
  (forall acc x acc', f acc x = Ok acc' -> R [x] acc acc') ->
  forall l acc acc', foldM f l acc = Ok acc' -> R l acc acc'.
Proof.
  intros Hnil Happ Hstep. induction l as [|x l IH]; intros acc acc'; simpl.
  - intros [= <-]. apply Hnil.
  - destruct (f acc x) as [acc1|e] eqn:E; [|discriminate].
    intros Hl. apply (Happ [x] l acc acc1 acc'); [apply Hstep, E | apply IH, Hl].
Qed.

Lemma chains_extended_nil env st m : chains_extended env st [] m m.
Proof.
  split; [reflexivity|]. split; [auto|]. intros k [H|H]; [exact H | contradiction].
Qed.

Lemma chains_extended_app env st l1 l2 m1 m2 m3 :
  chains_extended env st l1 m1 m2 -> chains_extended env st l2 m2 m3 ->
  chains_extended env st (l1 ++ l2) m1 m3.
Proof.
  intros (H1 & F1 & S1) (H2 & F2 & S2). split; [|split].
  - intros k state action. unfold chain_for in *.
    rewrite omap_app, fold_left_app, H2, H1. reflexivity.
  - intros H. apply F2, F1, H.
  - intros k [H|H].
    + apply S2. left. apply S1. left. exact H.
    + unfold chain_for in H. rewrite omap_app in H.
      destruct (omap _ l1) eqn:E1.
      * apply S2. right. exact H.
      * apply S2. left. apply S1. right. unfold chain_for. rewrite E1. discriminate.
Qed.

Lemma buildActionEntry_chain env st this m entry m' :
  buildActionEntry env st this m entry = Ok m' ->
  chains_extended env st [(locals this, fst entry, snd entry)] m m'.
Proof.
  destruct entry as [name reducer]. unfold buildActionEntry, read_locals. simpl.
  destruct (makeSafeProxy env (default ∅ (heap st !! locals this))
              undeclaredDependencyError name) as [actionType|e] eqn:E; [|discriminate].
  intros [= <-]. split; [|split].
  - intros k state action. unfold chain_for. simpl. rewrite E.
    unfold actionMap_get at 1.
    destruct (decide (actionType = k)) as [->|Hne].
    + rewrite lookup_insert_eq. simpl. rewrite transition_reverseCompose. reflexivity.
    + rewrite lookup_insert_ne by exact Hne. reflexivity.
  - intros Hm k r. destruct (decide (actionType = k)) as [->|Hne].
    + rewrite lookup_insert_eq. intros [= <-].
      destruct (actionMap_get m k); reflexivity.
    + rewrite lookup_insert_ne by exact Hne. apply Hm.
  - intros k. unfold chain_for. simpl. rewrite E.
    destruct (decide (actionType = k)) as [->|Hne].
    + rewrite lookup_insert_eq. eauto.
    + rewrite lookup_insert_ne by exact Hne. intros [H|H]; [exact H | contradiction].
Qed.

(** [_buildActionMap] composes the action reducers of the tree onto the
    chains of their action types in depth-first order. *)
Lemma _buildActionMap_chain env st this m m' :
  _buildActionMap env st this m = Ok m' ->
  chains_extended env st (tree_actionReducers this) m m'.
Proof.
  revert m m'. induction this as [this IH] using Bundle_tree_ind. intros m m'.
  destruct this as [l bs ea a t v df s z]; simpl in *.
  destruct (foldM (buildActionEntry env st (mkBundle l bs ea a t v df s z)) a m)
    as [m1|e] eqn:Eown; [|discriminate].
  intros Hinc.
  apply (chains_extended_app env st _ _ m m1 m').
  - revert Eown.
    apply (foldM_rel _ (fun l0 acc acc' =>
             chains_extended env st (map (fun entry => (l, fst entry, snd entry)) l0) acc acc')).
    + intros acc. apply chains_extended_nil.
    + intros l1 l2 acc1 acc2 acc3 H1 H2. rewrite map_app.
      eapply chains_extended_app; eassumption.
    + intros acc x acc' Hx. apply (buildActionEntry_chain _ _ _ _ _ _ Hx).
  - revert Hinc. generalize m1 m'. clear Eown.
    induction bs as [|c bs IHbs]; intros acc acc'; simpl.
    + intros [= <-]. apply chains_extended_nil.
    + inversion IH as [|? ? Hc Hbs]; subst.
      destruct (_buildActionMap env st c acc) as [acc1|e] eqn:E; [|discriminate].
      intros Hrest. eapply chains_extended_app; [apply Hc, E | apply IHbs; assumption].
Qed.

(** C6: for every action, the dispatch stage of a linked store applies the
    reducers added with [addReducer] for the type of the action, in the order
    of the tree (within a bundle the order of the calls, a bundle before the
    bundles it includes), each one on the state the previous one returned;
    in particular two reducers added for one name apply first declared
    first.  Every chain the action map stores is a function. *)
Theorem action_reducers_chain env b frame :
  link_frame env b = Ok frame ->
  (forall state action,
     actionReducer action_type (actionMap frame) state action
     = fold_left (fun s (reducer : State -> Action -> State) => reducer s action)
         (chain_for env (linker frame) (action_type action)
                    (tree_actionReducers (rootBundle frame)))
         state) /\
  (forall actionType r1 r2,
     chain_for env (linker frame) actionType (tree_actionReducers (rootBundle frame))
       = [r1; r2] ->
     exists f, actionMap frame !! actionType = Some (RFun f) /\
               forall state action, f state action = r2 (r1 state action) action) /\
  (forall actionType r, actionMap frame !! actionType = Some r -> exists f, r = RFun f).
Proof.
  intros Hlink.
  destruct (link_frame_Ok env b frame Hlink)
    as (root1 & st1 & st1' & st2 & st3 & _ & _ & _ & _ & _ & _ & _ & Ham & Hroot).
  rewrite <- Hroot in Ham. apply _buildActionMap_chain in Ham as (Hchain & Hfun & Hsome).
  assert (Hfuns : forall actionType r,
            actionMap frame !! actionType = Some r -> exists f, r = RFun f).
  { intros k r Hr. assert (Ha : absent r = false).
    { apply (Hfun ltac:(intros k' r' H; rewrite lookup_empty in H; discriminate H) k r Hr). }
    destruct r; try discriminate Ha. eauto. }
  assert (Hdispatch : forall k state action,
            match actionMap frame !! k with
            | Some (RFun reducer) => reducer state action
            | _ => state
            end = transition (actionMap_get (actionMap frame) k) state action).
  { intros k state action. unfold actionMap_get.
    destruct (actionMap frame !! k) as [[| |f]|]; reflexivity. }
  split; [|split; [|exact Hfuns]].
  - intros state action. unfold actionReducer. rewrite Hdispatch, Hchain.
    unfold actionMap_get. rewrite lookup_empty. reflexivity.
  - intros k r1 r2 Hk.
    destruct (actionMap frame !! k) as [r|] eqn:Er.
    + destruct (Hfuns k r Er) as [f ->]. exists f. split; [reflexivity|].
      intros state action. pose proof (Hchain k state action) as H.
      unfold actionMap_get in H. rewrite Er, Hk, lookup_empty in H. exact H.
    + destruct (Hsome k) as [r Hr]; [right; rewrite Hk; discriminate|]. congruence.
Qed.

End ActionMap.

(** Two reducers for one action: [+1], then [*2]. *)
Lemma action_reducers_chain_witness :
  let env := {| hasProxy := true; Object_prototype := ∅ |} in
  let b : list (directive Z value unit) :=
    [ DefineAction "inc" "counter/INC";
      AddReducer "inc" (fun s _ => s + 1)%Z;
      AddReducer "inc" (fun s _ => s * 2)%Z ] in
  match link_frame env b with
  | Ok frame =>
      actionReducer (fun a : value => a) (actionMap frame) 1%Z (VStr "counter/INC") = 4%Z
  | Throw _ => False
  end.
Proof.
  intros env b.
  destruct (link_frame env b) as [frame|e] eqn:E.
  - rewrite (proj1 (action_reducers_chain (fun a : value => a) env b frame E)).
    vm_compute in E. injection E as <-. reflexivity.
  - vm_compute in E. discriminate E.
Defined.

(** Two [addReducer] calls for one action name in one bundle, for any two
    reducers: on an action of that type the store reducer applies the first
    declared and feeds what it returns to the second; other actions leave
    the state as it is. *)
Example two_reducers_one_action {State Action World : Type} (action_type : Action -> value)
    (r1 r2 : State -> Action -> State) :
  exists (l : linked State Action World) f,
    link action_type {| hasProxy := true; Object_prototype := ∅ |}
      [ DefineAction "inc" "counter/INC"; AddReducer "inc" r1; AddReducer "inc" r2 ] = Ok l /\
    reducer l = RFun f /\
    forall state action,
      f state action
      = if decide (action_type action = VStr "counter/INC")
        then r2 (r1 state action) action else state.
Proof.
  unfold link.
  destruct (link_frame (World := World) {| hasProxy := true; Object_prototype := ∅ |}
              [ DefineAction "inc" "counter/INC"; AddReducer "inc" r1; AddReducer "inc" r2 ])
    as [frame|e] eqn:E; vm_compute in E; [injection E as <- | discriminate E].
  eexists _, _. split; [reflexivity|]. split; [reflexivity|].
  intros state action. unfold actionReducer. cbn [actionMap].
  destruct (decide (action_type action = VStr "counter/INC")) as [->|Hne].
  - reflexivity.
  - destruct (action_type action) as [| |b|n|s|f|o|k]; try reflexivity.
    match goal with |- context [?m !! VStr s] =>
      replace m with ({[VStr "counter/INC" :=
                          RFun (fun state action => r2 (r1 state action) action)]}
                      : gmap value (reducerV State Action))
        by (vm_compute; reflexivity) end.
    rewrite lookup_singleton_ne by congruence. reflexivity.
Qed.

(** The same across bundles: the including bundle's reducer for an action
    type applies before the one an included bundle adds for it, and an
    action of another type leaves the state as it is. *)
Example action_reducers_across_bundles :
  let env := {| hasProxy := true; Object_prototype := ∅ |} in
  match link (World := unit) (fun a : value => a) env
          [ DefineAction "inc" "counter/INC";
            AddReducer "inc" (fun s _ => s + 1)%Z;
            Include [AddReducer "inc" (fun s _ => s * 2)%Z] ] with
  | Ok l => transition (reducer l) 1%Z (VStr "counter/INC") = 4%Z /\
            transition (reducer l) 1%Z (VStr "other") = 1%Z
  | Throw _ => False
  end.
Proof. vm_compute. split; reflexivity. Qed.

(** ** Views with a selector name *)

Section ViewSelectors.
Context {State Action World : Type}.
Implicit Types (this : Bundle State Action World) (st : Linker).

(** One view declared with the selector name [s], on any bundle and in any
    state: the name is read in the [locals] of the bundle, whatever the
    global scope has under [s].  When the read fails, or gives something that
    is not a function, the view is rejected; otherwise it is connected to
    that selector, labelled "View(" + name + ")" and published under its name
    (or the name conflict is raised when the name is taken). *)
Lemma linkView_selector_name env this name s view st :
  match makeSafeProxy env (default ∅ (heap st !! locals this))
                      undeclaredDependencyError s with
  | Throw e =>
      e = UndeclaredDependency s /\
      linkView env this (View name view (VStr s)) st = Throw (UndeclaredDependency s)
  | Ok selector =>
      if decide (typeof selector = "function") then
        if has_property env (globalScope st) name then
          linkView env this (View name view (VStr s)) st = Throw (LinkerConflict name)
        else
          exists st',
            linkView env this (View name view (VStr s)) st = Ok (tt, st') /\
            globalScope st' !! name = Some (VConnected (length (connected st))) /\
            typeMap st' !! name = Some "view" /\
            connected st' !! length (connected st) = Some (selector, view) /\
            displayName st' !! VConnected (length (connected st))
              = Some ("View(" +:+ name +:+ ")")
      else linkView env this (View name view (VStr s)) st = Throw InvalidSelector
  end.
Proof.
  unfold linkView.
  destruct (decide (VStr s = VUndefined)) as [Heq|_]; [discriminate Heq|].
  unfold bind, read_locals. cbv beta.
  destruct (makeSafeProxy env (default ∅ (heap st !! locals this))
              undeclaredDependencyError s) as [selector|e] eqn:E.
  - destruct (decide (typeof selector = "function")) as [Hfun|Hfun]; [|reflexivity].
    unfold connect, set_displayName, publish, bind, gets, modify, throw.
    cbn -[has_property "+:+"].
    destruct (has_property env (globalScope st) name); [reflexivity|].
    eexists. split; [reflexivity|]. cbn -["+:+"].
    rewrite !lookup_insert_eq. repeat split.
    rewrite lookup_app_r by reflexivity. rewrite Nat.sub_diag. reflexivity.
  - assert (He : e = UndeclaredDependency s).
    { unfold makeSafeProxy in E. destruct (hasProxy env); [|discriminate].
      destruct (has_property env _ s); [discriminate|]. injection E as <-. reflexivity. }
    subst e. split; reflexivity.
Qed.

End ViewSelectors.

(** At the level of [link]: bundle A publishes a selector; a view of bundle B
    named with it is connected to it when B uses the selector, and linking
    fails when B does not, although the global scope has the selector; a
    name that resolves to a value that is not a function is rejected. *)
Example view_selector_in_locals :
  let env := {| hasProxy := true; Object_prototype := ∅ |} in
  let A : list (directive unit unit unit) := [DefineSelector "getItems" (VFun 1)] in
  match link_frame env
          [ Include A; Include [Use ["getItems"]; DefineView "List" (VStr "getItems") (VFun 2)] ]
  with
  | Ok frame =>
      globalScope (linker frame) !! "List" = Some (VConnected 0) /\
      connected (linker frame) = [(VFun 1, VFun 2)] /\
      displayName (linker frame) !! VConnected 0 = Some "View(List)"
  | Throw _ => False
  end /\
  link_frame env [ Include A; Include [DefineView "List" (VStr "getItems") (VFun 2)] ]
    = Throw (UndeclaredDependency "getItems") /\
  link_frame (State := unit) (Action := unit) (World := unit) env
    [ DefineValue "items" (VNum 3); DefineView "List" (VStr "items") (VFun 2) ]
    = Throw InvalidSelector.
Proof. vm_compute. repeat split. Qed.

(** ** Reads of names that are not there *)

Section Lookup.
Context {State Action World : Type} (action_type : Action -> value).
Implicit Types (this : Bundle State Action World) (st : Linker).

Lemma get_property_missing env (obj : gmap string value) property :
  has_property env obj property = false -> get_property env obj property = VUndefined.
Proof.
  intros H. apply has_property_false in H as [Hown Hproto].
  unfold get_property. rewrite Hown, Hproto. reflexivity.
Qed.

Lemma makeSafeProxy_missing env (obj : gmap string value) onError property :
  has_property env obj property = false ->
  makeSafeProxy env obj onError property
  = if hasProxy env then Throw (onError property) else Ok VUndefined.
Proof.
  intros H. unfold makeSafeProxy. rewrite H, (get_property_missing env obj property H).
  reflexivity.
Qed.

(** C10 (as amended): [lookup] of a name the global scope object does not
    have returns [undefined] and raises nothing, on any bundle and in any
    runtime.  A read of a missing name through a safe proxy -- the [locals]
    of a bundle, the [scope] that [link] returns -- raises the error of that
    proxy when the runtime has [Proxy]; without [Proxy] the proxy is the bare
    object and the read returns [undefined] as well. *)
Theorem lookup_missing_name env st name this :
  has_property env (globalScope st) name = false ->
  Bundle_lookup env name this st = Ok (VUndefined, this, st) /\
  (forall property,
     has_property env (default ∅ (heap st !! locals this)) property = false ->
     read_locals env this property st
     = if hasProxy env then Throw (UndeclaredDependency property)
       else Ok (VUndefined, st)) /\
  (forall (b : list (directive State Action World)) frame,
     link_frame env b = Ok frame -> linker frame = st ->
     exists l, link action_type env b = Ok l /\
               scope l name = if hasProxy env then Throw (UndefinedName name)
                              else Ok VUndefined).
Proof.
  intros Hmissing. split; [|split].
  - unfold Bundle_lookup, lookup, bind, gets, ret.
    rewrite (get_property_missing env _ name Hmissing). reflexivity.
  - intros property Hp. unfold read_locals.
    rewrite (makeSafeProxy_missing env _ _ property Hp).
    destruct (hasProxy env); reflexivity.
  - intros b frame Hlink <-. unfold link. rewrite Hlink. eexists. split; [reflexivity|].
    simpl. apply (makeSafeProxy_missing env _ undefinedNameError name Hmissing).
Qed.

End Lookup.

(** A name that is neither published nor in the [locals] of the bundle. *)
Lemma lookup_missing_name_witness :
  let env := {| hasProxy := true; Object_prototype := {[ "toString" := VFun 0 ]} |} in
  let this : Bundle unit unit unit := mkBundle 0 [] [] [] [] [] [] [] true in
  let st := mkLinker {[ "x" := VNum 1 ]} {[ "x" := "value" ]} ∅ [] [(0, UseArray ["x"])]
                     [ {[ "x" := VNum 1 ]} ] [] ∅ in
  Bundle_lookup env "y" this st = Ok (VUndefined, this, st) /\
  read_locals env this "y" st = Throw (UndeclaredDependency "y").
Proof.
  intros env this st.
  pose proof (lookup_missing_name (fun _ : unit => VUndefined) env st "y" this eq_refl)
    as (Hlookup & Hlocals & _).
  split; [exact Hlookup | exact (Hlocals "y" eq_refl)].
Defined.

(** C10 as stated fails in a runtime without [Proxy]: [makeSafeProxy] returns
    the bare object, and the read of an undeclared key on the [locals] of a
    bundle, or on the [scope] returned by [link], gives [undefined] instead
    of failing. *)
Lemma safe_read_without_proxy_counterexample :
  let env := {| hasProxy := false; Object_prototype := ∅ |} in
  match link_frame (State := unit) (Action := unit) (World := unit) env [],
        link (State := unit) (Action := unit) (World := unit) (fun _ => VUndefined) env [] with
  | Ok frame, Ok l =>
      read_locals env (rootBundle frame) "x" (linker frame) = Ok (VUndefined, linker frame) /\
      scope l "x" = Ok VUndefined /\
      (forall e, read_locals env (rootBundle frame) "x" (linker frame) <> Throw e) /\
      (forall e, scope l "x" <> Throw e)
  | _, _ => False
  end.
Proof. vm_compute. repeat split; discriminate. Qed.

(** * Further properties of the linker *)

(** ** The algebra of the combinators *)

Section Algebra.
Context {State Action : Type}.
Implicit Types x y z : reducerV State Action.

(** X1: the two combinators are one composition written in the two orders,
    [directCompose (y, x)] being [reverseCompose (x, y)], and both are
    associative for all operands, absent ones included: a chain of reducers
    has one meaning however it is grouped. *)
Theorem compose_associative x y z :
  directCompose y x = reverseCompose x y /\
  reverseCompose (reverseCompose x y) z = reverseCompose x (reverseCompose y z) /\
  directCompose (directCompose z y) x = directCompose z (directCompose y x).
Proof.
  destruct x as [| |f], y as [| |g], z as [| |h]; repeat split; reflexivity.
Qed.

End Algebra.

(** ** The effect of a builder on the linker state *)

Section BuilderRuns.
Context {State Action World : Type}.
Implicit Types (this : Bundle State Action World) (d : directive State Action World)
  (b c : list (directive State Action World)) (st : Linker).

(** Induction on the run of a builder: a relation between the builder, the
    bundle and the state before, and the bundle and the state after, that
    holds for every call other than [include], goes through [include], and
    composes, holds for every run that returns. *)
Lemma run_builder_rel env
    (P : list (directive State Action World) -> Bundle State Action World -> Linker ->
         Bundle State Action World -> Linker -> Prop) :
  (forall this st, P [] this st this st) ->
  (forall b1 b2 this1 st1 this2 st2 this3 st3,
     P b1 this1 st1 this2 st2 -> P b2 this2 st2 this3 st3 -> P (b1 ++ b2) this1 st1 this3 st3) ->
  (forall d this st this' st',
     is_include d = false -> run_directive env d this st = Ok (this', st') ->
     P [d] this st this' st') ->
  (forall c this st bundle st',
     sealed this = false ->
     P c (mkBundle (length (heap st)) [] [] [] [] [] [] [] false)
       (mkLinker (globalScope st) (typeMap st) (nameForActionType st) (enhancers st)
                 (useQueue st) (heap st ++ [∅]) (connected st) (displayName st))
       bundle st' ->
     P [Include c] this st
       (mkBundle (locals this) (bundles this ++ [bundle]) (earlyReducers this)
                 (actionReducers this) (lateReducers this) (views this)
                 (defers this) (sagas this) (sealed this)) st') ->
  forall b this st this' st',
    run_builder env b this st = Ok (this', st') -> P b this st this' st'.
Proof.
  intros Hnil Happ Hplain Hinc.
  assert (Hlist : forall b,
            Forall (fun d => forall this st this' st',
                      run_directive env d this st = Ok (this', st') ->
                      P [d] this st this' st') b ->
            forall this st this' st',
              run_builder env b this st = Ok (this', st') -> P b this st this' st').
  { induction b as [|d b IHb]; intros Hall this st this' st' Hrun.
    - injection Hrun as <- <-. apply Hnil.
    - inversion Hall as [|? ? Hd Hb]; subst.
      unfold run_builder in Hrun. simpl in Hrun. unfold bind in Hrun.
      destruct (run_directive env d this st) as [[this1 st1]|e] eqn:E; [|discriminate].
      apply (Happ [d] b _ _ this1 st1); [apply Hd, E | apply IHb; assumption]. }
  assert (Hall : forall d this st this' st',
            run_directive env d this st = Ok (this', st') -> P [d] this st this' st').
  { induction d as [c IH|d Hd] using directive_nested_ind.
    - intros this st this' st'. rewrite run_directive_Include.
      unfold drop_result, include, newBundle, newLocals, bind, ret, _assertNotSealed.
      destruct (sealed this) eqn:Hs; [discriminate|]. unfold ret. cbv beta iota.
      match goal with |- context [run_builder env c ?bundle ?st2] =>
        destruct (run_builder env c bundle st2) as [[bundle' st2']|e] eqn:E; [|discriminate]
      end.
      intros [= <- <-]. simpl.
      pose proof (Hinc c this st bundle' st2' Hs (Hlist c IH _ _ _ _ E)) as H.
      rewrite Hs in H. exact H.
    - intros this st this' st'. apply Hplain, Hd. }
  intros b. apply Hlist. apply Forall_forall. intros d _. apply Hall.
Qed.

(** What a call other than [include] does when it returns: the lists of the
    bundle, the queue, the targets and the enhancers get what the call adds,
    at their ends. *)
Lemma run_plain_directive env d this st this' st' :
  is_include d = false -> run_directive env d this st = Ok (this', st') ->
  this' = mkBundle (locals this) (bundles this)
            (earlyReducers this ++ own_earlyReducers d)
            (actionReducers this ++ own_actionReducers d)
            (lateReducers this ++ own_lateReducers d)
            (views this ++ own_views d)
            (defers this ++ own_defers d)
            (sagas this ++ own_sagas d) (sealed this) /\
  useQueue st' = useQueue st ++ own_queue d (locals this) (length (heap st)) /\
  heap st' = heap st ++ own_targets d /\
  enhancers st' = enhancers st ++ directive_enhancers d /\
  connected st' = connected st /\ displayName st' = displayName st.
Proof.
  intros Hi.
  destruct this as [l bs e a t v df s z].
  destruct d; try discriminate Hi; simpl;
    unfold drop_result, use, pack, defineValue, defineSelector, defineAction, defineView,
      addReducer, addReducer1, addEarlyReducer, addLateReducer, addSaga,
      Bundle_addEnhancer, defer, Bundle_lookup, lookup, publish, declareActionType,
      declareUse, addEnhancer, newLocals, modify, gets, bind, throw, ret,
      _assertNotSealed; simpl.
  all: try (destruct z; [discriminate|]; simpl).
  all: repeat match goal with
              | |- context [bool_decide ?c] => destruct (bool_decide c); simpl
              | |- context [has_property ?e ?o ?n] => destruct (has_property e o n); simpl
              | |- context [decide ?c] => destruct (decide c); simpl
              end.
  all: try discriminate.
  all: intros [= <- <-]; simpl; rewrite ?app_nil_r; repeat split; reflexivity.
Qed.

(** The enhancers are added in the order of the calls. *)
Lemma run_builder_enhancers env b this st this' st' :
  run_builder env b this st = Ok (this', st') ->
  enhancers st' = enhancers st ++ builder_enhancers b.
Proof.
  revert b this st this' st'.
  apply (run_builder_rel env
           (fun b _ st _ st' => enhancers st' = enhancers st ++ builder_enhancers b)).
  - intros _ st. unfold builder_enhancers. simpl. rewrite app_nil_r. reflexivity.
  - intros b1 b2 _ st1 _ st2 _ st3 H1 H2. unfold builder_enhancers in *.
    rewrite map_app, concat_app, H2, H1, app_assoc. reflexivity.
  - intros d this st this' st' Hi Hrun.
    destruct (run_plain_directive env d this st this' st' Hi Hrun) as (_ & _ & _ & He & _).
    unfold builder_enhancers. simpl. rewrite app_nil_r. exact He.
  - intros c this st bundle st' _ H. simpl in H. unfold builder_enhancers in *. simpl.
    rewrite app_nil_r. exact H.
Qed.

End BuilderRuns.

(** ** Loops over the linker state *)

Section Loops.

(** A loop that returns has kept what every step keeps, and has established
    for each element what its step establishes, when later steps keep it. *)
Lemma forEach_each {A} (f : A -> M unit) (I : Linker -> Prop)
    (R : Linker -> Linker -> Prop) (Q : A -> Linker -> Prop) (l : list A) :
  (forall st, R st st) ->
  (forall st1 st2 st3, R st1 st2 -> R st2 st3 -> R st1 st3) ->
  (forall x st st', R st st' -> Q x st -> Q x st') ->
  (forall x st st', x ∈ l -> I st -> f x st = Ok (tt, st') -> I st' /\ R st st' /\ Q x st') ->
  forall st st', I st -> forEach f l st = Ok (tt, st') ->
    I st' /\ R st st' /\ forall x, x ∈ l -> Q x st'.
Proof.
  intros Hrefl Htrans Hstable. induction l as [|x l IH]; intros Hstep st st' HI Hrun.
  - injection Hrun as <-. split; [exact HI|]. split; [apply Hrefl|].
    intros x Hx. inversion Hx.
  - simpl in Hrun. unfold bind in Hrun.
    destruct (f x st) as [[[] st1]|e] eqn:E; [|discriminate].
    destruct (Hstep x st st1 (list_elem_of_here _ _) HI E) as (HI1 & HR1 & HQ1).
    destruct (IH (fun y s s' Hy => Hstep y s s' (list_elem_of_further _ _ _ Hy)) st1 st' HI1 Hrun)
      as (HI' & HR' & HQ').
    split; [exact HI'|]. split; [eapply Htrans; eassumption|].
    intros y Hy. apply list.elem_of_cons in Hy as [->|Hy].
    + eapply Hstable; eassumption.
    + apply HQ', Hy.
Qed.

End Loops.

(** ** What is published stays *)

Section Registry.
Implicit Types (st : Linker) (d : definition).

Lemma scope_grows_refl env st : scope_grows env st st.
Proof. split; [reflexivity|]. auto. Qed.

Lemma scope_grows_trans env st1 st2 st3 :
  scope_grows env st1 st2 -> scope_grows env st2 st3 -> scope_grows env st1 st3.
Proof.
  intros [H1 H1'] [H2 H2']. split; [etransitivity; eassumption|].
  intros name Hp Hn. apply H2', H1'; assumption.
Qed.

(** One name is published under a known type. *)
Lemma publish_registry env st st' name type v :
  has_property env (globalScope st) name = false ->
  globalScope st' = <[name := v]> (globalScope st) ->
  typeMap st' = <[name := type]> (typeMap st) ->
  type ∈ ["value"; "selector"; "action"; "view"] ->
  scope_grows env st st' /\
  (registry_ok env st -> registry_ok env st') /\
  (forall n ty, typeMap st' !! n = Some ty -> ty = type \/ typeMap st !! n = Some ty).
Proof.
  intros Hp Hg Ht Hty. apply has_property_false in Hp as [Hown Hproto].
  split; [|split].
  - split.
    + rewrite Hg. apply insert_subseteq, Hown.
    + intros n Hn Hnone. rewrite Hg. rewrite lookup_insert_ne; [exact Hnone|].
      intros <-. rewrite Hproto in Hn. destruct Hn as [? [=]].
  - intros (H1 & H2 & H3). split; [|split].
    + intros n. rewrite Hg, Ht. destruct (decide (name = n)) as [<-|Hne].
      * rewrite !lookup_insert_eq. split; eauto.
      * rewrite !lookup_insert_ne by exact Hne. apply H1.
    + intros n ty. rewrite Ht. destruct (decide (name = n)) as [<-|Hne].
      * rewrite lookup_insert_eq. intros [= <-]. exact Hty.
      * rewrite lookup_insert_ne by exact Hne. apply H2.
    + intros n. rewrite Hg. destruct (decide (name = n)) as [<-|Hne].
      * intros _. exact Hproto.
      * rewrite lookup_insert_ne by exact Hne. apply H3.
  - intros n ty. rewrite Ht. destruct (decide (name = n)) as [<-|Hne].
    + rewrite lookup_insert_eq. intros [= <-]. left. reflexivity.
    + rewrite lookup_insert_ne by exact Hne. auto.
Qed.

(** A definition that is accepted publishes its value under its name. *)
Lemma run_definition_values env d st st' :
  run_definition env d st = Ok (tt, st') ->
  has_property env (globalScope st) (def_name d) = false /\
  globalScope st' = <[def_name d := def_value d]> (globalScope st) /\
  typeMap st' = <[def_name d := def_type d]> (typeMap st).
Proof.
  destruct d as [type name v|name actionType]; simpl;
    unfold publish, declareActionType, modify, gets, bind, throw, ret; simpl.
  - destruct (has_property env (globalScope st) name); [discriminate|].
    intros [= <-]. auto.
  - destruct (bool_decide (is_Some (nameForActionType st !! actionType))); [discriminate|].
    simpl. destruct (has_property env (globalScope st) name); [discriminate|].
    intros [= <-]. auto.
Qed.

Lemma registry_grows_refl env st : registry_grows env st st.
Proof. split; [apply scope_grows_refl | auto]. Qed.

Lemma registry_grows_trans env st1 st2 st3 :
  registry_grows env st1 st2 -> registry_grows env st2 st3 -> registry_grows env st1 st3.
Proof.
  intros [H1 H1'] [H2 H2']. split; [eapply scope_grows_trans; eassumption | auto].
Qed.

(** The definitions that are accepted are in the global scope, each name with
    its value. *)
Lemma run_definitions_values env (l : list definition) st st' :
  Forall (fun d => def_type d ∈ ["value"; "selector"; "action"; "view"]) l ->
  forEach (run_definition env) l st = Ok (tt, st') ->
  registry_grows env st st' /\
  forall d, d ∈ l -> globalScope st' !! def_name d = Some (def_value d).
Proof.
  intros Hty Hrun.
  destruct (forEach_each (run_definition env) (fun _ => True) (registry_grows env)
              (fun d st => globalScope st !! def_name d = Some (def_value d)) l) with st st'
    as (_ & HR & HQ); auto.
  - apply registry_grows_refl.
  - apply registry_grows_trans.
  - intros d s s' [[Hsub _] _] Hd. eapply lookup_weaken; eassumption.
  - intros d s s' Hd _ Hstep.
    apply run_definition_values in Hstep as (Hp & Hg & Ht).
    rewrite Forall_forall in Hty. specialize (Hty d (proj1 (list_elem_of_In _ _) Hd)).
    destruct (publish_registry env s s' _ _ _ Hp Hg Ht Hty) as (Hsg & Hreg & _).
    split; [exact I|]. split; [split; assumption|].
    rewrite Hg. apply lookup_insert_eq.
Qed.

End Registry.

Section DefinitionTypes.
Context {State Action World : Type}.

(** Builders publish values, selectors and actions. *)
Lemma definitions_types (b : list (directive State Action World)) :
  Forall (fun d => def_type d ∈ ["value"; "selector"; "action"; "view"]) (definitions b).
Proof.
  assert (Hall : forall d : directive State Action World,
            Forall (fun d => def_type d ∈ ["value"; "selector"; "action"; "view"])
                   (directive_definitions d)).
  { induction d as [c IH|d Hd] using directive_nested_ind.
    - simpl. induction c as [|d c IHc]; simpl; [constructor|].
      inversion IH; subst. apply Forall_app. split; [assumption | apply IHc; assumption].
    - destruct d; simpl; try constructor; simpl; try constructor; try discriminate Hd.
      all: set_solver. }
  unfold definitions. induction b as [|d b IHb]; simpl; [constructor|].
  apply Forall_app. split; [apply Hall | exact IHb].
Qed.

End DefinitionTypes.

(** ** Views in the global scope *)

Section ViewsLinked.
Context {State Action World : Type}.
Implicit Types (this : Bundle State Action World) (st : Linker).

Lemma get_property_grows env st st' s :
  scope_grows env st st' ->
  typeof (get_property env (globalScope st) s) = "function" ->
  get_property env (globalScope st') s = get_property env (globalScope st) s.
Proof.
  intros [Hsub Hproto]. unfold get_property.
  destruct (globalScope st !! s) as [v|] eqn:E.
  - intros _. rewrite (lookup_weaken _ _ _ _ E Hsub). reflexivity.
  - destruct (Object_prototype env !! s) as [p|] eqn:Ep; [|discriminate].
    intros _. rewrite (Hproto s); [reflexivity | eauto | exact E].
Qed.

Lemma locals_sound_grows env st st' :
  scope_grows env st st' -> heap st' = heap st -> useQueue st' = useQueue st ->
  locals_sound st -> locals_sound st'.
Proof.
  intros [Hsub _] Hh Hq Hs target obj name v Ho Hv. rewrite Hh in Ho.
  destruct (Hs target obj name v Ho Hv) as [Hg Hd]. split.
  - eapply lookup_weaken; eassumption.
  - unfold declared. rewrite Hq. exact Hd.
Qed.

(** A function read through a [locals] proxy is the global value of the name. *)
Lemma read_function_global env st target onError s sel :
  locals_sound st -> registry_ok env st ->
  makeSafeProxy env (default ∅ (heap st !! target)) onError s = Ok sel ->
  typeof sel = "function" ->
  sel = get_property env (globalScope st) s.
Proof.
  intros Hs (_ & _ & Hproto) Hread Hfun.
  assert (Hsel : sel = get_property env (default ∅ (heap st !! target)) s).
  { unfold makeSafeProxy in Hread.
    destruct (hasProxy env); [destruct (has_property env _ s); [|discriminate]|];
      congruence. }
  subst sel. unfold get_property in *.
  destruct (default ∅ (heap st !! target) !! s) as [v|] eqn:Ev.
  - destruct (heap st !! target) as [obj|] eqn:Eo; simpl in Ev.
    + destruct (Hs target obj s v Eo Ev) as [Hg _]. rewrite Hg. reflexivity.
    + rewrite lookup_empty in Ev. discriminate.
  - destruct (Object_prototype env !! s) as [p|] eqn:Ep; [|discriminate].
    destruct (globalScope st !! s) as [w|] eqn:Eg; [|reflexivity].
    rewrite Hproto in Ep by eauto. discriminate.
Qed.

Lemma views_linked_refl env st : views_linked env st st.
Proof.
  split; [apply registry_grows_refl|]. split; [auto|]. split; [exists []; symmetry; apply app_nil_r|].
  auto.
Qed.

Lemma views_linked_trans env st1 st2 st3 :
  views_linked env st1 st2 -> views_linked env st2 st3 -> views_linked env st1 st3.
Proof.
  intros (Hr1 & Ht1 & [c1 Hc1] & Hh1 & Hq1 & He1) (Hr2 & Ht2 & [c2 Hc2] & Hh2 & Hq2 & He2).
  split; [eapply registry_grows_trans; eassumption|]. split; [|split; [|repeat split]].
  - intros name type H. destruct (Ht2 name type H) as [->|H']; [left; reflexivity | auto].
  - exists (c1 ++ c2). rewrite Hc2, Hc1, app_assoc. reflexivity.
  - congruence.
  - congruence.
  - congruence.
Qed.

Lemma view_linked_stable env st st' descriptor :
  views_linked env st st' -> view_linked env st descriptor -> view_linked env st' descriptor.
Proof.
  intros ([[Hsub Hproto] _] & _ & [c Hc] & _) H.
  destruct descriptor as [name view selector]. destruct H as (v & Hv & Hsel).
  exists v. split; [eapply lookup_weaken; eassumption|].
  destruct selector; try exact Hsel;
    try (destruct Hsel as (i & -> & Hi); exists i; split; [reflexivity|];
         rewrite Hc; apply lookup_app_l_Some; exact Hi).
  destruct Hsel as (i & -> & Hi & Hfun).
  rewrite (get_property_grows env st st' s (conj Hsub Hproto) Hfun).
  exists i. split; [reflexivity|]. split; [|exact Hfun].
  rewrite Hc. apply lookup_app_l_Some. exact Hi.
Qed.

(** One view is linked. *)
Lemma linkView_linked env this descriptor st st' :
  locals_sound st -> registry_ok env st ->
  linkView env this descriptor st = Ok (tt, st') ->
  (locals_sound st' /\ registry_ok env st') /\
  views_linked env st st' /\ view_linked env st' descriptor.
Proof.
  intros Hs Hreg Hrun. destruct descriptor as [name view selector].
  pose proof (linkView_spec env this name view selector st) as H.
  rewrite Hrun in H.
  destruct H as (v' & Hp & Hg & Ht & _ & He & Hq & Hh & _ & Hsel).
  assert (Hview : "view" ∈ ["value"; "selector"; "action"; "view"]) by set_solver.
  destruct (publish_registry env st st' name "view" v' Hp Hg Ht Hview) as (Hsg & Hreg' & Hty).
  assert (Hc : exists c, connected st' = connected st ++ c).
  { destruct (decide (selector = VUndefined)).
    - exists []. rewrite app_nil_r. apply Hsel.
    - destruct Hsel as (_ & sel & Hc & _). eexists. exact Hc. }
  assert (Hlinked : views_linked env st st').
  { split; [split; assumption|]. split; [exact Hty|]. split; [exact Hc|]. auto. }
  split; [split; [eapply locals_sound_grows; eassumption | auto]|].
  split; [exact Hlinked|].
  exists v'. split; [rewrite Hg; apply lookup_insert_eq|].
  destruct (decide (selector = VUndefined)) as [->|Hne].
  - apply Hsel.
  - destruct Hsel as (-> & sel & Hcc & Hfun & Hread).
    assert (Hk : connected st' !! length (connected st) = Some (sel, view)).
    { rewrite Hcc. apply list_lookup_middle. reflexivity. }
    destruct selector; try congruence;
      try (subst sel; exists (length (connected st)); split; [reflexivity | exact Hk]).
    pose proof (read_function_global env st _ _ s sel Hs Hreg Hread Hfun) as Hsel.
    assert (Hfun' : typeof (get_property env (globalScope st) s) = "function")
      by (rewrite <- Hsel; exact Hfun).
    rewrite (get_property_grows env st st' s Hsg Hfun').
    exists (length (connected st)). rewrite <- Hsel. auto.
Qed.

(** The views of a tree are linked. *)
Lemma _linkViews_linked env this st st' :
  locals_sound st -> registry_ok env st ->
  _linkViews env this st = Ok (tt, st') ->
  (locals_sound st' /\ registry_ok env st') /\
  views_linked env st st' /\
  forall descriptor, descriptor ∈ tree_views this -> view_linked env st' descriptor.
Proof.
  revert st st'. induction this as [this IH] using Bundle_tree_ind. intros st st' Hs Hreg.
  destruct this as [l bs e a t v df s z]; simpl in *.
  unfold bind.
  destruct (forEach (linkView env (mkBundle l bs e a t v df s z)) v st) as [[[] st1]|err] eqn:E1;
    [|discriminate].
  intros E2.
  destruct (forEach_each (linkView env (mkBundle l bs e a t v df s z))
              (fun st => locals_sound st /\ registry_ok env st) (views_linked env)
              (fun d st => view_linked env st d) v) with st st1
    as ((Hs1 & Hreg1) & HR1 & HQ1); auto.
  { apply views_linked_refl. }
  { apply views_linked_trans. }
  { intros d s1 s2 HR HQ. eapply view_linked_stable; eassumption. }
  { intros d s1 s2 _ [? ?] Hstep. eapply linkView_linked; eassumption. }
  destruct (forEach_each (_linkViews env)
              (fun st => locals_sound st /\ registry_ok env st) (views_linked env)
              (fun bundle st => forall d, d ∈ tree_views bundle -> view_linked env st d)
              bs) with st1 st'
    as (HI2 & HR2 & HQ2); auto.
  { apply views_linked_refl. }
  { apply views_linked_trans. }
  { intros bundle s1 s2 HR HQ d Hd. eapply view_linked_stable; [exact HR | apply HQ, Hd]. }
  { intros bundle s1 s2 Hb [? ?] Hstep. rewrite Forall_forall in IH.
    apply (IH bundle (proj1 (list_elem_of_In _ _) Hb)); assumption. }
  split; [exact HI2|]. split; [eapply views_linked_trans; eassumption|].
  intros d Hd. apply list.elem_of_app in Hd as [Hd|Hd].
  - eapply view_linked_stable; [exact HR2 | apply HQ1, Hd].
  - apply list_elem_of_In, in_concat in Hd as (ds & Hds & Hd).
    apply in_map_iff in Hds as (bundle & <- & Hb).
    apply (HQ2 bundle); apply list_elem_of_In; assumption.
Qed.

End ViewsLinked.

(** ** The use queue a builder leaves *)

Section Declarations.
Context {State Action World : Type}.
Implicit Types (this : Bundle State Action World) (d : directive State Action World)
  (b c : list (directive State Action World)) (st : Linker).

Lemma queue_grows_refl st : queue_grows st st.
Proof. split; [exists [] | exists 0]; simpl; rewrite app_nil_r; reflexivity. Qed.

Lemma queue_grows_trans st1 st2 st3 :
  queue_grows st1 st2 -> queue_grows st2 st3 -> queue_grows st1 st3.
Proof.
  intros [[q1 Hq1] [k1 Hk1]] [[q2 Hq2] [k2 Hk2]]. split.
  - exists (q1 ++ q2). rewrite Hq2, Hq1, app_assoc. reflexivity.
  - exists (k1 + k2). rewrite Hk2, Hk1, replicate_add, app_assoc. reflexivity.
Qed.

Lemma queue_grows_length st st' : queue_grows st st' -> length (heap st) <= length (heap st').
Proof. intros [_ [k ->]]. rewrite length_app. lia. Qed.

Lemma declared_grows st st' target name :
  queue_grows st st' -> declared st target name -> declared st' target name.
Proof.
  intros [[q Hq] _] (names & Hin & Hn). exists names. split; [|exact Hn].
  rewrite Hq. apply list.elem_of_app. left. exact Hin.
Qed.

Lemma nodes_declared_grows this st st' :
  queue_grows st st' -> nodes_declared this st -> nodes_declared this st'.
Proof.
  intros Hg H n Hn. destruct (H n Hn) as [Hl Hd]. split.
  - pose proof (queue_grows_length st st' Hg). lia.
  - intros entry He. eapply declared_grows; [exact Hg | apply Hd, He].
Qed.

(** The nodes of a tree are its root and the nodes of its subtrees. *)
Lemma nodes_declared_unfold this st :
  nodes_declared this st <->
  (locals this < length (heap st) /\
   forall entry, entry ∈ actionReducers this -> declared st (locals this) (fst entry)) /\
  forall bundle, bundle ∈ bundles this -> nodes_declared bundle st.
Proof.
  unfold nodes_declared. destruct this as [l bs e a t v df s z]; simpl. split.
  - intros H. split; [apply (H (mkBundle l bs e a t v df s z)); left|].
    intros bundle Hb n Hn. apply H. right.
    apply list_elem_of_In, in_concat. exists (nodes bundle). split.
    + apply in_map, list_elem_of_In, Hb.
    + apply list_elem_of_In, Hn.
  - intros [Hroot Hsub] n Hn. apply list.elem_of_cons in Hn as [->|Hn]; [exact Hroot|].
    apply list_elem_of_In, in_concat in Hn as (ns & Hns & Hn).
    apply in_map_iff in Hns as (bundle & <- & Hb).
    apply (Hsub bundle); apply list_elem_of_In; assumption.
Qed.

Lemma own_uses_queue d target next name :
  name ∈ own_uses d ->
  exists names, (target, UseArray names) ∈ own_queue d target next /\ name ∈ names.
Proof.
  destruct d; simpl; intros H; try (inversion H; fail);
    eexists; (split; [left | exact H]).
Qed.

Lemma own_queue_entries d target next entry :
  entry ∈ own_queue d target next ->
  (fst entry = target \/ (fst entry = next /\ own_targets d = [∅])) /\
  exists names, snd entry = UseArray names.
Proof.
  destruct d; simpl; intros H; try (inversion H; fail);
    apply list_elem_of_singleton in H as ->; simpl; eauto.
Qed.

(** The queue and the targets only grow while a builder runs, and the names
    of the action reducers of the bundles are declared on their [locals]. *)
Lemma run_builder_declares env b this st this' st' :
  run_builder env b this st = Ok (this', st') ->
  locals this' = locals this /\ queue_grows st st' /\
  (queue_ok st -> nodes_declared this st -> queue_ok st' /\ nodes_declared this' st').
Proof.
  revert b this st this' st'.
  apply (run_builder_rel env
           (fun b this st this' st' =>
              locals this' = locals this /\ queue_grows st st' /\
              (queue_ok st -> nodes_declared this st ->
               queue_ok st' /\ nodes_declared this' st'))).
  - intros this st. split; [reflexivity|]. split; [apply queue_grows_refl | auto].
  - intros b1 b2 this1 st1 this2 st2 this3 st3 (Hl1 & Hg1 & Hp1) (Hl2 & Hg2 & Hp2).
    split; [congruence|]. split; [eapply queue_grows_trans; eassumption|].
    intros Hq Hn. destruct (Hp1 Hq Hn). auto.
  - intros d this st this' st' Hi Hrun.
    destruct (run_plain_directive env d this st this' st' Hi Hrun)
      as (-> & Hq & Hh & _). simpl.
    assert (Hg : queue_grows st st').
    { split; [eexists; exact Hq|]. exists (length (own_targets d)). rewrite Hh.
      f_equal. destruct d; reflexivity. }
    split; [reflexivity|]. split; [exact Hg|].
    intros Hqok Hnd. apply nodes_declared_unfold in Hnd as [[Hl Hent] Hsub]. split.
    + unfold queue_ok. rewrite Hq, Hh. apply Forall_app. split.
      * eapply List.Forall_impl; [|exact Hqok]. intros entry [Hlt Harr].
        split; [|exact Harr]. rewrite length_app. lia.
      * apply Forall_forall. intros entry He. apply list_elem_of_In in He.
        apply own_queue_entries in He as [[Ht|[Ht Hp]] Harr]; (split; [|exact Harr]).
        -- rewrite Ht, length_app. lia.
        -- rewrite Ht, Hp, length_app. simpl. lia.
    + apply nodes_declared_unfold. simpl. split; [split|].
      * pose proof (queue_grows_length st st' Hg). lia.
      * intros entry He. apply list.elem_of_app in He as [He|He].
        -- eapply declared_grows; [exact Hg | apply Hent, He].
        -- destruct d; simpl in He; try (inversion He; fail).
           apply list_elem_of_singleton in He as ->. simpl.
           exists [name]. split; [|left]. rewrite Hq. apply list.elem_of_app. right. left.
      * intros bundle Hb. eapply nodes_declared_grows; [exact Hg | apply Hsub, Hb].
  - intros c this st bundle st' _ (Hl & Hg & Hp). simpl in *.
    assert (Hg0 : queue_grows st st').
    { eapply queue_grows_trans; [|exact Hg]. split; [exists [] | exists 1]; simpl.
      - rewrite app_nil_r. reflexivity.
      - reflexivity. }
    split; [reflexivity|]. split; [exact Hg0|].
    intros Hqok Hnd. destruct Hp as [Hqok' Hnd'].
    + unfold queue_ok in *. simpl. eapply List.Forall_impl; [|exact Hqok].
      intros entry [Hlt Harr]. split; [|exact Harr]. rewrite length_app. simpl. lia.
    + apply nodes_declared_unfold. simpl. split; [split|].
      * rewrite length_app. simpl. lia.
      * intros entry He. inversion He.
      * intros bundle' Hb. inversion Hb.
    + split; [exact Hqok'|].
      apply nodes_declared_unfold in Hnd as [[Hlt Hent] Hsub].
      apply nodes_declared_unfold. simpl. split; [split|].
      * pose proof (queue_grows_length st st' Hg0). lia.
      * intros entry He. eapply declared_grows; [exact Hg0 | apply Hent, He].
      * intros bundle' Hb. apply list.elem_of_app in Hb as [Hb|Hb].
        -- eapply nodes_declared_grows; [exact Hg0 | apply Hsub, Hb].
        -- apply list_elem_of_singleton in Hb as ->. exact Hnd'.
Qed.

(** The names in the queue, target by target: a run of a builder adds, for
    the [locals] of the bundle it runs on, the names its own calls declare;
    for the [locals] of each bundle made during the run the names the calls
    of that bundle's builder declare; for the target of each [pack] the names
    packed; and nothing else. *)
Lemma run_builder_uses env b this st this' st' :
  run_builder env b this st = Ok (this', st') ->
  locals this' = locals this /\ queue_grows st st' /\
  length (heap st') = length (heap st) + length (concat (map allocated_uses b)) /\
  (queue_ok st -> locals this < length (heap st) ->
   queue_ok st' /\
   (forall entry, entry ∈ useQueue st' ->
      entry ∈ useQueue st \/ fst entry = locals this \/ length (heap st) <= fst entry) /\
   (forall name, declared st' (locals this) name <->
      declared st (locals this) name \/ name ∈ concat (map own_uses b)) /\
   (exists news,
      subnodes this' = subnodes this ++ news /\
      Forall2 (node_uses st st') news (concat (map included_uses b))) /\
   (forall i names, concat (map allocated_uses b) !! i = Some names ->
      forall name, declared st' (length (heap st) + i) name <-> name ∈ names)).
Proof.
  revert b this st this' st'.
  apply (run_builder_rel env
           (fun b this st this' st' =>
              locals this' = locals this /\ queue_grows st st' /\
              length (heap st') = length (heap st) + length (concat (map allocated_uses b)) /\
              (queue_ok st -> locals this < length (heap st) ->
               queue_ok st' /\
               (forall entry, entry ∈ useQueue st' ->
                  entry ∈ useQueue st \/ fst entry = locals this \/
                  length (heap st) <= fst entry) /\
               (forall name, declared st' (locals this) name <->
                  declared st (locals this) name \/ name ∈ concat (map own_uses b)) /\
               (exists news,
                  subnodes this' = subnodes this ++ news /\
                  Forall2 (node_uses st st') news (concat (map included_uses b))) /\
               (forall i names, concat (map allocated_uses b) !! i = Some names ->
                  forall name, declared st' (length (heap st) + i) name <-> name ∈ names)))).
  - intros this st. split; [reflexivity|]. split; [apply queue_grows_refl|].
    split; [simpl; lia|].
    intros Hq Hlt. split; [exact Hq|]. split; [auto|]. split; [|split].
    + intros name. simpl. split; [auto|]. intros [H|H]; [exact H | inversion H].
    + exists []. rewrite app_nil_r. split; [reflexivity | constructor].
    + intros i names H. inversion H.
  - intros b1 b2 this1 st1 this2 st2 this3 st3 (Hl1 & Hg1 & Hh1 & H1) (Hl2 & Hg2 & Hh2 & H2).
    split; [congruence|]. split; [eapply queue_grows_trans; eassumption|].
    split; [rewrite map_app, concat_app, length_app; lia|].
    intros Hq Hlt.
    pose proof (queue_grows_length _ _ Hg1) as Hlen1.
    pose proof (queue_grows_length _ _ Hg2) as Hlen2.
    destruct (H1 Hq Hlt) as (Hq2 & Ho1 & He1 & (news1 & Hn1 & Hf1) & Ha1).
    assert (Hlt2 : locals this2 < length (heap st2)) by (rewrite Hl1; lia).
    destruct (H2 Hq2 Hlt2) as (Hq3 & Ho2 & He2 & (news2 & Hn2 & Hf2) & Ha2).
    rewrite Hl1 in *.
    assert (Hkeep : forall target name,
              length (heap st1) <= target < length (heap st2) ->
              declared st3 target name <-> declared st2 target name).
    { intros target name Ht. split.
      - intros (names' & Hin & Hname). exists names'. split; [|exact Hname].
        destruct (Ho2 _ Hin) as [?|[Heq|Hge]]; [assumption| |]; simpl in *; lia.
      - apply declared_grows, Hg2. }
    split; [exact Hq3|]. split; [|split; [|split]].
    + intros entry He. destruct (Ho2 entry He) as [He'|[?|?]]; [|auto|right; right; lia].
      destruct (Ho1 entry He') as [?|[?|?]]; auto.
    + intros name. rewrite He2, He1, map_app, concat_app, list.elem_of_app. tauto.
    + exists (news1 ++ news2). split; [rewrite Hn2, Hn1, app_assoc; reflexivity|].
      rewrite map_app, concat_app. apply Forall2_app.
      * eapply List.Forall2_impl; [|exact Hf1]. intros n names [[Hlo Hhi] Hd].
        split; [lia|]. intros name. rewrite <- Hd. apply Hkeep. lia.
      * eapply List.Forall2_impl; [|exact Hf2]. intros n names [[Hlo Hhi] Hd].
        split; [lia | exact Hd].
    + intros i names. rewrite map_app, concat_app. intros Hi name.
      destruct (decide (i < length (concat (map allocated_uses b1)))) as [Hlti|Hge].
      * rewrite lookup_app_l in Hi by exact Hlti.
        rewrite <- (Ha1 i names Hi name). apply Hkeep. lia.
      * rewrite lookup_app_r in Hi by lia.
        rewrite <- (Ha2 _ names Hi name).
        replace (length (heap st2) + (i - length (concat (map allocated_uses b1))))
          with (length (heap st1) + i) by lia.
        reflexivity.
  - intros d this st this' st' Hi Hrun.
    destruct (run_plain_directive env d this st this' st' Hi Hrun)
      as (-> & Hq & Hh & _). simpl.
    assert (Hg : queue_grows st st').
    { split; [eexists; exact Hq|]. exists (length (own_targets d)). rewrite Hh.
      f_equal. destruct d; reflexivity. }
    split; [reflexivity|]. split; [exact Hg|].
    split; [rewrite Hh, length_app, app_nil_r; destruct d; try discriminate Hi; reflexivity|].
    intros Hqok Hlt.
    assert (Hold : forall entry, entry ∈ useQueue st -> fst entry < length (heap st)).
    { intros entry Hin. unfold queue_ok in Hqok. rewrite Forall_forall in Hqok.
      apply Hqok, list_elem_of_In, Hin. }
    split; [|split; [|split; [|split]]].
    + unfold queue_ok. rewrite Hq, Hh. apply Forall_app. split.
      * eapply List.Forall_impl; [|exact Hqok]. intros entry [Hlt' Harr].
        split; [|exact Harr]. rewrite length_app. lia.
      * apply Forall_forall. intros entry He. apply list_elem_of_In in He.
        apply own_queue_entries in He as [[Ht|[Ht Hp]] Harr]; (split; [|exact Harr]).
        -- rewrite Ht, length_app. lia.
        -- rewrite Ht, Hp, length_app. simpl. lia.
    + intros entry He. rewrite Hq in He. apply list.elem_of_app in He as [He|He]; [auto|].
      right. apply own_queue_entries in He as [[Ht|[Ht _]] _]; [left | right; lia]; exact Ht.
    + intros name. rewrite app_nil_r. split.
      * intros (names & Hin & Hname). rewrite Hq in Hin.
        apply list.elem_of_app in Hin as [Hin|Hin]; [left; exists names; auto|].
        right. destruct d; simpl in Hin; try (inversion Hin; fail);
          apply list_elem_of_singleton in Hin; injection Hin as ?; subst; try exact Hname.
        lia.
      * intros [Hd|Hn]; [eapply declared_grows; eassumption|].
        destruct (own_uses_queue d (locals this) (length (heap st)) name Hn)
          as (names & Hin & Hname).
        exists names. split; [|exact Hname]. rewrite Hq. apply list.elem_of_app. auto.
    + exists []. rewrite app_nil_r. split; [reflexivity|].
      destruct d; try discriminate Hi; constructor.
    + intros i names Hlook name. rewrite app_nil_r in Hlook.
      destruct d; try discriminate Hi; simpl in Hlook; try (inversion Hlook; fail).
      destruct i as [|i]; [|inversion Hlook]. injection Hlook as ->.
      rewrite Nat.add_0_r. simpl in Hq. split.
      * intros (names' & Hin & Hname). rewrite Hq in Hin.
        apply list.elem_of_app in Hin as [Hin|Hin].
        -- apply Hold in Hin. simpl in Hin. lia.
        -- apply list_elem_of_singleton in Hin. injection Hin as ->. exact Hname.
      * intros Hname. exists names. split; [|exact Hname].
        rewrite Hq. apply list.elem_of_app. right. left.
  - intros c this st bundle st' _ (Hl & Hg & Hh & H). simpl in *.
    assert (Hg0 : queue_grows st st').
    { eapply queue_grows_trans; [|exact Hg]. split; [exists [] | exists 1]; simpl.
      - rewrite app_nil_r. reflexivity.
      - reflexivity. }
    split; [reflexivity|]. split; [exact Hg0|].
    rewrite length_app in Hh. simpl in Hh.
    split; [rewrite app_nil_r; simpl; lia|].
    intros Hqok Hlt.
    destruct H as (Hq' & Ho & He & (news & Hn & Hf) & Ha).
    { unfold queue_ok in *. simpl. eapply List.Forall_impl; [|exact Hqok].
      intros entry [Hlt' Harr]. split; [|exact Harr]. rewrite length_app. simpl. lia. }
    { rewrite length_app. simpl. lia. }
    simpl in Ho. rewrite length_app in Ho. simpl in Ho.
    assert (Hold : forall entry, entry ∈ useQueue st -> fst entry < length (heap st)).
    { intros entry Hin. unfold queue_ok in Hqok. rewrite Forall_forall in Hqok.
      apply Hqok, list_elem_of_In, Hin. }
    assert (Hnew : forall name,
              declared st' (length (heap st)) name <-> name ∈ concat (map own_uses c)).
    { intros name. rewrite He. split; [|auto].
      intros [(names & Hin & _)|Hn']; [|exact Hn'].
      apply Hold in Hin. simpl in Hin. lia. }
    split; [exact Hq'|]. split; [|split; [|split]].
    + intros entry Hin. destruct (Ho entry Hin) as [?|[Heq|Hge]]; [auto| |]; right; right; lia.
    + intros name. split.
      * intros (names & Hin & Hname). left. exists names. split; [|exact Hname].
        destruct (Ho _ Hin) as [?|[Heq|Hge]]; [assumption| |]; simpl in *; lia.
      * intros [Hd|Hnil]; [eapply declared_grows; eassumption | inversion Hnil].
    + exists (bundle :: news). split.
      * unfold subnodes in *. simpl. rewrite map_app, concat_app. simpl.
        rewrite app_nil_r. f_equal. destruct bundle. simpl in *. f_equal. exact Hn.
      * rewrite app_nil_r. constructor.
        -- split; [rewrite Hl; lia|]. intros name. rewrite Hl. apply Hnew.
        -- eapply List.Forall2_impl; [|exact Hf]. intros n names [[Hlo Hhi] Hd].
           split; [|exact Hd]. simpl in Hlo. rewrite length_app in Hlo. simpl in Hlo. lia.
    + intros i names Hlook name. rewrite app_nil_r in Hlook.
      destruct i as [|i]; simpl in Hlook.
      * injection Hlook as <-. rewrite Nat.add_0_r. apply Hnew.
      * rewrite <- (Ha i names Hlook name). simpl. rewrite length_app. simpl.
        replace (length (heap st) + S i) with (length (heap st) + 1 + i) by lia.
        reflexivity.
Qed.

End Declarations.

(** ** What injection leaves in the local views *)

Section Resolution.
Implicit Types (st : Linker) (filter : typeFilter).

(** The filter of a pass lets a known type tag through when it is one of the
    pass's types. *)
Lemma filter_passes filter types type :
  filter_types filter types -> type ∈ ["value"; "selector"; "action"; "view"] ->
  truthy_filter filter && bool_decide (indexOf filter (Some type) = (-1)%Z)
  = bool_decide (type ∉ types).
Proof.
  intros [[-> ->]|[-> ->]] H;
    repeat (apply list.elem_of_cons in H as [->|H]; [vm_compute; reflexivity|]);
    inversion H.
Qed.

Lemma filter_skips_untyped filter types :
  filter_types filter types ->
  truthy_filter filter && bool_decide (indexOf filter None = (-1)%Z) = true.
Proof. intros [[-> ->]|[-> ->]]; vm_compute; reflexivity. Qed.

Lemma registry_ok_only_locals env st st' :
  only_locals_changed st st' -> registry_ok env st -> registry_ok env st'.
Proof.
  intros (Hg & Ht & _). unfold registry_ok. rewrite Hg, Ht. auto.
Qed.

Lemma queue_ok_same st st' :
  useQueue st' = useQueue st -> length (heap st') = length (heap st) ->
  queue_ok st -> queue_ok st'.
Proof. unfold queue_ok. intros -> ->. auto. Qed.

(** One injection: the name is skipped, or it gets its global value in the
    target; the other properties of the targets stay. *)
Lemma inject_step env filter types locals name st st' :
  filter_types filter types -> registry_ok env st -> locals_sound st ->
  locals < length (heap st) -> declared st locals name ->
  inject env filter locals name st = Ok (tt, st') ->
  only_locals_changed st st' /\ locals_sound st' /\
  (forall target n, entry_resolved st target n -> entry_resolved st' target n) /\
  (forall type, typeMap st !! name = Some type -> type ∈ types ->
     entry_resolved st' locals name).
Proof.
  intros Hf (Hreg1 & Hreg2 & _) Hs Hlt Hdecl. unfold inject, bind, gets.
  assert (Hskip : st' = st ->
            (forall type, typeMap st !! name = Some type -> type ∉ types) ->
            only_locals_changed st st' /\ locals_sound st' /\
            (forall target n, entry_resolved st target n -> entry_resolved st' target n) /\
            (forall type, typeMap st !! name = Some type -> type ∈ types ->
               entry_resolved st' locals name)).
  { intros -> Hno. split; [apply only_locals_changed_refl|]. split; [exact Hs|].
    split; [auto|]. intros type Ht Hin. destruct (Hno type Ht Hin). }
  destruct (typeMap st !! name) as [type|] eqn:Et.
  - rewrite (filter_passes filter types type Hf (Hreg2 name type Et)).
    destruct (decide (type ∉ types)) as [Hn|Hin].
    + rewrite bool_decide_eq_true_2 by exact Hn. intros [= <-].
      apply Hskip; [reflexivity|]. intros ? [= <-]. exact Hn.
    + rewrite bool_decide_eq_false_2 by exact Hin. clear Hskip.
      destruct (proj2 (Hreg1 name) (ex_intro _ type Et)) as [v Hv].
      assert (Hp : has_property env (globalScope st) name = true).
      { apply has_property_true. left. eauto. }
      rewrite Hp. unfold set_local, modify, get_property. rewrite Hv.
      intros [= <-]. simpl.
      destruct (lookup_lt_is_Some_2 _ _ Hlt) as [obj Hobj].
      split; [|split; [|split]].
      * unfold only_locals_changed. simpl. rewrite length_alter. repeat split.
      * intros target obj' n w. simpl. rewrite list_lookup_alter.
        destruct (decide (locals = target)) as [<-|Hne].
        -- rewrite Hobj. simpl. intros [= <-].
           destruct (decide (name = n)) as [<-|Hnn].
           ++ rewrite lookup_insert_eq. intros [= <-]. auto.
           ++ rewrite lookup_insert_ne by exact Hnn. intros Hw. apply (Hs locals obj n w Hobj Hw).
        -- intros Ho Hw. apply (Hs target obj' n w Ho Hw).
      * intros target n (obj' & w & Ho & Hw & Hg). unfold entry_resolved. simpl.
        rewrite list_lookup_alter. destruct (decide (locals = target)) as [<-|Hne].
        -- rewrite Ho. simpl. exists (<[name := v]> obj'), w. split; [reflexivity|].
           split; [|exact Hg]. destruct (decide (name = n)) as [<-|Hnn].
           ++ rewrite lookup_insert_eq. congruence.
           ++ rewrite lookup_insert_ne by exact Hnn. exact Hw.
        -- exists obj', w. auto.
      * intros _ _ _. unfold entry_resolved. simpl. rewrite list_lookup_alter_eq, Hobj. simpl.
        exists (<[name := v]> obj), v. split; [reflexivity|]. split; [|exact Hv].
        apply lookup_insert_eq.
  - rewrite (filter_skips_untyped filter types Hf). intros [= <-].
    apply Hskip; [reflexivity|]. intros ? [=].
Qed.

(** One pass of [injectAll] that returns: every declared name whose type the
    pass lets through is resolved, and what was resolved stays so. *)
Lemma injectAll_resolves env filter types st st' :
  filter_types filter types -> registry_ok env st -> queue_ok st -> locals_sound st ->
  injectAll env filter st = Ok (tt, st') ->
  only_locals_changed st st' /\ locals_sound st' /\
  (forall target n, entry_resolved st target n -> entry_resolved st' target n) /\
  (forall target n type,
     declared st target n -> typeMap st !! n = Some type -> type ∈ types ->
     entry_resolved st' target n).
Proof.
  intros Hf Hreg Hq Hs. unfold injectAll, bind, gets.
  set (R := fun s s' : Linker =>
              only_locals_changed s s' /\
              forall target n, entry_resolved s target n -> entry_resolved s' target n).
  set (I := fun s : Linker =>
              registry_ok env s /\ queue_ok s /\ locals_sound s /\ useQueue s = useQueue st).
  set (Qn := fun (locals : nat) (name : string) (s : Linker) =>
               forall type, typeMap s !! name = Some type -> type ∈ types ->
                 entry_resolved s locals name).
  assert (Hrefl : forall s, R s s).
  { intros s. split; [apply only_locals_changed_refl | auto]. }
  assert (Htrans : forall s1 s2 s3, R s1 s2 -> R s2 s3 -> R s1 s3).
  { intros s1 s2 s3 [H1 H1'] [H2 H2']. split; [eapply only_locals_changed_trans; eassumption|].
    auto. }
  assert (Hstable : forall locals name s s', R s s' -> Qn locals name s -> Qn locals name s').
  { intros locals name s s' [(_ & Ht & _) Hres] HQ type Hty Hin. rewrite Ht in Hty.
    apply Hres, (HQ type Hty Hin). }
  assert (Hnames : forall locals names s s',
            (locals, UseArray names) ∈ useQueue st -> I s ->
            forEach (inject env filter locals) names s = Ok (tt, s') ->
            I s' /\ R s s' /\ forall name, name ∈ names -> Qn locals name s').
  { intros locals names s s' Hin HI. 
    apply (forEach_each (inject env filter locals) I R (Qn locals) names Hrefl Htrans
             (Hstable locals)); [|exact HI].
    intros name s1 s2 Hname (Hreg1 & Hq1 & Hs1 & Hu1) Hstep.
    assert (Hlt : locals < length (heap s1)).
    { unfold queue_ok in Hq1. rewrite Hu1, Forall_forall in Hq1.
      apply (Hq1 (locals, UseArray names)), list_elem_of_In, Hin. }
    assert (Hdecl : declared s1 locals name).
    { exists names. rewrite Hu1. auto. }
    destruct (inject_step env filter types locals name s1 s2 Hf Hreg1 Hs1 Hlt Hdecl Hstep)
      as (Ho & Hs2 & Hres & Hnew).
    split; [|split; [split; assumption|]].
    - pose proof Ho as (Hg & Ht & Hn & He & Hu & Hl & Hc & Hd).
      split; [eapply registry_ok_only_locals; eassumption|].
      split; [eapply queue_ok_same; eassumption|]. split; [exact Hs2 | congruence].
    - intros type Hty Hin'. destruct Ho as (_ & Ht & _). rewrite Ht in Hty.
      apply (Hnew type Hty Hin'). }
  intros Hrun.
  destruct (forEach_each
              (fun dir : nat * useArg =>
                 let '(locals, arg) := dir in
                 match arg with
                 | UseString name => inject env filter locals name
                 | UseArray names => forEach (inject env filter locals) names
                 | UseOther _ => throw InvalidUse
                 end)
              I R
              (fun dir s => forall names, snd dir = UseArray names ->
                              forall name, name ∈ names -> Qn (fst dir) name s)
              (useQueue st) Hrefl Htrans) with st st'
    as ((_ & _ & Hs' & _) & [Ho Hres] & HQ).
  - intros [locals arg] s s' HR HQ names Harg name Hname.
    eapply Hstable; [exact HR | eapply HQ; eassumption].
  - intros [locals arg] s s' Hin HI Hstep.
    assert (Harr : exists names, arg = UseArray names).
    { unfold queue_ok in Hq. rewrite Forall_forall in Hq.
      apply (Hq (locals, arg)), list_elem_of_In, Hin. }
    destruct Harr as [names ->].
    destruct (Hnames locals names s s' Hin HI Hstep) as (HI' & HR' & HQ').
    split; [exact HI'|]. split; [exact HR'|].
    intros names' [= <-] name Hname. apply HQ', Hname.
  - exact (conj Hreg (conj Hq (conj Hs eq_refl))).
  - exact Hrun.
  - split; [exact Ho|]. split; [exact Hs'|]. split; [exact Hres|].
    intros target n type (names & Hin & Hn) Hty Hin'.
    destruct Ho as (_ & Ht & _).
    apply (HQ (target, UseArray names) Hin names eq_refl n Hn type); [|exact Hin'].
    rewrite Ht. exact Hty.
Qed.

End Resolution.

(** ** The state a successful link leaves *)

Section LinkedState.
Context {State Action World : Type}.
Implicit Types (this : Bundle State Action World) (b : list (directive State Action World))
  (st : Linker).

Lemma tree_views_erase this : tree_views (erase this) = tree_views this.
Proof.
  induction this as [this IH] using Bundle_tree_ind.
  destruct this as [l bs e a t v df s z]; simpl in *. f_equal. f_equal.
  rewrite map_map. apply map_ext_in. intros c Hc.
  rewrite Forall_forall in IH. apply IH, Hc.
Qed.

Lemma nodes_declared_seal this st : nodes_declared this st -> nodes_declared (_seal this) st.
Proof.
  induction this as [this IH] using Bundle_tree_ind. intros H.
  apply nodes_declared_unfold in H as [Hroot Hsub]. apply nodes_declared_unfold.
  destruct this as [l bs e a t v df s z]; simpl in *. split; [exact Hroot|].
  intros bundle Hb. apply list_elem_of_In, in_map_iff in Hb as (c & <- & Hc).
  rewrite Forall_forall in IH. apply (IH c Hc), Hsub, list_elem_of_In, Hc.
Qed.

Lemma nodes_declared_same this st st' :
  useQueue st' = useQueue st -> length (heap st') = length (heap st) ->
  nodes_declared this st -> nodes_declared this st'.
Proof. unfold nodes_declared, declared. intros -> ->. auto. Qed.

(** The state the root builder leaves when it returns. *)
Lemma run_root_builder env b root1 st1 :
  run_builder env b root0 st0 = Ok (root1, st1) ->
  registry_ok env st1 /\ queue_ok st1 /\ locals_sound st1 /\
  nodes_declared root1 st1 /\ locals root1 = 0 /\
  enhancers st1 = builder_enhancers b /\
  (forall d, d ∈ definitions b -> globalScope st1 !! def_name d = Some (def_value d)).
Proof.
  intros Hrun.
  (* the definitions *)
  pose proof (run_builder_simulates env b root0 st0 initialLinker eq_refl
                (conj eq_refl (conj eq_refl eq_refl))) as Hsim.
  destruct (forEach (run_definition env) (definitions b) initialLinker)
    as [[[] st1']|e] eqn:Hdefs.
  2: { change (run_builder env b root0 st0 = Throw e) in Hsim. congruence. }
  destruct Hsim as (root1' & st1'' & Hrun' & _ & _ & _ & (Hg1 & Ht1 & _) & _).
  change (run_builder env b root0 st0 = Ok (root1', st1'')) in Hrun'.
  rewrite Hrun in Hrun'. injection Hrun' as <- <-.
  destruct (run_definitions_values env (definitions b) initialLinker st1'
              (definitions_types b) Hdefs) as [[Hsg1 Hreg1'] Hvals1].
  assert (Hreg1 : registry_ok env st1).
  { unfold registry_ok. rewrite Hg1, Ht1. apply Hreg1'.
    unfold registry_ok. simpl. split; [|split].
    - intros name. rewrite !lookup_empty. split; intros [? [=]].
    - intros name type. rewrite lookup_empty. discriminate.
    - intros name. rewrite lookup_empty. intros [? [=]]. }
  (* the calls of the builders *)
  destruct (run_builder_declares env b _ _ _ _ Hrun) as (Hl1 & Hgrow & Hwb).
  simpl in Hl1.
  destruct Hwb as [Hq1 Hn1].
  { unfold queue_ok. simpl. constructor. }
  { apply nodes_declared_unfold. simpl. split; [split; [lia|]|].
    - intros entry He. inversion He.
    - intros bundle Hb. inversion Hb. }
  assert (Hs1 : locals_sound st1).
  { destruct Hgrow as [_ [k Hk]]. simpl in Hk. intros target obj name v Ho Hv.
    rewrite Hk in Ho.
    apply (lookup_replicate (S k) (∅ : gmap string value)) in Ho as [-> _].
    rewrite lookup_empty in Hv. discriminate. }
  pose proof (run_builder_enhancers env b _ _ _ _ Hrun) as He1. simpl in He1.
  split; [exact Hreg1|]. split; [exact Hq1|]. split; [exact Hs1|]. split; [exact Hn1|].
  split; [exact Hl1|]. split; [exact He1|].
  intros d Hd. rewrite Hg1. apply Hvals1, Hd.
Qed.

(** The state after the two passes of injection around view linking: the
    registry is in order; the targets hold the declared names that are
    published, with their global values, and nothing else; the names the
    bundles need are declared; the views and the definitions are in the
    global scope; the enhancers are those of the builders, in the order of
    the calls. *)
Lemma link_phases_linked env b root1 st1 st2 st3 st4 :
  run_builder env b root0 st0 = Ok (root1, st1) ->
  injectAll env (FilterArray ["action"; "selector"; "value"]) st1 = Ok (tt, st2) ->
  _linkViews env (_seal root1) st2 = Ok (tt, st3) ->
  injectAll env (FilterString "views") st3 = Ok (tt, st4) ->
  registry_ok env st4 /\ locals_sound st4 /\
  (forall target name,
     declared st4 target name -> is_Some (typeMap st4 !! name) ->
     entry_resolved st4 target name) /\
  nodes_declared (_seal root1) st4 /\
  (forall descriptor, descriptor ∈ tree_views (_seal root1) -> view_linked env st4 descriptor) /\
  (forall d, d ∈ definitions b -> globalScope st4 !! def_name d = Some (def_value d)) /\
  enhancers st4 = builder_enhancers b /\
  useQueue st4 = useQueue st1 /\ length (heap st4) = length (heap st1).
Proof.
  intros Hrun E1 E2 E3.
  destruct (run_root_builder env b root1 st1 Hrun)
    as (Hreg1 & Hq1 & Hs1 & Hn1 & Hl1 & He1 & Hvals1).
  (* the first pass *)
  destruct (injectAll_resolves env _ ["action"; "selector"; "value"] st1 st2
              (or_introl (conj eq_refl eq_refl)) Hreg1 Hq1 Hs1 E1)
    as (Ho12 & Hs2 & _ & Hres2).
  pose proof (registry_ok_only_locals env st1 st2 Ho12 Hreg1) as Hreg2.
  destruct Ho12 as (Hg12 & Ht12 & _ & He12 & Hu12 & Hh12 & Hc12 & _).
  (* the views *)
  destruct (_linkViews_linked env (_seal root1) st2 st3 Hs2 Hreg2 E2)
    as ((Hs3 & Hreg3) & Hvl & Hviews).
  destruct Hvl as ([Hsg23 _] & Hty23 & Hc23 & Hh23 & Hu23 & He23).
  assert (Hq3 : queue_ok st3).
  { apply (queue_ok_same st1); [congruence | rewrite Hh23; exact Hh12 | exact Hq1]. }
  (* the second pass *)
  destruct (injectAll_resolves env _ ["view"] st3 st4
              (or_intror (conj eq_refl eq_refl)) Hreg3 Hq3 Hs3 E3)
    as (Ho34 & Hs4 & Hstable4 & Hres4).
  pose proof (registry_ok_only_locals env st3 st4 Ho34 Hreg3) as Hreg4.
  destruct Ho34 as (Hg34 & Ht34 & _ & He34 & Hu34 & Hh34 & Hc34 & _).
  assert (Hu : useQueue st4 = useQueue st1) by congruence.
  assert (Hh : length (heap st4) = length (heap st1)) by (rewrite Hh34, Hh23; exact Hh12).
  split; [exact Hreg4|]. split; [exact Hs4|].
  split; [|split; [|split; [|split; [|split; [|split]]]]].
  - intros target name Hd [type Hty]. rewrite Ht34 in Hty.
    assert (Hd3 : declared st3 target name).
    { unfold declared in *. rewrite Hu34 in Hd. exact Hd. }
    destruct (decide (type = "view")) as [->|Hnv].
    + apply (Hres4 target name "view" Hd3 Hty). left.
    + destruct (Hty23 name type Hty) as [?|Hty2]; [contradiction|].
      apply Hstable4.
      assert (Hd1 : declared st1 target name).
      { unfold declared in *. rewrite Hu23, Hu12 in Hd3. exact Hd3. }
      rewrite Ht12 in Hty2.
      assert (Hin : type ∈ ["action"; "selector"; "value"]).
      { destruct Hreg1 as (_ & Hknown & _). specialize (Hknown name type Hty2).
        apply list.elem_of_cons in Hknown as [->|Hknown]; [do 2 right; left|].
        apply list.elem_of_cons in Hknown as [->|Hknown]; [right; left|].
        apply list.elem_of_cons in Hknown as [->|Hknown]; [left|].
        apply list_elem_of_singleton in Hknown. contradiction. }
      destruct (Hres2 target name type Hd1 Hty2 Hin) as (obj & v & Ho & Hv & Hg).
      exists obj, v. rewrite Hh23. split; [exact Ho|]. split; [exact Hv|].
      destruct Hsg23 as [Hsub _]. eapply lookup_weaken; eassumption.
  - apply nodes_declared_seal.
    apply (nodes_declared_same root1 st1); assumption.
  - intros descriptor Hd.
    specialize (Hviews descriptor Hd).
    destruct descriptor as [name view selector]. unfold view_linked in *.
    rewrite Hg34, Hc34. exact Hviews.
  - intros d Hd. rewrite Hg34. destruct Hsg23 as [Hsub _].
    eapply lookup_weaken; [|exact Hsub]. rewrite Hg12. apply Hvals1, Hd.
  - rewrite He34, He23, He12. exact He1.
  - exact Hu.
  - exact Hh.
Qed.

(** The state of a successful [link]. *)
Lemma link_frame_linked env b (frame : linkFrame State Action World) :
  link_frame env b = Ok frame ->
  registry_ok env (linker frame) /\ locals_sound (linker frame) /\
  (forall target name,
     declared (linker frame) target name -> is_Some (typeMap (linker frame) !! name) ->
     entry_resolved (linker frame) target name) /\
  nodes_declared (rootBundle frame) (linker frame) /\
  (forall descriptor, descriptor ∈ tree_views (builder_tree b) ->
     view_linked env (linker frame) descriptor) /\
  (forall d, d ∈ definitions b -> globalScope (linker frame) !! def_name d = Some (def_value d)) /\
  enhancers (linker frame) = builder_enhancers b.
Proof.
  intros Hlink.
  destruct (link_frame_Ok env b frame Hlink)
    as (root1 & st1 & st1' & st2 & st3 & Hrun & _ & _ & Herase & E1 & E2 & E3 & _ & Hroot).
  rewrite Hroot, <- Herase, <- (erase_seal root1), tree_views_erase.
  destruct (link_phases_linked env b root1 st1 st2 st3 _ Hrun E1 E2 E3)
    as (H1 & H2 & H3 & H4 & H5 & H6 & H7 & _).
  auto 10.
Qed.

End LinkedState.

(** ** The exported scope *)

Section Scope.
Context {State Action World : Type} (action_type : Action -> value).
Implicit Types (b : list (directive State Action World)).

Lemma makeSafeProxy_own env (obj : gmap string value) onError property v :
  obj !! property = Some v -> makeSafeProxy env obj onError property = Ok v.
Proof.
  intros H. unfold makeSafeProxy, get_property. rewrite H.
  assert (Hp : has_property env obj property = true)
    by (apply has_property_true; left; eauto).
  rewrite Hp. destruct (hasProxy env); reflexivity.
Qed.

(** X2: the scope a successful [link] returns has every definition of every
    builder of the tree, under its name and with the value it was defined
    with (for an action, its type), in every runtime. *)
Theorem scope_exports_definitions env b (l : linked State Action World) d :
  link action_type env b = Ok l -> d ∈ definitions b ->
  scope l (def_name d) = Ok (def_value d).
Proof.
  unfold link. destruct (link_frame env b) as [frame|e] eqn:E; [|discriminate].
  intros [= <-] Hd. simpl.
  destruct (link_frame_linked env b frame E) as (_ & _ & _ & _ & _ & Hvals & _).
  apply makeSafeProxy_own, Hvals, Hd.
Qed.

(** X3: after a successful [link] every view of every builder of the tree is
    in the scope under its name: a view declared without selector as the view
    itself; a view declared with a selector as a component that [connect]
    made of the selector and the view, a selector given by name being the
    value the scope has for that name, which is a function. *)
Theorem scope_exports_views env b frame (l : linked State Action World) name view selector :
  link_frame env b = Ok frame -> link action_type env b = Ok l ->
  View name view selector ∈ tree_views (builder_tree b) ->
  match selector with
  | VUndefined => scope l name = Ok view
  | VStr s =>
      exists k sel,
        scope l name = Ok (VConnected k) /\ scope l s = Ok sel /\
        typeof sel = "function" /\ connected (linker frame) !! k = Some (sel, view)
  | _ =>
      exists k,
        scope l name = Ok (VConnected k) /\
        connected (linker frame) !! k = Some (selector, view)
  end.
Proof.
  intros E. unfold link. rewrite E. intros [= <-] Hd. simpl.
  destruct (link_frame_linked env b frame E) as (_ & _ & _ & _ & Hviews & _).
  destruct (Hviews _ Hd) as (v & Hv & Hsel).
  pose proof (makeSafeProxy_own env _ undefinedNameError name v Hv) as Hscope.
  destruct selector; try (subst v; exact Hscope);
    try (destruct Hsel as (i & -> & Hi); exists i; split; [exact Hscope | exact Hi]).
  destruct Hsel as (i & -> & Hi & Hfun).
  exists i, (get_property env (globalScope (linker frame)) s).
  split; [exact Hscope|]. split; [|split; assumption].
  unfold makeSafeProxy.
  assert (Hp : has_property env (globalScope (linker frame)) s = true).
  { apply has_property_true. unfold get_property in Hfun.
    destruct (globalScope (linker frame) !! s); [left; eauto|].
    destruct (Object_prototype env !! s); [right; eauto | discriminate Hfun]. }
  rewrite Hp. destruct (hasProxy env); reflexivity.
Qed.

End Scope.

(** A value and an action of an included bundle. *)
Lemma scope_exports_definitions_witness :
  match link (State := unit) (Action := unit) (World := unit) (fun _ => VUndefined)
          {| hasProxy := true; Object_prototype := ∅ |}
          [ DefineValue "x" (VNum 1); Include [DefineAction "inc" "counter/INC"] ] with
  | Ok l => scope l "inc" = Ok (VStr "counter/INC")
  | Throw _ => False
  end.
Proof.
  destruct (link _ _ _) as [l|e] eqn:E.
  - apply (scope_exports_definitions _ _ _ l (ActionDefined "inc" "counter/INC") E).
    right. left.
  - vm_compute in E. discriminate E.
Defined.

(** A view connected to a selector given by name. *)
Lemma scope_exports_views_witness :
  let env := {| hasProxy := true; Object_prototype := ∅ |} in
  let b : list (directive unit unit unit) :=
    [ DefineSelector "getItems" (VFun 1); DefineView "List" (VStr "getItems") (VFun 2) ] in
  match link_frame env b, link (fun _ => VUndefined) env b with
  | Ok frame, Ok l =>
      exists k sel,
        scope l "List" = Ok (VConnected k) /\ scope l "getItems" = Ok sel /\
        typeof sel = "function" /\ connected (linker frame) !! k = Some (sel, VFun 2)
  | _, _ => False
  end.
Proof.
  intros env b.
  destruct (link_frame env b) as [frame|e] eqn:E; [|vm_compute in E; discriminate E].
  destruct (link (fun _ => VUndefined) env b) as [l|e] eqn:El;
    [|vm_compute in El; discriminate El].
  apply (scope_exports_views (fun _ => VUndefined) env b frame l "List" (VFun 2)
           (VStr "getItems") E El).
  left.
Defined.

(** ** Sagas and enhancers *)

Section Tasks.
Context {State Action World : Type} (action_type : Action -> value).
Implicit Types (this : Bundle State Action World) (b : list (directive State Action World)).

Lemma _saga_erase this : _saga (erase this) = _saga this.
Proof.
  induction this as [this IH] using Bundle_tree_ind.
  destruct this as [l bs e a t v df s z]; simpl in *. f_equal. f_equal.
  rewrite map_map. apply map_ext_in. intros c Hc.
  rewrite Forall_forall in IH. apply IH, Hc.
Qed.

Lemma saga_calls_tree this : saga_calls (_saga this) = tree_sagas this.
Proof.
  induction this as [this IH] using Bundle_tree_ind.
  destruct this as [l bs e a t v df s z]; simpl in *.
  rewrite map_app, concat_app, !map_map. f_equal.
  - induction s as [|x s IHs]; simpl; [reflexivity | f_equal; exact IHs].
  - f_equal. apply map_ext_in. intros c Hc. rewrite Forall_forall in IH. apply IH, Hc.
Qed.

(** X4: the root saga of a successful [link] depends on the builders only,
    not on what was published: it is the task tree of the tree of builders,
    each bundle calling its own sagas, in the order of its [addSaga] calls,
    and then the task of each bundle it includes, in the order of the
    [include] calls, so that every saga of the tree is called once, depth
    first. *)
Theorem root_saga_calls env b (l : linked State Action World) :
  link action_type env b = Ok l ->
  rootSaga l = _saga (builder_tree b) /\
  saga_calls (rootSaga l) = tree_sagas (builder_tree b).
Proof.
  unfold link. destruct (link_frame env b) as [frame|e] eqn:E; [|discriminate].
  intros [= <-]. simpl.
  assert (H : _saga (rootBundle frame) = _saga (builder_tree b)).
  { rewrite <- (link_frame_tree env b frame E). symmetry. apply _saga_erase. }
  rewrite H. split; [reflexivity | apply saga_calls_tree].
Qed.

(** X5: the store enhancer of a successful [link] composes, onto the saga
    middleware, the enhancers of all the builders in the order of the
    [addEnhancer] calls, an included builder's calls being made during the
    [include] call: the enhancers are flat, in call order, and not in the
    order of the tree. *)
Theorem enhancer_call_order env b (l : linked State Action World) :
  link action_type env b = Ok l ->
  enhancer l
  = fold_left (fun enhancer other => Compose enhancer (Given other))
              (builder_enhancers b) ApplyMiddleware.
Proof.
  unfold link. destruct (link_frame env b) as [frame|e] eqn:E; [|discriminate].
  intros [= <-]. simpl.
  destruct (link_frame_linked env b frame E) as (_ & _ & _ & _ & _ & _ & He).
  rewrite He. reflexivity.
Qed.

End Tasks.

(** Two sagas around an included bundle with one saga. *)
Lemma root_saga_calls_witness :
  match link (State := unit) (Action := unit) (World := unit) (fun _ => VUndefined)
          {| hasProxy := true; Object_prototype := ∅ |}
          [ AddSaga (VFun 1); Include [AddSaga (VFun 2)]; AddSaga (VFun 3) ] with
  | Ok l => saga_calls (rootSaga l) = [VFun 1; VFun 3; VFun 2]
  | Throw _ => False
  end.
Proof.
  destruct (link _ _ _) as [l|e] eqn:E.
  - rewrite (proj2 (root_saga_calls _ _ _ l E)). reflexivity.
  - vm_compute in E. discriminate E.
Defined.

(** Two enhancers around an included bundle with one enhancer. *)
Lemma enhancer_call_order_witness :
  match link (State := unit) (Action := unit) (World := unit) (fun _ => VUndefined)
          {| hasProxy := true; Object_prototype := ∅ |}
          [ AddEnhancer (VFun 1); Include [AddEnhancer (VFun 2)]; AddEnhancer (VFun 3) ] with
  | Ok l =>
      enhancer l
      = Compose (Compose (Compose ApplyMiddleware (Given (VFun 1))) (Given (VFun 2)))
                (Given (VFun 3))
  | Throw _ => False
  end.
Proof.
  destruct (link _ _ _) as [l|e] eqn:E.
  - rewrite (enhancer_call_order _ _ _ l E). reflexivity.
  - vm_compute in E. discriminate E.
Defined.

(** ** The local views after linking *)

Section LocalViews.
Context {State Action World : Type}.
Implicit Types (b : list (directive State Action World)).

(** X7: after a successful [link] the objects behind the [locals] proxies and
    the [pack] targets hold exactly what their owners declared and somebody
    published: a name in the use queue for a target is a property of the
    target as soon as the global scope has it, with the global value (so
    the undefined-dependency test of [inject] has nothing left to catch), and
    a target has no other property. *)
Theorem link_resolves_declared_names env b (frame : linkFrame State Action World) :
  link_frame env b = Ok frame ->
  (forall target name v,
     declared (linker frame) target name -> globalScope (linker frame) !! name = Some v ->
     exists obj, heap (linker frame) !! target = Some obj /\ obj !! name = Some v) /\
  (forall target obj name v,
     heap (linker frame) !! target = Some obj -> obj !! name = Some v ->
     declared (linker frame) target name /\ globalScope (linker frame) !! name = Some v).
Proof.
  intros E.
  destruct (link_frame_linked env b frame E) as ((Hreg & _) & Hs & Hres & _).
  split.
  - intros target name v Hd Hv.
    destruct (Hres target name Hd) as (obj & w & Ho & Hw & Hg); [apply Hreg; eauto|].
    exists obj. split; [exact Ho | congruence].
  - intros target obj name v Ho Hv. destruct (Hs target obj name v Ho Hv). auto.
Qed.

(** A target whose declared names are [names] holds those of them that are
    published, with their global values. *)
Lemma target_content env st target (obj : gmap string value) (names : list string) :
  registry_ok env st -> locals_sound st ->
  (forall t n, declared st t n -> is_Some (typeMap st !! n) -> entry_resolved st t n) ->
  heap st !! target = Some obj ->
  (forall name, declared st target name <-> name ∈ names) ->
  forall name v,
    obj !! name = Some v <-> name ∈ names /\ globalScope st !! name = Some v.
Proof.
  intros (Hreg & _) Hs Hres Hobj Hd name v. split.
  - intros Hv. destruct (Hs _ obj name v Hobj Hv) as [Hgl Hdecl]. split; [|exact Hgl].
    apply Hd, Hdecl.
  - intros [Hn Hgl].
    destruct (Hres _ name (proj2 (Hd name) Hn)) as (obj' & w & Ho & Hw & Hg');
      [apply Hreg; eauto|].
    congruence.
Qed.

Lemma nodes_seal (this : Bundle State Action World) :
  nodes (_seal this) = map _seal (nodes this).
Proof.
  induction this as [this IH] using Bundle_tree_ind.
  destruct this as [l bs e a t v df s z]; simpl in *. f_equal.
  rewrite concat_map, !map_map. f_equal. apply map_ext_in. intros c Hc.
  rewrite Forall_forall in IH. apply IH, Hc.
Qed.

(** X8: the [locals] of each bundle after a successful [link].  Bundle by
    bundle, in the order of the tree: the [locals] of a bundle has a name,
    with the value of the global scope, exactly when a call of the bundle's
    own builder declared the name ([use], a definition, [defineView], or
    [addReducer] with a name) and the name is published.  What only another
    bundle declares, be it the including or an included one, or what nobody
    publishes, is not in it. *)
Theorem bundle_locals_content env b (frame : linkFrame State Action World) :
  link_frame env b = Ok frame ->
  Forall2 (fun n names =>
             exists obj,
               heap (linker frame) !! locals n = Some obj /\
               forall name v,
                 obj !! name = Some v <->
                 name ∈ names /\ globalScope (linker frame) !! name = Some v)
          (nodes (rootBundle frame)) (tree_uses b).
Proof.
  intros E.
  destruct (link_frame_Ok env b frame E)
    as (root1 & st1 & st1' & st2 & st3 & Hrun & _ & _ & _ & E1 & E2 & E3 & _ & Hroot).
  destruct (link_phases_linked env b root1 st1 st2 st3 _ Hrun E1 E2 E3)
    as (Hreg & Hs & Hres & _ & _ & _ & _ & Hu & Hh).
  destruct (run_builder_uses env b _ _ _ _ Hrun) as (Hl & Hg & _ & Huses).
  destruct Huses as (_ & _ & Hown & (news & Hnews & Hf) & _).
  { unfold queue_ok. simpl. constructor. }
  { simpl. lia. }
  simpl in Hl, Hown, Hnews.
  assert (Hall : Forall2 (fun n names =>
                    locals n < length (heap st1) /\
                    forall name, declared st1 (locals n) name <-> name ∈ names)
                   (nodes root1) (tree_uses b)).
  { replace (nodes root1) with (root1 :: subnodes root1) by (destruct root1; reflexivity).
    rewrite Hnews. constructor.
    - split; [pose proof (queue_grows_length _ _ Hg) as Hlen; simpl in Hlen; lia|].
      intros name. rewrite Hl, Hown. split; [|auto].
      intros [(names & Hin & _)|Hn]; [inversion Hin | exact Hn].
    - eapply List.Forall2_impl; [|exact Hf]. intros n names [[_ Hhi] Hd]. auto. }
  rewrite Hroot, nodes_seal. clear -Hall Hreg Hs Hres Hu Hh.
  induction Hall as [|n names ns l [Hlt Hd] _ IH]; simpl; constructor; [|exact IH].
  replace (locals (_seal n)) with (locals n) by (destruct n; reflexivity).
  rewrite <- Hh in Hlt. destruct (lookup_lt_is_Some_2 _ _ Hlt) as [obj Hobj].
  exists obj. split; [exact Hobj|].
  apply (target_content env _ (locals n) obj names Hreg Hs Hres Hobj).
  intros name. rewrite <- Hd. unfold declared. rewrite Hu. reflexivity.
Qed.

(** X9: the targets of the use queue after a successful [link], in the order
    they were made: the [locals] of the root bundle, then one target for each
    [include] (the [locals] of the included bundle, followed by what its
    builder makes) and for each [pack], in the order of the calls.  Each
    target has a name, with the value of the global scope, exactly when the
    name was declared for it and is published: the object [pack] returns
    holds the published ones of the names it was given, and nothing else. *)
Theorem targets_content env b (frame : linkFrame State Action World) :
  link_frame env b = Ok frame ->
  Forall2 (fun (obj : gmap string value) names =>
             forall name v,
               obj !! name = Some v <->
               name ∈ names /\ globalScope (linker frame) !! name = Some v)
          (heap (linker frame)) (targets_uses b).
Proof.
  intros E.
  destruct (link_frame_Ok env b frame E)
    as (root1 & st1 & st1' & st2 & st3 & Hrun & _ & _ & _ & E1 & E2 & E3 & _ & Hroot).
  destruct (link_phases_linked env b root1 st1 st2 st3 _ Hrun E1 E2 E3)
    as (Hreg & Hs & Hres & _ & _ & _ & _ & Hu & Hh).
  destruct (run_builder_uses env b _ _ _ _ Hrun) as (Hl & Hg & Hlen & Huses).
  destruct Huses as (_ & _ & Hown & _ & Halloc).
  { unfold queue_ok. simpl. constructor. }
  { simpl. lia. }
  simpl in Hl, Hown, Hlen, Halloc.
  apply Forall2_same_length_lookup_2.
  - rewrite Hh, Hlen. reflexivity.
  - intros i obj names Hobj Hnames.
    apply (target_content env _ i obj names Hreg Hs Hres Hobj).
    intros name. unfold declared. rewrite Hu. fold (declared st1 i name).
    destruct i as [|i]; simpl in Hnames.
    + injection Hnames as <-. rewrite Hown. split; [|auto].
      intros [(names & Hin & _)|Hn]; [inversion Hin | exact Hn].
    + apply (Halloc i names Hnames name).
Qed.

End LocalViews.

(** The root bundle uses [x] and [y]; an included bundle defines [x]. *)
Lemma link_resolves_declared_names_witness :
  let env := {| hasProxy := true; Object_prototype := ∅ |} in
  let b : list (directive unit unit unit) :=
    [ Use ["x"; "y"]; Include [DefineValue "x" (VNum 1)] ] in
  match link_frame env b with
  | Ok frame =>
      exists obj, heap (linker frame) !! 0 = Some obj /\ obj !! "x" = Some (VNum 1)
  | Throw _ => False
  end.
Proof.
  intros env b.
  destruct (link_frame env b) as [frame|e] eqn:E; [|vm_compute in E; discriminate E].
  apply (proj1 (link_resolves_declared_names env b frame E) 0 "x" (VNum 1)).
  - vm_compute in E. injection E as <-. exists ["x"; "y"]. split; [left | left].
  - vm_compute in E. injection E as <-. reflexivity.
Defined.

(** The root bundle uses [x]; an included bundle defines [x] and [z]. *)
Lemma bundle_locals_content_witness :
  let env := {| hasProxy := true; Object_prototype := ∅ |} in
  let b : list (directive unit unit unit) :=
    [ Use ["x"]; Include [DefineValue "x" (VNum 1); DefineValue "z" (VNum 2)] ] in
  match link_frame env b with
  | Ok frame =>
      exists obj,
        heap (linker frame) !! locals (rootBundle frame) = Some obj /\
        obj !! "x" = Some (VNum 1) /\ obj !! "z" = None
  | Throw _ => False
  end.
Proof.
  intros env b.
  destruct (link_frame env b) as [frame|e] eqn:E; [|vm_compute in E; discriminate E].
  pose proof (bundle_locals_content env b frame E) as H.
  replace (nodes (rootBundle frame))
    with (rootBundle frame :: subnodes (rootBundle frame)) in H
    by (destruct (rootBundle frame); reflexivity).
  inversion H as [|n names ns l (obj & Hobj & Hiff) _]; subst.
  exists obj. split; [exact Hobj|]. split.
  - apply Hiff. split; [left|].
    vm_compute in E. injection E as <-. reflexivity.
  - destruct (obj !! "z") as [v|] eqn:Ez; [|reflexivity].
    apply Hiff in Ez as [Hn _]. exfalso.
    apply list_elem_of_singleton in Hn. discriminate Hn.
Defined.

(** A pack between two included bundles. *)
Lemma targets_content_witness :
  let env := {| hasProxy := true; Object_prototype := ∅ |} in
  let b : list (directive unit unit unit) :=
    [ Include [DefineValue "x" (VNum 1)]; Pack ["x"; "y"];
      Include [DefineValue "z" (VNum 2)] ] in
  match link_frame env b with
  | Ok frame =>
      exists obj, heap (linker frame) !! 2 = Some obj /\
                  obj !! "x" = Some (VNum 1) /\ obj !! "y" = None /\ obj !! "z" = None
  | Throw _ => False
  end.
Proof.
  intros env b.
  destruct (link_frame env b) as [frame|e] eqn:E; [|vm_compute in E; discriminate E].
  pose proof (targets_content env b frame E) as H.
  apply Forall2_same_length_lookup in H as [Hlen H].
  assert (Hlt : 2 < length (heap (linker frame))) by (rewrite Hlen; simpl; lia).
  destruct (lookup_lt_is_Some_2 _ _ Hlt) as [obj Hobj].
  specialize (H 2 obj ["x"; "y"] Hobj eq_refl).
  exists obj. split; [exact Hobj|]. split; [|split].
  - apply H. split; [left|]. vm_compute in E. injection E as <-. reflexivity.
  - destruct (obj !! "y") as [v|] eqn:Ey; [|reflexivity].
    apply H in Ey as [_ Hy]. vm_compute in E. injection E as <-. discriminate Hy.
  - destruct (obj !! "z") as [v|] eqn:Ez; [|reflexivity].
    apply H in Ez as [Hz _]. exfalso.
    apply list.elem_of_cons in Hz as [[=]|Hz]. apply list_elem_of_singleton in Hz.
    discriminate Hz.
Defined.

(** ** Action reducers and the values of their names *)

Section Dispatch.
Context {State Action World : Type} (action_type : Action -> value).
Implicit Types (this : Bundle State Action World) (b : list (directive State Action World))
  (st : Linker).

(** What a bundle reads in its [locals] for a name it declared is what the
    global scope gives for the name. *)
Lemma read_declared_global env st target name v :
  locals_sound st -> registry_ok env st ->
  (forall t n, declared st t n -> is_Some (typeMap st !! n) -> entry_resolved st t n) ->
  declared st target name ->
  makeSafeProxy env (default ∅ (heap st !! target)) undeclaredDependencyError name = Ok v ->
  v = get_property env (globalScope st) name.
Proof.
  intros Hs (Hreg & _) Hres Hd Hread.
  assert (Hv : v = get_property env (default ∅ (heap st !! target)) name).
  { unfold makeSafeProxy in Hread.
    destruct (hasProxy env); [destruct (has_property env _ name); [|discriminate]|];
      congruence. }
  subst v. unfold get_property.
  destruct (default ∅ (heap st !! target) !! name) as [w|] eqn:Ew.
  - destruct (heap st !! target) as [obj|] eqn:Eo; simpl in Ew.
    + destruct (Hs target obj name w Eo Ew) as [Hg _]. rewrite Hg. reflexivity.
    + rewrite lookup_empty in Ew. discriminate.
  - destruct (globalScope st !! name) as [w|] eqn:Eg; [|reflexivity].
    destruct (Hres target name Hd) as (obj & w' & Ho & Hw & _); [apply Hreg; eauto|].
    rewrite Ho in Ew. simpl in Ew. congruence.
Qed.

(** An action map that is built has read every name. *)
Lemma _buildActionMap_reads env st this m m' :
  _buildActionMap env st this m = Ok m' ->
  Forall (fun entry : nat * string * (State -> Action -> State) =>
            exists v, makeSafeProxy env (default ∅ (heap st !! entry.1.1))
                        undeclaredDependencyError entry.1.2 = Ok v)
         (tree_actionReducers this).
Proof.
  revert m m'. induction this as [this IH] using Bundle_tree_ind. intros m m'.
  destruct this as [l bs ea a t v df s z]; simpl in *.
  destruct (foldM (buildActionEntry env st (mkBundle l bs ea a t v df s z)) a m)
    as [m1|e] eqn:Eown; [|discriminate].
  intros Hinc. apply Forall_app. split.
  - revert Eown.
    apply (foldM_rel _ (fun l0 _ _ =>
             Forall (fun entry : nat * string * (State -> Action -> State) =>
                       exists v, makeSafeProxy env (default ∅ (heap st !! entry.1.1))
                                   undeclaredDependencyError entry.1.2 = Ok v)
                    (map (fun entry => (l, fst entry, snd entry)) l0))).
    + intros _. constructor.
    + intros l1 l2 _ _ _ H1 H2. rewrite map_app. apply Forall_app. auto.
    + intros acc [name reducer] acc'. unfold buildActionEntry, read_locals. simpl.
      destruct (makeSafeProxy env (default ∅ (heap st !! l)) undeclaredDependencyError name)
        as [w|e] eqn:E; [|discriminate].
      intros _. constructor; [eauto | constructor].
  - revert Hinc. generalize m1 m'. clear Eown.
    induction bs as [|c bs IHbs]; intros acc acc'; simpl; [constructor|].
    inversion IH as [|? ? Hc Hbs]; subst.
    destruct (_buildActionMap env st c acc) as [acc1|e] eqn:E; [|discriminate].
    intros Hrest. apply Forall_app. split; [eapply Hc, E | eapply IHbs; eassumption].
Qed.

Lemma tree_actionReducers_declared this st :
  nodes_declared this st ->
  Forall (fun entry : nat * string * (State -> Action -> State) =>
            declared st entry.1.1 entry.1.2) (tree_actionReducers this).
Proof.
  induction this as [this IH] using Bundle_tree_ind. intros H.
  apply nodes_declared_unfold in H as [[_ Hown] Hsub].
  destruct this as [l bs e a t v df s z]; simpl in *. apply Forall_app. split.
  - apply Forall_forall. intros entry He. apply in_map_iff in He as (x & <- & Hx).
    simpl. apply Hown, list_elem_of_In, Hx.
  - apply Forall_concat, Forall_map, Forall_forall. intros c Hc.
    rewrite Forall_forall in IH. apply (IH c Hc), Hsub, list_elem_of_In, Hc.
Qed.

Lemma tree_actionReducers_names this :
  map (fun entry : nat * string * (State -> Action -> State) => (entry.1.2, entry.2))
      (tree_actionReducers this)
  = tree_namedReducers this.
Proof.
  induction this as [this IH] using Bundle_tree_ind.
  destruct this as [l bs e a t v df s z]; simpl in *.
  rewrite map_app, map_map. f_equal.
  - simpl. rewrite <- (map_id a) at 2. apply map_ext. intros []; reflexivity.
  - rewrite concat_map, map_map. f_equal. apply map_ext_in. intros c Hc.
    rewrite Forall_forall in IH. apply IH, Hc.
Qed.

Lemma tree_namedReducers_erase this :
  tree_namedReducers (erase this) = tree_namedReducers this.
Proof.
  induction this as [this IH] using Bundle_tree_ind.
  destruct this as [l bs e a t v df s z]; simpl in *. f_equal. f_equal.
  rewrite map_map. apply map_ext_in. intros c Hc.
  rewrite Forall_forall in IH. apply IH, Hc.
Qed.

Lemma chain_for_selected env st actionType
    (l : list (nat * string * (State -> Action -> State))) :
  Forall (fun entry =>
            exists v, makeSafeProxy env (default ∅ (heap st !! entry.1.1))
                        undeclaredDependencyError entry.1.2 = Ok v /\
                      v = get_property env (globalScope st) entry.1.2) l ->
  chain_for env st actionType l
  = selected_reducers env st actionType (map (fun entry => (entry.1.2, entry.2)) l).
Proof.
  induction 1 as [|[[target name] reducer] l (v & Hread & Hv) _ IH]; [reflexivity|].
  unfold chain_for, selected_reducers in *.
  cbn [omap list_omap map]. rewrite <- IH. cbn [fst snd] in *. rewrite Hread, <- Hv.
  reflexivity.
Qed.

(** With [Proxy], a name that is read through a [locals] proxy is a property
    of the global scope. *)
Lemma read_has_property env st target name v :
  locals_sound st -> hasProxy env = true ->
  makeSafeProxy env (default ∅ (heap st !! target)) undeclaredDependencyError name = Ok v ->
  has_property env (globalScope st) name = true.
Proof.
  intros Hs Hproxy Hread. unfold makeSafeProxy in Hread. rewrite Hproxy in Hread.
  destruct (has_property env (default ∅ (heap st !! target)) name) eqn:Hp; [|discriminate].
  apply has_property_true in Hp as [[w Hw]|Hp]; apply has_property_true; [|auto].
  destruct (heap st !! target) as [obj|] eqn:Eo; simpl in Hw.
  - destruct (Hs target obj name w Eo Hw) as [Hg _]. left. eauto.
  - rewrite lookup_empty in Hw. discriminate.
Qed.

(** The names of the action reducers of a linked tree read as the global
    scope gives them. *)
Lemma link_frame_reads env b (frame : linkFrame State Action World) :
  link_frame env b = Ok frame ->
  Forall (fun entry : nat * string * (State -> Action -> State) =>
            exists v, makeSafeProxy env (default ∅ (heap (linker frame) !! entry.1.1))
                        undeclaredDependencyError entry.1.2 = Ok v /\
                      v = get_property env (globalScope (linker frame)) entry.1.2)
         (tree_actionReducers (rootBundle frame)) /\
  tree_namedReducers (rootBundle frame) = tree_namedReducers (builder_tree b).
Proof.
  intros E.
  destruct (link_frame_Ok env b frame E)
    as (root1 & st1 & st1' & st2 & st3 & _ & _ & _ & _ & _ & _ & _ & Ham & Hroot).
  rewrite <- Hroot in Ham.
  destruct (link_frame_linked env b frame E) as (Hreg & Hs & Hres & Hnodes & _).
  pose proof (_buildActionMap_reads env _ _ _ _ Ham) as Hreads.
  pose proof (tree_actionReducers_declared _ _ Hnodes) as Hdecl.
  split.
  - rewrite Forall_forall in *. intros entry He.
    destruct (Hreads entry He) as [v Hv]. exists v. split; [exact Hv|].
    eapply read_declared_global; eauto.
  - rewrite <- (link_frame_tree env b frame E). symmetry. apply tree_namedReducers_erase.
Qed.

(** X10: the dispatch stage of a linked store by the names of the reducers:
    on an action it applies the reducers that [addReducer] was given under a
    name whose value in the global scope is the type of the action (for a
    name defined by [defineAction], the action type it was defined with), in
    the order of the tree, each on the state the previous one returned, and
    no other reducer. *)
Theorem action_reducers_by_value env b (frame : linkFrame State Action World) :
  link_frame env b = Ok frame ->
  forall state action,
    actionReducer action_type (actionMap frame) state action
    = fold_left (fun s (reducer : State -> Action -> State) => reducer s action)
        (selected_reducers env (linker frame) (action_type action)
           (tree_namedReducers (builder_tree b)))
        state.
Proof.
  intros E state action.
  destruct (link_frame_Ok env b frame E)
    as (root1 & st1 & st1' & st2 & st3 & _ & _ & _ & _ & _ & _ & _ & Ham & Hroot).
  rewrite <- Hroot in Ham. apply _buildActionMap_chain in Ham as (Hchain & _ & _).
  destruct (link_frame_reads env b frame E) as [Hreads Hnames].
  transitivity (transition (actionMap_get (actionMap frame) (action_type action)) state action).
  { unfold actionReducer, actionMap_get.
    destruct (actionMap frame !! action_type action) as [[| |f]|]; reflexivity. }
  rewrite Hchain, (chain_for_selected env _ _ _ Hreads), tree_actionReducers_names, Hnames.
  unfold actionMap_get. rewrite lookup_empty. reflexivity.
Qed.

(** X11: when the runtime has [Proxy], [link] succeeds only if every name
    [addReducer] was given is a property of the global scope, published by
    some bundle or inherited: a reducer for a name that nobody defines makes
    [link] fail, where a mere [use] of such a name does not. *)
Theorem reducer_names_published env b (frame : linkFrame State Action World) name reducer :
  link_frame env b = Ok frame -> hasProxy env = true ->
  (name, reducer) ∈ tree_namedReducers (builder_tree b) ->
  has_property env (globalScope (linker frame)) name = true.
Proof.
  intros E Hproxy Hin.
  destruct (link_frame_reads env b frame E) as [Hreads Hnames].
  destruct (link_frame_linked env b frame E) as (_ & Hs & _).
  rewrite <- Hnames, <- tree_actionReducers_names in Hin.
  apply list_elem_of_In, in_map_iff in Hin as ([[target name'] reducer'] & [= -> ->] & Hin).
  rewrite Forall_forall in Hreads. destruct (Hreads _ Hin) as (v & Hread & _).
  apply (read_has_property env _ target name v Hs Hproxy Hread).
Qed.

End Dispatch.

(** Reducers under two names for one action type, and one for another. *)
Lemma action_reducers_by_value_witness :
  let env := {| hasProxy := true; Object_prototype := ∅ |} in
  let b : list (directive Z value unit) :=
    [ DefineAction "inc" "counter/INC"; DefineValue "bump" (VStr "counter/INC");
      DefineAction "reset" "counter/RESET";
      AddReducer "inc" (fun s _ => s + 1)%Z;
      Include [Use ["bump"; "reset"]; AddReducer "reset" (fun _ _ => 0%Z);
               AddReducer "bump" (fun s _ => s * 2)%Z] ] in
  match link_frame env b with
  | Ok frame =>
      actionReducer (fun a : value => a) (actionMap frame) 1%Z (VStr "counter/INC") = 4%Z
  | Throw _ => False
  end.
Proof.
  intros env b.
  destruct (link_frame env b) as [frame|e] eqn:E; [|vm_compute in E; discriminate E].
  rewrite (action_reducers_by_value (fun a : value => a) env b frame E).
  vm_compute in E. injection E as <-. reflexivity.
Defined.

(** A reducer for a defined action. *)
Lemma reducer_names_published_witness :
  let env := {| hasProxy := true; Object_prototype := ∅ |} in
  let r : Z -> value -> Z := fun s _ => (s + 1)%Z in
  let b : list (directive Z value unit) :=
    [ Include [DefineAction "inc" "counter/INC"]; AddReducer "inc" r ] in
  match link_frame env b with
  | Ok frame => has_property env (globalScope (linker frame)) "inc" = true
  | Throw _ => False
  end.
Proof.
  intros env r b.
  destruct (link_frame env b) as [frame|e] eqn:E; [|vm_compute in E; discriminate E].
  apply (reducer_names_published env b frame "inc" r E eq_refl). left.
Defined.

(** ** The store reducer and the outcome of [link] *)

Section Outcome.
Context {State Action World : Type} (action_type : Action -> value).
Implicit Types (b : list (directive State Action World)) (st : Linker).

(** X12: the store reducer of a successful [link] is a function that, for
    any tree of builders, applies the early reducers of the tree depth first
    (a bundle's own, in the order of its calls, before those of the bundles
    it includes), then the dispatch stage, then the late reducers of the tree
    in the reverse of that order, those added last first; the reducers given
    to [addReducer] without a name are late reducers. *)
Theorem store_reducer_pipeline env b frame (l : linked State Action World) :
  link_frame env b = Ok frame -> link action_type env b = Ok l ->
  exists f,
    reducer l = RFun f /\
    forall state action,
      f state action
      = fold_right (fun r s => transition r s action)
          (actionReducer action_type (actionMap frame)
             (fold_left (fun s r => transition r s action)
                        (tree_earlyReducers (builder_tree b)) state)
             action)
          (tree_lateReducers (builder_tree b)).
Proof.
  intros E. unfold link. rewrite E. intros [= <-]. simpl.
  destruct (frame_reducer_stages action_type frame) as (f & Hf & Hstages).
  exists f. split; [exact Hf|]. intros state action.
  rewrite Hstages, _lateReducer_tree, _earlyReducer_tree.
  rewrite <- tree_lateReducers_erase, <- tree_earlyReducers_erase.
  rewrite (link_frame_tree env b frame E). reflexivity.
Qed.

(** With a filter of [link], [injectAll] returns: the queue holds arrays of
    names, and no name makes [inject] fail. *)
Lemma injectAll_returns env filter st :
  link_filter filter -> registry_ok env st -> queue_ok st ->
  exists st', injectAll env filter st = Ok (tt, st').
Proof.
  intros Hf (Hreg & _) Hq. unfold injectAll, bind, gets.
  assert (Htp : types_published st) by (intros name; apply Hreg).
  match goal with |- exists st', forEach ?f ?l st = _ =>
    assert (H : match forEach f l st with
                | Ok (_, st') => only_locals_changed st st'
                | Throw e => False
                end)
  end.
  { apply forEach_invariant; [|apply only_locals_changed_refl].
    intros [locals arg] st1 Hin H1.
    assert (Harr : exists names, arg = UseArray names).
    { unfold queue_ok in Hq. rewrite Forall_forall in Hq.
      apply (Hq (locals, arg)), list_elem_of_In, Hin. }
    destruct Harr as [names ->].
    apply (forEach_invariant _ (fun st' => only_locals_changed st st') (fun _ => False));
      [|exact H1].
    intros name st2 _ H2.
    destruct (inject_link_filter env filter locals name st2 Hf) as (st' & -> & H');
      [eapply types_published_only_locals; eassumption|].
    eapply only_locals_changed_trans; eassumption. }
  match goal with |- exists st', forEach ?f ?l st = _ =>
    destruct (forEach f l st) as [[[] st']|e]; [eauto | contradiction]
  end.
Qed.

(** X13: whatever the calls of the builders, the code of [link] fails only
    with a conflict of action types or of names, with a view that cannot be
    linked (its selector is not a function, or the view is not an object),
    or with a name read from a [locals] that does not have it.  It never
    fails because a bundle is sealed, and the errors of [injectAll] and
    [inject] (invalid use, undefined dependency) are never raised. *)
Theorem link_error_kinds env b e :
  link action_type env b = Throw e -> link_error e.
Proof.
  unfold link. destruct (link_frame env b) as [frame|e'] eqn:E; [discriminate|].
  intros Heq. injection Heq as Heq. subst e'. rewrite link_frame_phases in E.
  destruct (run_builder env b root0 st0) as [[root1 st1]|e1] eqn:Hrun.
  2: { injection E as <-.
       pose proof (run_builder_simulates env b root0 st0 initialLinker eq_refl
                     (conj eq_refl (conj eq_refl eq_refl))) as Hsim.
       pose proof (run_definitions_published env (definitions b) initialLinker) as Hpd.
       destruct (forEach (run_definition env) (definitions b) initialLinker)
         as [[[] st1']|e'].
       - destruct Hsim as (root1 & st1 & Hrun' & _).
         change (run_builder env b root0 st0 = Ok (root1, st1)) in Hrun'. congruence.
       - change (run_builder env b root0 st0 = Throw e') in Hsim.
         assert (e1 = e') as -> by congruence. destruct e'; try contradiction; exact I. }
  destruct (run_root_builder env b root1 st1 Hrun) as (Hreg1 & Hq1 & Hs1 & _).
  destruct (injectAll_returns env _ st1 (or_introl eq_refl) Hreg1 Hq1) as [st2 E1].
  rewrite E1 in E.
  destruct (injectAll_resolves env _ ["action"; "selector"; "value"] st1 st2
              (or_introl (conj eq_refl eq_refl)) Hreg1 Hq1 Hs1 E1)
    as (Ho12 & Hs2 & _).
  pose proof (registry_ok_only_locals env st1 st2 Ho12 Hreg1) as Hreg2.
  destruct Ho12 as (_ & _ & _ & _ & Hu12 & Hh12 & _).
  pose proof (_linkViews_published env (_seal root1) st2) as Hpv.
  destruct (_linkViews env (_seal root1) st2) as [[[] st3]|e3] eqn:E2.
  2: { injection E as ->. destruct e; try contradiction; exact I. }
  destruct (_linkViews_linked env (_seal root1) st2 st3 Hs2 Hreg2 E2)
    as ((Hs3 & Hreg3) & (_ & _ & _ & Hh23 & Hu23 & _) & _).
  assert (Hq3 : queue_ok st3).
  { apply (queue_ok_same st1); [congruence | rewrite Hh23; exact Hh12 | exact Hq1]. }
  destruct (injectAll_returns env _ st3 (or_intror eq_refl) Hreg3 Hq3) as [st4 E3].
  rewrite E3 in E.
  pose proof (_buildActionMap_error env st4 (_seal root1) ∅) as Ham.
  destruct (_buildActionMap env st4 (_seal root1) ∅) as [am|e5]; [discriminate|].
  injection E as <-. destruct Ham as [s ->]. exact I.
Qed.

End Outcome.

(** Early reducers [+1] then [*10] around an included bundle, a dispatch
    stage with no reducer, late reducers [*2] after [-3]. *)
Lemma store_reducer_pipeline_witness :
  let env := {| hasProxy := true; Object_prototype := ∅ |} in
  let b : list (directive Z value unit) :=
    [ AddEarlyReducer (RFun (fun s _ => s + 1)%Z);
      Include [AddEarlyReducer (RFun (fun s _ => s * 10)%Z);
               AddReducer1 (RFun (fun s _ => s - 3)%Z)];
      AddLateReducer (RFun (fun s _ => s * 2)%Z) ] in
  match link_frame env b, link (fun a : value => a) env b with
  | Ok frame, Ok l => transition (reducer l) 1%Z VNull = 34%Z
  | _, _ => False
  end.
Proof.
  intros env b.
  destruct (link_frame env b) as [frame|e] eqn:E; [|vm_compute in E; discriminate E].
  destruct (link (fun a : value => a) env b) as [l|e] eqn:El;
    [|vm_compute in El; discriminate El].
  destruct (store_reducer_pipeline (fun a : value => a) env b frame l E El) as (f & -> & Hf).
  simpl. rewrite Hf. vm_compute in E. injection E as <-. reflexivity.
Defined.

(** Two bundles define one name. *)
Lemma link_error_kinds_witness :
  link (State := unit) (Action := unit) (World := unit) (fun _ => VUndefined)
       {| hasProxy := true; Object_prototype := ∅ |}
       [ Include [DefineValue "x" (VNum 1)]; Include [DefineValue "x" (VNum 2)] ]
  = Throw (LinkerConflict "x") /\
  link_error (LinkerConflict "x").
Proof.
  assert (H : link (State := unit) (Action := unit) (World := unit) (fun _ => VUndefined)
                {| hasProxy := true; Object_prototype := ∅ |}
                [ Include [DefineValue "x" (VNum 1)]; Include [DefineValue "x" (VNum 2)] ]
              = Throw (LinkerConflict "x")) by reflexivity.
  split; [exact H | exact (link_error_kinds _ _ _ _ H)].
Defined.

(** Each of the five kinds of error is raised by some builder. *)
Example link_errors_reachable :
  let env := {| hasProxy := true; Object_prototype := ∅ |} in
  let link' := link (State := unit) (Action := unit) (World := unit) (fun _ => VUndefined) env in
  link' [DefineAction "a" "T"; DefineAction "b" "T"] = Throw (ActionTypeConflict "T") /\
  link' [DefineValue "x" (VNum 1); DefineSelector "x" (VFun 1)] = Throw (LinkerConflict "x") /\
  link' [DefineView "App" VUndefined (VNum 1)] = Throw TypeError /\
  link' [DefineView "App" (VNum 1) (VFun 1)] = Throw InvalidSelector /\
  link' [AddReducer "inc" (fun s _ => s)] = Throw (UndeclaredDependency "inc").
Proof. repeat split. Qed.

(** Deferred callbacks around an included bundle with one callback. *)
Lemma finalize_calls_defers_witness :
  let log : nat -> callback (list nat) := fun k _ w => w ++ [k] in
  match link (State := unit) (Action := unit) (fun _ => VUndefined)
          {| hasProxy := true; Object_prototype := ∅ |}
          [ Defer (log 1); Include [Defer (log 2)]; Defer (log 3) ] with
  | Ok l => finalize l [VNum 7] [] = [1; 3; 2]
  | Throw _ => False
  end.
Proof.
  intros log.
  destruct (link _ _ _) as [l|e] eqn:E.
  - rewrite (finalize_calls_defers _ _ _ l [VNum 7] [] E). reflexivity.
  - vm_compute in E. discriminate E.
Defined.

(** ** When linking succeeds *)

Section Success.
Context {State Action World : Type} (action_type : Action -> value).
Implicit Types (this : Bundle State Action World) (b : list (directive State Action World))
  (st : Linker).

Lemma tree_viewNames_views this : tree_viewNames this = map view_name (tree_views this).
Proof.
  induction this as [this IH] using Bundle_tree_ind.
  destruct this as [l bs e a t v df s z]; simpl in *.
  rewrite map_app, concat_map, map_map. f_equal. f_equal.
  apply map_ext_in. intros c Hc. rewrite Forall_forall in IH. apply IH, Hc.
Qed.

(** A tree without views: view linking does nothing. *)
Lemma _linkViews_none env this st :
  tree_views this = [] -> _linkViews env this st = Ok (tt, st).
Proof.
  revert st. induction this as [this IH] using Bundle_tree_ind. intros st.
  destruct this as [l bs e a t v df s z]; simpl in *.
  intros H. apply app_eq_nil in H as [-> H]. simpl. unfold bind, ret.
  induction bs as [|c bs IHbs]; simpl; [reflexivity|].
  simpl in H. apply app_eq_nil in H as [Hc H].
  inversion IH as [|? ? IHc IH']; subst.
  unfold bind. rewrite (IHc st Hc). apply IHbs; assumption.
Qed.

(** The action map is built when every name can be read. *)
Lemma _buildActionMap_returns env st this :
  Forall (fun entry : nat * string * (State -> Action -> State) =>
            exists v, makeSafeProxy env (default ∅ (heap st !! entry.1.1))
                        undeclaredDependencyError entry.1.2 = Ok v)
         (tree_actionReducers this) ->
  forall m, exists m', _buildActionMap env st this m = Ok m'.
Proof.
  induction this as [this IH] using Bundle_tree_ind.
  destruct this as [l bs e a t v df s z]; simpl in *.
  intros H m. apply Forall_app in H as [Hown Hsub].
  assert (Hfold : forall m, exists m1,
            foldM (buildActionEntry env st (mkBundle l bs e a t v df s z)) a m = Ok m1).
  { clear -Hown. induction a as [|[name reducer] a IHa]; intros m; simpl; [eauto|].
    inversion Hown as [|? ? [w Hw] Ha]; subst. simpl in Hw.
    unfold read_locals. simpl. rewrite Hw. apply IHa, Ha. }
  destruct (Hfold m) as [m1 ->]. clear Hfold Hown. revert m1.
  induction bs as [|c bs IHbs]; intros m1; simpl; [eauto|].
  simpl in Hsub. apply Forall_app in Hsub as [Hc Hsub].
  inversion IH as [|? ? IHc IH']; subst.
  destruct (IHc Hc m1) as [m2 ->]. apply IHbs; assumption.
Qed.

(** X14: for builders that define no view, when the linking of [link]
    succeeds (the store and the saga effects are made by redux and
    redux-saga, outside the linker): exactly when the definitions of the
    tree do not clash (their names are pairwise distinct and none is
    inherited by the global scope object, and the action types are pairwise
    distinct) and, if the runtime has [Proxy], every name given to
    [addReducer] is defined in the tree or inherited. *)
Theorem viewless_link_succeeds env b :
  tree_views (builder_tree b) = [] ->
  (exists l, link action_type env b = Ok l) <->
  conflict_free env (definitions b) /\
  (hasProxy env = true ->
   forall name reducer, (name, reducer) ∈ tree_namedReducers (builder_tree b) ->
     name ∈ map def_name (definitions b) \/ is_Some (Object_prototype env !! name)).
Proof.
  intros Hviews. split.
  - intros [l Hl]. unfold link in Hl.
    destruct (link_frame env b) as [frame|e] eqn:E; [clear Hl|discriminate].
    destruct (link_frame_Ok env b frame E)
      as (root1 & st1 & st1' & st2 & st3 & _ & Hdefs & _).
    pose proof (run_definitions_published env (definitions b) initialLinker) as Hpd.
    rewrite Hdefs in Hpd. destruct Hpd as (Hnd & Hfresh & _).
    destruct (run_definitions_action_types env _ _ _ Hdefs) as (Hat & _).
    split; [split; [exact Hnd|split; [exact Hat|]]|].
    + apply Forall_forall. intros d Hd.
      apply (has_property_false env (globalScope initialLinker) (def_name d)), Hfresh.
      apply list_elem_of_In, in_map, Hd.
    + intros Hproxy name reducer Hin.
      destruct (link_frame_reads env b frame E) as [Hreads Hnames].
      destruct (link_frame_linked env b frame E) as (_ & Hs & _).
      rewrite <- Hnames, <- tree_actionReducers_names in Hin.
      apply list_elem_of_In, in_map_iff in Hin as ([[target name'] reducer'] & [= -> ->] & Hin).
      rewrite Forall_forall in Hreads. destruct (Hreads _ Hin) as (v & Hread & _).
      pose proof (read_has_property env _ target name v Hs Hproxy Hread) as Hp.
      apply has_property_true in Hp as [Hown|Hp]; [left | right; exact Hp].
      apply (link_frame_published env b frame E) in Hown.
      unfold published_names in Hown.
      rewrite tree_viewNames_views, Hviews, app_nil_r in Hown. exact Hown.
  - intros [Hfree Hnamed].
    destruct (conflict_free_accepted env (definitions b) Hfree) as (st1' & Hdefs & _).
    pose proof (run_builder_simulates env b root0 st0 initialLinker eq_refl
                  (conj eq_refl (conj eq_refl eq_refl))) as Hsim.
    rewrite Hdefs in Hsim.
    destruct Hsim as (root1 & st1 & Hrun & _ & _ & Herase & _).
    change (run_builder env b root0 st0 = Ok (root1, st1)) in Hrun.
    change (erase root1 = builder_tree b) in Herase.
    destruct (run_root_builder env b root1 st1 Hrun) as (Hreg1 & Hq1 & Hs1 & _).
    destruct (injectAll_returns env _ st1 (or_introl eq_refl) Hreg1 Hq1) as [st2 E1].
    destruct (injectAll_resolves env _ ["action"; "selector"; "value"] st1 st2
                (or_introl (conj eq_refl eq_refl)) Hreg1 Hq1 Hs1 E1) as (Ho12 & _).
    pose proof (registry_ok_only_locals env st1 st2 Ho12 Hreg1) as Hreg2.
    destruct Ho12 as (_ & _ & _ & _ & Hu12 & Hh12 & _).
    assert (Hnone : tree_views (_seal root1) = []).
    { rewrite <- tree_views_erase, erase_seal, Herase. exact Hviews. }
    pose proof (_linkViews_none env (_seal root1) st2 Hnone) as E2.
    destruct (injectAll_returns env _ st2 (or_intror eq_refl) Hreg2
                (queue_ok_same st1 st2 Hu12 Hh12 Hq1)) as [st4 E3].
    destruct (link_phases_linked env b root1 st1 st2 st2 st4 Hrun E1 E2 E3)
      as ((Hreg4 & _) & Hs4 & Hres4 & Hnodes4 & _ & Hvals4 & _).
    assert (Hreads : Forall (fun entry : nat * string * (State -> Action -> State) =>
                exists v, makeSafeProxy env (default ∅ (heap st4 !! entry.1.1))
                            undeclaredDependencyError entry.1.2 = Ok v)
             (tree_actionReducers (_seal root1))).
    { pose proof (tree_actionReducers_declared _ _ Hnodes4) as Hdecl.
      rewrite Forall_forall in *. intros [[target name] reducer] Hin. simpl.
      destruct (hasProxy env) eqn:Hproxy;
        [|unfold makeSafeProxy; rewrite Hproxy; eauto].
      assert (Hin' : (name, reducer) ∈ tree_namedReducers (builder_tree b)).
      { rewrite <- Herase, <- (erase_seal root1), tree_namedReducers_erase,
          <- tree_actionReducers_names.
        apply list_elem_of_In, in_map_iff. exists (target, name, reducer). auto. }
      destruct (Hnamed eq_refl name reducer Hin') as [Hdef|Hp].
      - apply list_elem_of_In, in_map_iff in Hdef as (d & <- & Hd).
        apply list_elem_of_In in Hd. specialize (Hvals4 d Hd).
        destruct (Hres4 target (def_name d) (Hdecl _ Hin)) as (obj & w & Ho & Hw & _);
          [apply Hreg4; eauto|].
        exists w. rewrite Ho. simpl.
        apply (makeSafeProxy_own env obj undeclaredDependencyError _ w Hw).
      - unfold makeSafeProxy. rewrite Hproxy.
        assert (Hhas : has_property env (default ∅ (heap st4 !! target)) name = true)
          by (apply has_property_true; auto).
        rewrite Hhas. eauto. }
    destruct (_buildActionMap_returns env st4 (_seal root1) Hreads ∅) as [am Eam].
    assert (Hframe : link_frame env b = Ok (mkFrame (_seal root1) st4 am)).
    { rewrite link_frame_phases, Hrun, E1, E2, E3, Eam. reflexivity. }
    unfold link. rewrite Hframe. eauto.
Qed.

End Success.

(** A tree of three bundles without views. *)
Lemma viewless_link_succeeds_witness :
  let env := {| hasProxy := true; Object_prototype := {[ "toString" := VFun 0 ]} |} in
  let b : list (directive Z value unit) :=
    [ Include [DefineAction "inc" "counter/INC"; DefineSelector "getCount" (VFun 1)];
      Include [Use ["getCount"]; AddReducer "inc" (fun s _ => s + 1)%Z];
      AddSaga (VFun 2) ] in
  exists l, link (fun a : value => a) env b = Ok l.
Proof.
  intros env b.
  apply (viewless_link_succeeds (fun a : value => a) env b eq_refl).
  split; [split; [|split]|].
  - simpl. apply list.NoDup_cons. split; [|apply NoDup_singleton].
    intros H. apply list_elem_of_singleton in H. discriminate H.
  - simpl. apply NoDup_singleton.
  - repeat constructor.
  - intros _ name reducer Hin. left.
    apply list.elem_of_cons in Hin as [[= -> _]|Hin]; [left | inversion Hin].
Defined.

(** ** Linking without [Proxy] *)

Section WithoutProxy.
Context {State Action World : Type} (action_type : Action -> value).
Implicit Types (this : Bundle State Action World) (d : directive State Action World)
  (b : list (directive State Action World)) (st : Linker).

Lemma run_calls_ext {D} (f g : D -> Bundle State Action World -> M (Bundle State Action World))
    (l : list D) :
  Forall (fun x => forall this st, f x this st = g x this st) l ->
  forall this st, run_calls f l this st = run_calls g l this st.
Proof.
  induction 1 as [|x l Hx _ IH]; intros this st; simpl; [reflexivity|].
  unfold bind. rewrite Hx. destruct (g x this st) as [[this' st']|e]; [apply IH | reflexivity].
Qed.

(** The calls of the builders do not depend on [Proxy]. *)
Lemma run_builder_bare env b this st :
  run_builder (withoutProxy env) b this st = run_builder env b this st.
Proof.
  assert (Hall : forall d this st,
            run_directive (withoutProxy env) d this st = run_directive env d this st).
  { induction d as [c IH|d Hd] using directive_nested_ind; intros this0 st0.
    - rewrite !run_directive_Include. unfold drop_result, include, bind.
      destruct (_assertNotSealed this0 st0) as [[[] st1]|e]; [|reflexivity].
      destruct (newBundle st1) as [[bundle st2]|e]; [|reflexivity].
      unfold run_builder. rewrite (run_calls_ext _ _ c IH). reflexivity.
    - destruct d; try discriminate Hd; reflexivity. }
  unfold run_builder. apply run_calls_ext, Forall_forall. intros d _. apply Hall.
Qed.

Lemma forEach_returns {A} (f g : A -> M unit) (l : list A) :
  (forall x st st', x ∈ l -> f x st = Ok (tt, st') -> g x st = Ok (tt, st')) ->
  forall st st', forEach f l st = Ok (tt, st') -> forEach g l st = Ok (tt, st').
Proof.
  induction l as [|x l IH]; intros H st st'; simpl; [auto|].
  unfold bind. destruct (f x st) as [[[] st1]|e] eqn:E; [|discriminate].
  rewrite (H x st st1 (list_elem_of_here _ _) E).
  apply IH. intros y s s' Hy. apply H. right. exact Hy.
Qed.

(** A read that [Proxy] lets through is the read of the bare object. *)
Lemma makeSafeProxy_bare env (obj : gmap string value) onError property v :
  makeSafeProxy env obj onError property = Ok v ->
  makeSafeProxy (withoutProxy env) obj onError property = Ok v.
Proof.
  unfold makeSafeProxy. simpl.
  destruct (hasProxy env); [|auto].
  destruct (has_property env obj property); [auto | discriminate].
Qed.

Lemma linkView_bare env this descriptor st st' :
  linkView env this descriptor st = Ok (tt, st') ->
  linkView (withoutProxy env) this descriptor st = Ok (tt, st').
Proof.
  destruct descriptor as [name view selector]. unfold linkView, bind.
  destruct (decide (selector = VUndefined)) as [->|Hne]; [auto|].
  destruct selector; try (intros H; exact H).
  unfold read_locals.
  destruct (makeSafeProxy env (default ∅ (heap st !! locals this))
              undeclaredDependencyError s) as [v|e] eqn:E; [|discriminate].
  rewrite (makeSafeProxy_bare env _ _ _ v E). auto.
Qed.

Lemma _linkViews_bare env this st st' :
  _linkViews env this st = Ok (tt, st') -> _linkViews (withoutProxy env) this st = Ok (tt, st').
Proof.
  revert st st'. induction this as [this IH] using Bundle_tree_ind. intros st st'.
  destruct this as [l bs e a t v df s z]; simpl in *. unfold bind.
  destruct (forEach (linkView env (mkBundle l bs e a t v df s z)) v st)
    as [[[] st1]|err] eqn:E1; [|discriminate].
  rewrite (forEach_returns _ (linkView (withoutProxy env) (mkBundle l bs e a t v df s z)) v
             (fun x s1 s2 _ => linkView_bare env _ x s1 s2) st st1 E1).
  apply forEach_returns. intros c s1 s2 Hc. rewrite Forall_forall in IH.
  apply IH, list_elem_of_In, Hc.
Qed.

Lemma foldM_returns {A B} (f g : B -> A -> result B) (l : list A) :
  (forall acc x acc', x ∈ l -> f acc x = Ok acc' -> g acc x = Ok acc') ->
  forall acc acc', foldM f l acc = Ok acc' -> foldM g l acc = Ok acc'.
Proof.
  induction l as [|x l IH]; intros H acc acc'; simpl; [auto|].
  destruct (f acc x) as [acc1|e] eqn:E; [|discriminate].
  rewrite (H acc x acc1 (list_elem_of_here _ _) E).
  apply IH. intros a y a' Hy. apply H. right. exact Hy.
Qed.

Lemma _buildActionMap_bare env st this m m' :
  _buildActionMap env st this m = Ok m' -> _buildActionMap (withoutProxy env) st this m = Ok m'.
Proof.
  revert m m'. induction this as [this IH] using Bundle_tree_ind. intros m m'.
  destruct this as [l bs e a t v df s z]; simpl in *.
  destruct (foldM (buildActionEntry env st (mkBundle l bs e a t v df s z)) a m)
    as [m1|err] eqn:E1; [|discriminate].
  assert (Hown : foldM (buildActionEntry (withoutProxy env) st (mkBundle l bs e a t v df s z)) a m
                 = Ok m1).
  { revert E1. apply foldM_returns.
    intros acc [name reducer] acc' _. unfold buildActionEntry, read_locals. cbn [locals].
    destruct (makeSafeProxy env (default ∅ (heap st !! l)) undeclaredDependencyError name)
      as [w|err] eqn:E; [|discriminate].
    rewrite (makeSafeProxy_bare env _ _ _ w E). auto. }
  rewrite Hown. apply foldM_returns. intros acc c acc' Hc. rewrite Forall_forall in IH.
  apply IH, list_elem_of_In, Hc.
Qed.

(** X15: [Proxy] only adds errors.  Builders that link in a runtime link all
    the same in that runtime without [Proxy]: same bundle tree, same global
    scope, same local views, same action map, hence the same reducer,
    enhancer, deferred callbacks and root saga; and what the scope gave for a
    name, it still gives. *)
Theorem proxy_only_adds_errors env b (frame : linkFrame State Action World) :
  link_frame env b = Ok frame ->
  link_frame (withoutProxy env) b = Ok frame /\
  forall l, link action_type env b = Ok l ->
    exists l', link action_type (withoutProxy env) b = Ok l' /\
               reducer l' = reducer l /\ enhancer l' = enhancer l /\
               finalize l' = finalize l /\ rootSaga l' = rootSaga l /\
               forall name v, scope l name = Ok v -> scope l' name = Ok v.
Proof.
  intros E.
  assert (E' : link_frame (withoutProxy env) b = Ok frame).
  { destruct (link_frame_Ok env b frame E)
      as (root1 & st1 & st1' & st2 & st3 & Hrun & _ & _ & _ & E1 & E2 & E3 & Eam & Hroot).
    rewrite link_frame_phases, run_builder_bare, Hrun.
    change (injectAll (withoutProxy env)) with (injectAll env). rewrite E1.
    rewrite (_linkViews_bare env _ _ _ E2), E3, (_buildActionMap_bare env _ _ _ _ Eam).
    destruct frame as [r s m]. simpl in *. subst r. reflexivity. }
  split; [exact E'|]. unfold link. rewrite E, E'. intros l [= <-].
  eexists. split; [reflexivity|]. simpl. repeat split.
  intros name v. apply makeSafeProxy_bare.
Qed.

End WithoutProxy.

(** An application with a connected view and a reducer, and one that links
    without [Proxy] only. *)
Lemma proxy_only_adds_errors_witness :
  let env := {| hasProxy := true; Object_prototype := ∅ |} in
  let b : list (directive Z value unit) :=
    [ DefineAction "inc" "counter/INC"; DefineSelector "getCount" (VFun 1);
      Include [Use ["getCount"]; DefineView "Counter" (VStr "getCount") (VFun 2);
               AddReducer "inc" (fun s _ => s + 1)%Z] ] in
  (exists frame,
     link_frame {| hasProxy := false; Object_prototype := ∅ |} b = Ok frame) /\
  (exists frame,
     link_frame (State := Z) (Action := value) (World := unit)
       {| hasProxy := false; Object_prototype := ∅ |}
       [AddReducer "inc" (fun s _ => s + 1)%Z] = Ok frame) /\
  link_frame (State := Z) (Action := value) (World := unit) env
    [AddReducer "inc" (fun s _ => s + 1)%Z] = Throw (UndeclaredDependency "inc").
Proof.
  intros env b. split; [|split].
  - destruct (link_frame env b) as [frame|e] eqn:E; [|vm_compute in E; discriminate E].
    exists frame. exact (proj1 (proxy_only_adds_errors (fun a : value => a) env b frame E)).
  - eexists. reflexivity.
  - reflexivity.
Defined.

(** ** Lookups while the builders run *)

Section BuildTimeLookup.
Context {State Action World : Type}.
Implicit Types (this : Bundle State Action World) (b : list (directive State Action World))
  (st : Linker).

(** X16: what [lookup] gives a builder.  At the point where the root builder
    has made the calls [pre] (with all that the builders they include did),
    [lookup (name)] returns the value of the definition of [name] when one
    was made before that point, anywhere in the tree; for any other name it
    returns what the global scope object inherits for it, or [undefined].
    Views are linked after the builders have run, so that no [lookup] of a
    builder sees a view. *)
Theorem lookup_sees_earlier_definitions env pre this st :
  (root <- newBundle ;; run_builder env pre root) initialLinker = Ok (this, st) ->
  (forall d, d ∈ definitions pre ->
     Bundle_lookup env (def_name d) this st = Ok (def_value d, this, st)) /\
  (forall name, name ∉ map def_name (definitions pre) ->
     Bundle_lookup env name this st
     = Ok (default VUndefined (Object_prototype env !! name), this, st)).
Proof.
  intros Hrun. change (run_builder env pre root0 st0 = Ok (this, st)) in Hrun.
  destruct (run_root_builder env pre this st Hrun) as (_ & _ & _ & _ & _ & _ & Hvals).
  assert (Hdom : forall name, is_Some (globalScope st !! name) ->
                                name ∈ map def_name (definitions pre)).
  { pose proof (run_builder_simulates env pre root0 st0 initialLinker eq_refl
                  (conj eq_refl (conj eq_refl eq_refl))) as Hsim.
    pose proof (run_definitions_published env (definitions pre) initialLinker) as Hpd.
    destruct (forEach (run_definition env) (definitions pre) initialLinker)
      as [[[] st1']|e].
    2: { change (run_builder env pre root0 st0 = Throw e) in Hsim. congruence. }
    destruct Hsim as (this' & st' & Hrun' & _ & _ & _ & (Hg & _) & _).
    change (run_builder env pre root0 st0 = Ok (this', st')) in Hrun'.
    rewrite Hrun in Hrun'. injection Hrun' as <- <-.
    destruct Hpd as (_ & _ & Hd & _). intros name Hn. rewrite Hg in Hn.
    apply Hd in Hn as [[? Hn]|Hn]; [|exact Hn].
    simpl in Hn. rewrite lookup_empty in Hn. discriminate. }
  unfold Bundle_lookup, lookup, bind, gets, ret, get_property. split.
  - intros d Hd. rewrite (Hvals d Hd). reflexivity.
  - intros name Hn. destruct (globalScope st !! name) as [v|] eqn:E; [|reflexivity].
    exfalso. apply Hn, Hdom. eauto.
Qed.

End BuildTimeLookup.

(** A lookup between two definitions, in a tree with a view. *)
Lemma lookup_sees_earlier_definitions_witness :
  let env := {| hasProxy := true; Object_prototype := ∅ |} in
  let pre : list (directive unit unit unit) :=
    [ Include [DefineValue "x" (VNum 1)]; DefineView "App" VUndefined (VFun 1) ] in
  match (root <- newBundle ;; run_builder env pre root) initialLinker with
  | Ok (this, st) =>
      Bundle_lookup env "x" this st = Ok (VNum 1, this, st) /\
      Bundle_lookup env "App" this st = Ok (VUndefined, this, st) /\
      Bundle_lookup env "y" this st = Ok (VUndefined, this, st)
  | Throw _ => False
  end.
Proof.
  intros env pre.
  destruct ((root <- newBundle ;; run_builder env pre root) initialLinker)
    as [[this st]|e] eqn:E; [|vm_compute in E; discriminate E].
  destruct (lookup_sees_earlier_definitions env pre this st E) as [Hdef Hother].
  split; [|split].
  - apply (Hdef (Published "value" "x" (VNum 1))). left.
  - apply Hother. intros H. apply list_elem_of_singleton in H. discriminate H.
  - apply Hother. intros H. apply list_elem_of_singleton in H. discriminate H.
Defined.

(** ** When views can be linked *)

Section ViewLinking.
Context {State Action World : Type}.
Implicit Types (this : Bundle State Action World) (b : list (directive State Action World))
  (st : Linker) (h : list (gmap string value)) (ds : list viewDescriptor).

Lemma labels_kept_refl ds st : labels_kept ds st st.
Proof.
  split; [reflexivity|]. split; [reflexivity|]. split; [|auto].
  exists []. symmetry. apply app_nil_r.
Qed.

Lemma labels_kept_trans ds st1 st2 st3 :
  labels_kept ds st1 st2 -> labels_kept ds st2 st3 -> labels_kept ds st1 st3.
Proof.
  intros (Hg1 & Hh1 & [c1 Hc1] & Hl1) (Hg2 & Hh2 & [c2 Hc2] & Hl2).
  split; [etransitivity; eassumption|]. split; [congruence|]. split.
  - exists (c1 ++ c2). rewrite Hc2, Hc1, app_assoc. reflexivity.
  - intros k Hk Hng. rewrite Hl2; [apply Hl1; assumption | | exact Hng].
    rewrite Hc1, length_app. lia.
Qed.

Lemma selector_linked_stable env h ds this st st' descriptor :
  labels_kept ds st st' ->
  selector_linked env h ds this st descriptor -> selector_linked env h ds this st' descriptor.
Proof.
  intros (Hg & _ & [c Hc] & Hl) H. destruct descriptor as [name view selector].
  intros s Hs. destruct (H s Hs) as (sel & k & Hread & Hfun & Hname & Hk & Hlabel).
  exists sel, k. split; [exact Hread|]. split; [exact Hfun|].
  split; [eapply lookup_weaken; eassumption|].
  split; [rewrite Hc; apply lookup_app_l_Some; exact Hk|].
  intros Hng. rewrite Hl; [apply Hlabel, Hng | | exact Hng].
  apply lookup_lt_Some in Hk. exact Hk.
Qed.

(** One view that is linked was ready, and is linked as its selector says. *)
Lemma linkView_selector env ds this descriptor st st' :
  descriptor ∈ ds ->
  linkView env this descriptor st = Ok (tt, st') ->
  labels_kept ds st st' /\
  view_ready env (heap st) this descriptor /\
  selector_linked env (heap st) ds this st' descriptor.
Proof.
  intros Hin Hrun. destruct descriptor as [name view selector].
  pose proof (linkView_spec env this name view selector st) as H.
  rewrite Hrun in H.
  destruct H as (v' & Hp & Hg & _ & _ & _ & _ & Hh & Hd & Hsel).
  apply has_property_false in Hp as [Hown _].
  assert (Hkept : labels_kept ds st st').
  { split; [rewrite Hg; apply insert_subseteq, Hown|]. split; [exact Hh|]. split.
    - destruct (decide (selector = VUndefined)).
      + exists []. rewrite app_nil_r. apply Hsel.
      + destruct Hsel as (_ & sel & Hc & _). eexists. exact Hc.
    - intros k Hk Hng. rewrite Hd. apply lookup_insert_ne.
      destruct (decide (selector = VUndefined)) as [->|Hne].
      + destruct Hsel as [-> _]. intros ->. exact (Hng name Hin).
      + destruct Hsel as (-> & _). intros [= <-]. lia. }
  split; [exact Hkept|]. split.
  - destruct (decide (selector = VUndefined)) as [->|Hne].
    + simpl. unfold linkView in Hrun. simpl in Hrun.
      unfold bind, ret, set_displayName, throw in Hrun.
      destruct view; simpl in Hrun; try discriminate Hrun; exact I.
    + destruct Hsel as (_ & sel & _ & Hfun & Hread).
      destruct selector; simpl; try contradiction; try (subst sel; exact Hfun).
      exists sel. auto.
  - intros s ->. destruct (decide (VStr s = VUndefined)) as [Heq|_]; [discriminate Heq|].
    destruct Hsel as (-> & sel & Hc & Hfun & Hread).
    exists sel, (length (connected st)). split; [exact Hread|]. split; [exact Hfun|].
    split; [rewrite Hg; apply lookup_insert_eq|].
    split; [rewrite Hc; apply list_lookup_middle; reflexivity|].
    intros _. rewrite Hd. apply lookup_insert_eq.
Qed.

(** The views of a tree that is linked: every view was ready in its bundle,
    and every view with a selector name is linked as the name reads in the
    [locals] of its bundle. *)
Lemma _linkViews_selectors env ds h this st st' :
  (forall d, d ∈ tree_views this -> d ∈ ds) -> heap st = h ->
  _linkViews env this st = Ok (tt, st') ->
  labels_kept ds st st' /\
  forall n, n ∈ nodes this -> forall d, d ∈ views n ->
    view_ready env h n d /\ selector_linked env h ds n st' d.
Proof.
  revert st st'. induction this as [this IH] using Bundle_tree_ind. intros st st' Hds Hh.
  destruct this as [l bs e a t v df s z]; simpl in *.
  unfold bind.
  destruct (forEach (linkView env (mkBundle l bs e a t v df s z)) v st) as [[[] st1]|err] eqn:E1;
    [|discriminate].
  intros E2.
  destruct (forEach_each (linkView env (mkBundle l bs e a t v df s z))
              (fun st => heap st = h) (labels_kept ds)
              (fun d st => view_ready env h (mkBundle l bs e a t v df s z) d /\
                           selector_linked env h ds (mkBundle l bs e a t v df s z) st d) v)
    with st st1 as (Hh1 & HR1 & HQ1); auto.
  { apply labels_kept_refl. }
  { apply labels_kept_trans. }
  { intros d s1 s2 HR [Hready HQ]. split; [exact Hready|].
    eapply selector_linked_stable; eassumption. }
  { intros d s1 s2 Hd Hs1 Hstep.
    destruct (linkView_selector env ds (mkBundle l bs e a t v df s z) d s1 s2)
      as (Hk & Hready & Hl); [|exact Hstep|].
    - apply Hds, list.elem_of_app. left. exact Hd.
    - rewrite Hs1 in Hready, Hl. destruct Hk as (Hk1 & Hk2 & Hk3).
      split; [congruence|]. split; [split; [exact Hk1|split; [exact Hk2|exact Hk3]]|]. auto. }
  destruct (forEach_each (_linkViews env) (fun st => heap st = h) (labels_kept ds)
              (fun bundle st => forall n, n ∈ nodes bundle -> forall d, d ∈ views n ->
                 view_ready env h n d /\ selector_linked env h ds n st d) bs)
    with st1 st' as (Hh2 & HR2 & HQ2); auto.
  { apply labels_kept_refl. }
  { apply labels_kept_trans. }
  { intros bundle s1 s2 HR HQ n Hn d Hd. destruct (HQ n Hn d Hd) as [Hready Hl].
    split; [exact Hready|]. eapply selector_linked_stable; eassumption. }
  { intros bundle s1 s2 Hb Hs1 Hstep. rewrite Forall_forall in IH.
    destruct (IH bundle (proj1 (list_elem_of_In _ _) Hb) s1 s2) as [Hk HQ]; auto.
    - intros d Hd. apply Hds, list.elem_of_app. right.
      apply list_elem_of_In, in_concat. exists (tree_views bundle).
      split; [apply in_map, list_elem_of_In, Hb | apply list_elem_of_In, Hd].
    - split; [|split; [exact Hk | exact HQ]]. destruct Hk as (_ & Hk2 & _). congruence. }
  split; [eapply labels_kept_trans; eassumption|].
  intros n Hn d Hd. apply list.elem_of_cons in Hn as [->|Hn].
  - destruct (HQ1 d Hd) as [Hready Hl]. split; [exact Hready|].
    eapply selector_linked_stable; eassumption.
  - apply list_elem_of_In, in_concat in Hn as (ns & Hns & Hn).
    apply in_map_iff in Hns as (bundle & <- & Hb).
    apply (HQ2 bundle); [apply list_elem_of_In, Hb | apply list_elem_of_In, Hn | exact Hd].
Qed.

(** A view that is ready and whose name is free is linked. *)
Lemma linkView_returns env this descriptor st :
  view_ready env (heap st) this descriptor ->
  has_property env (globalScope st) (view_name descriptor) = false ->
  exists st', linkView env this descriptor st = Ok (tt, st').
Proof.
  destruct descriptor as [name view selector]. simpl. intros Hready Hfree.
  unfold linkView.
  destruct (decide (selector = VUndefined)) as [->|Hsel].
  - unfold bind, ret, set_displayName, publish, modify, gets, throw.
    destruct view; try contradiction; cbn -[has_property]; rewrite Hfree; eauto.
  - assert (Hconnect : forall sel,
              exists st',
                (view <- connect sel view ;;
                 set_displayName view ("View(" +:+ name +:+ ")") ;;
                 publish env "view" name view) st = Ok (tt, st')).
    { intros sel. unfold connect, set_displayName, publish, bind, modify, gets, throw.
      cbn -[has_property]. rewrite Hfree. eauto. }
    destruct selector as [| |x|n|s|f|o|k]; try contradiction; try discriminate Hready.
    + destruct Hready as (f & Hread & Hfun).
      destruct (Hconnect f) as [st' Hst']. exists st'. rewrite <- Hst'.
      unfold bind at 1 2. unfold read_locals. rewrite Hread.
      destruct (decide (typeof f = "function")); [reflexivity | contradiction].
    + destruct (Hconnect (VFun f)) as [st' Hst']. exists st'. rewrite <- Hst'. reflexivity.
    + destruct (Hconnect (VConnected k)) as [st' Hst']. exists st'. rewrite <- Hst'.
      reflexivity.
Qed.

(** A loop whose steps publish names returns when the names are free and
    pairwise distinct. *)
Lemma forEach_fresh {A} env (f : A -> M unit) (names : A -> list string)
    (I : Linker -> Prop) (l : list A) :
  (forall x st, x ∈ l -> I st ->
     (forall n, n ∈ names x -> has_property env (globalScope st) n = false) ->
     NoDup (names x) ->
     exists st', f x st = Ok (tt, st') /\ published_between env (names x) st st' /\ I st') ->
  forall st, I st -> NoDup (concat (map names l)) ->
    (forall n, n ∈ concat (map names l) -> has_property env (globalScope st) n = false) ->
    exists st',
      forEach f l st = Ok (tt, st') /\
      published_between env (concat (map names l)) st st' /\ I st'.
Proof.
  induction l as [|x l IH]; intros Hstep st HI Hnd Hfree; simpl.
  - exists st. split; [reflexivity|]. split; [apply published_between_nil | exact HI].
  - simpl in Hnd, Hfree. apply list.NoDup_app in Hnd as (Hndx & Hdisj & Hndl).
    destruct (Hstep x st (list_elem_of_here _ _) HI) as (st1 & Hx & Hp1 & HI1);
      [intros n Hn; apply Hfree, list.elem_of_app; left; exact Hn | exact Hndx |].
    destruct (IH (fun y s Hy => Hstep y s (list_elem_of_further _ _ _ Hy)) st1 HI1 Hndl)
      as (st2 & Hl & Hp2 & HI2).
    { intros n Hn.
      assert (Hn0 : has_property env (globalScope st) n = false)
        by (apply Hfree, list.elem_of_app; right; exact Hn).
      apply has_property_false in Hn0 as [Hown Hproto].
      apply has_property_false. split; [|exact Hproto].
      destruct Hp1 as (_ & _ & Hdom & _). apply eq_None_not_Some. intros Hs.
      apply Hdom in Hs as [Hs|Hs].
      - rewrite Hown in Hs. destruct Hs as [? [=]].
      - exact (Hdisj n Hs Hn). }
    exists st2. unfold bind. rewrite Hx. split; [exact Hl|].
    split; [eapply published_between_app; eassumption | exact HI2].
Qed.

(** The views of a tree are linked when each one is ready in its bundle and
    their names are free and pairwise distinct. *)
Lemma _linkViews_returns env h this st :
  heap st = h ->
  (forall n, n ∈ nodes this -> forall d, d ∈ views n -> view_ready env h n d) ->
  NoDup (tree_viewNames this) ->
  (forall n, n ∈ tree_viewNames this -> has_property env (globalScope st) n = false) ->
  exists st',
    _linkViews env this st = Ok (tt, st') /\
    published_between env (tree_viewNames this) st st' /\ heap st' = h.
Proof.
  revert st. induction this as [this IH] using Bundle_tree_ind. intros st Hh Hready Hnd Hfree.
  destruct this as [l bs e a t v df s z]; simpl in *.
  apply list.NoDup_app in Hnd as (Hndv & Hdisj & Hndb).
  destruct (forEach_fresh env (linkView env (mkBundle l bs e a t v df s z))
              (fun d => [view_name d]) (fun st => heap st = h) v) with st
    as (st1 & Hown & Hp1 & Hh1).
  { intros d s1 Hd Hs1 Hf _.
    destruct (linkView_returns env (mkBundle l bs e a t v df s z) d s1) as [s2 Hs2].
    - rewrite Hs1. apply Hready; [left | exact Hd].
    - apply Hf. left.
    - exists s2. split; [exact Hs2|].
      pose proof (linkView_published env (mkBundle l bs e a t v df s z) d s1) as Hp.
      rewrite Hs2 in Hp. split; [exact Hp|]. destruct Hp as (_ & _ & _ & _ & Hheap & _).
      congruence. }
  { exact Hh. }
  { rewrite concat_map_singleton. exact Hndv. }
  { rewrite concat_map_singleton. intros n Hn. apply Hfree, list.elem_of_app. left. exact Hn. }
  rewrite concat_map_singleton in Hp1.
  destruct (forEach_fresh env (_linkViews env) tree_viewNames (fun st => heap st = h) bs)
    with st1 as (st2 & Hsub & Hp2 & Hh2).
  { intros c s1 Hc Hs1 Hf Hndc. rewrite Forall_forall in IH.
    apply (IH c (proj1 (list_elem_of_In _ _) Hc) s1 Hs1); [|exact Hndc | exact Hf].
    intros n Hn d Hd. apply (Hready n); [|exact Hd]. right.
    apply list_elem_of_In, in_concat. exists (nodes c).
    split; [apply in_map, list_elem_of_In, Hc | apply list_elem_of_In, Hn]. }
  { exact Hh1. }
  { exact Hndb. }
  { intros n Hn.
    assert (Hn0 : has_property env (globalScope st) n = false)
      by (apply Hfree, list.elem_of_app; right; exact Hn).
    apply has_property_false in Hn0 as [Hown0 Hproto].
    apply has_property_false. split; [|exact Hproto].
    destruct Hp1 as (_ & _ & Hdom & _). apply eq_None_not_Some. intros Hs.
    apply Hdom in Hs as [Hs|Hs].
    - rewrite Hown0 in Hs. destruct Hs as [? [=]].
    - exact (Hdisj n Hs Hn). }
  exists st2. unfold bind. rewrite Hown. split; [exact Hsub|].
  split; [eapply published_between_app; eassumption | exact Hh2].
Qed.

End ViewLinking.

(** ** The targets when views are linked *)

Section FirstPass.
Context {State Action World : Type}.
Implicit Types (this : Bundle State Action World) (b : list (directive State Action World))
  (st : Linker).

(** Builders publish values, selectors and actions, and no view. *)
Lemma definitions_not_views b :
  Forall (fun d => def_type d ∈ ["action"; "selector"; "value"]) (definitions b).
Proof.
  assert (Hall : forall d : directive State Action World,
            Forall (fun d => def_type d ∈ ["action"; "selector"; "value"])
                   (directive_definitions d)).
  { induction d as [c IH|d Hd] using directive_nested_ind.
    - simpl. induction c as [|d c IHc]; simpl; [constructor|].
      inversion IH; subst. apply Forall_app. split; [assumption | apply IHc; assumption].
    - destruct d; simpl; try discriminate Hd; try apply Forall_nil;
        (apply Forall_cons; [|apply Forall_nil]); apply list_elem_of_In; simpl; auto. }
  unfold definitions. induction b as [|d b IHb]; simpl; [constructor|].
  apply Forall_app. split; [apply Hall | exact IHb].
Qed.

(** The type tags after definitions are those of the definitions. *)
Lemma run_definitions_types env (l : list definition) (types : list string) st st' :
  Forall (fun d => def_type d ∈ types) l ->
  forEach (run_definition env) l st = Ok (tt, st') ->
  forall n type, typeMap st' !! n = Some type -> type ∈ types \/ typeMap st !! n = Some type.
Proof.
  intros Hty Hrun.
  destruct (forEach_each (run_definition env) (fun _ => True)
              (fun s s' => forall n type, typeMap s' !! n = Some type ->
                             type ∈ types \/ typeMap s !! n = Some type)
              (fun _ _ => True) l) with st st' as (_ & HR & _); auto.
  - intros s1 s2 s3 H1 H2 n type H. destruct (H2 n type H) as [?|H']; auto.
  - intros d s s' Hd _ Hstep.
    apply run_definition_values in Hstep as (_ & _ & Ht).
    rewrite Forall_forall in Hty. specialize (Hty d (proj1 (list_elem_of_In _ _) Hd)).
    split; [exact I|]. split; [|exact I].
    intros n type. rewrite Ht. destruct (decide (def_name d = n)) as [<-|Hne].
    + rewrite lookup_insert_eq. intros [= <-]. left. exact Hty.
    + rewrite lookup_insert_ne by exact Hne. auto.
Qed.

(** What the root builder has published when it returns: its definitions do
    not clash, the global scope holds exactly their values, and no name is
    that of a view. *)
Lemma run_root_definitions env b root1 st1 :
  run_builder env b root0 st0 = Ok (root1, st1) ->
  conflict_free env (definitions b) /\ erase root1 = builder_tree b /\
  (forall s v, globalScope st1 !! s = Some v <->
     exists d, d ∈ definitions b /\ def_name d = s /\ def_value d = v) /\
  (forall n type, typeMap st1 !! n = Some type -> type ∈ ["action"; "selector"; "value"]).
Proof.
  intros Hrun.
  pose proof (run_builder_simulates env b root0 st0 initialLinker eq_refl
                (conj eq_refl (conj eq_refl eq_refl))) as Hsim.
  destruct (forEach (run_definition env) (definitions b) initialLinker)
    as [[[] st1']|e] eqn:Hdefs.
  2: { change (run_builder env b root0 st0 = Throw e) in Hsim. congruence. }
  destruct Hsim as (root1' & st1'' & Hrun' & _ & _ & Herase & (Hg1 & Ht1 & _) & _).
  change (run_builder env b root0 st0 = Ok (root1', st1'')) in Hrun'.
  rewrite Hrun in Hrun'. injection Hrun' as <- <-.
  change (erase root1 = builder_tree b) in Herase.
  pose proof (run_definitions_published env (definitions b) initialLinker) as Hpd.
  rewrite Hdefs in Hpd. destruct Hpd as (Hnd & Hfresh & Hdom & _).
  destruct (run_definitions_action_types env _ _ _ Hdefs) as (Hat & _).
  destruct (run_definitions_values env (definitions b) initialLinker st1'
              (definitions_types b) Hdefs) as [_ Hvals].
  split; [|split; [exact Herase|split]].
  - split; [exact Hnd|]. split; [exact Hat|]. apply Forall_forall. intros d Hd.
    apply (has_property_false env (globalScope initialLinker) (def_name d)), Hfresh.
    apply list_elem_of_In, in_map, Hd.
  - intros s v. rewrite Hg1. split.
    + intros Hv.
      assert (Hin : s ∈ map def_name (definitions b)).
      { destruct (proj1 (Hdom s)) as [Hs|Hs]; [eauto | | exact Hs].
        simpl in Hs. rewrite lookup_empty in Hs. destruct Hs as [? [=]]. }
      apply list_elem_of_In, in_map_iff in Hin as (d & Hname & Hd).
      apply list_elem_of_In in Hd. exists d. split; [exact Hd|]. split; [exact Hname|].
      specialize (Hvals d Hd). rewrite Hname in Hvals. congruence.
    + intros (d & Hd & <- & <-). apply Hvals, Hd.
  - intros n type. rewrite Ht1. intros H.
    destruct (run_definitions_types env _ _ _ _ (definitions_not_views b) Hdefs n type H)
      as [Hin|Hinit]; [exact Hin|].
    simpl in Hinit. rewrite lookup_empty in Hinit. discriminate.
Qed.

(** The bundles of the tree the root builder leaves, with the names their
    builders declared. *)
Lemma root_nodes_uses env b root1 st1 :
  run_builder env b root0 st0 = Ok (root1, st1) ->
  Forall2 (fun n names =>
             locals n < length (heap st1) /\
             forall name, declared st1 (locals n) name <-> name ∈ names)
          (nodes root1) (tree_uses b).
Proof.
  intros Hrun.
  destruct (run_builder_uses env b _ _ _ _ Hrun) as (Hl & Hg & _ & Huses).
  destruct Huses as (_ & _ & Hown & (news & Hnews & Hf) & _).
  { unfold queue_ok. simpl. constructor. }
  { simpl. lia. }
  simpl in Hl, Hown, Hnews.
  replace (nodes root1) with (root1 :: subnodes root1) by (destruct root1; reflexivity).
  rewrite Hnews. constructor.
  - split; [pose proof (queue_grows_length _ _ Hg) as Hlen; simpl in Hlen; lia|].
    intros name. rewrite Hl, Hown. split; [|auto].
    intros [(names & Hin & _)|Hn]; [inversion Hin | exact Hn].
  - eapply List.Forall2_impl; [|exact Hf]. intros n names [[_ Hhi] Hd]. auto.
Qed.

(** The state in which views are linked: a target holds the names declared
    for it that are defined in the tree, with the values of the global scope. *)
Lemma first_pass_locals env b root1 st1 st2 :
  run_builder env b root0 st0 = Ok (root1, st1) ->
  injectAll env (FilterArray ["action"; "selector"; "value"]) st1 = Ok (tt, st2) ->
  registry_ok env st2 /\ locals_sound st2 /\ globalScope st2 = globalScope st1 /\
  forall target (names : list string),
    target < length (heap st1) ->
    (forall name, declared st1 target name <-> name ∈ names) ->
    exists obj,
      heap st2 !! target = Some obj /\
      forall s v, obj !! s = Some v <-> s ∈ names /\ globalScope st2 !! s = Some v.
Proof.
  intros Hrun E1.
  destruct (run_root_builder env b root1 st1 Hrun) as (Hreg1 & Hq1 & Hs1 & _).
  destruct (run_root_definitions env b root1 st1 Hrun) as (_ & _ & _ & Htypes).
  destruct (injectAll_resolves env _ ["action"; "selector"; "value"] st1 st2
              (or_introl (conj eq_refl eq_refl)) Hreg1 Hq1 Hs1 E1)
    as (Ho12 & Hs2 & _ & Hres2).
  pose proof (registry_ok_only_locals env st1 st2 Ho12 Hreg1) as Hreg2.
  destruct Ho12 as (Hg12 & Ht12 & _ & _ & Hu12 & Hh12 & _).
  split; [exact Hreg2|]. split; [exact Hs2|]. split; [exact Hg12|].
  intros target names Hlt Hd. rewrite <- Hh12 in Hlt.
  destruct (lookup_lt_is_Some_2 _ _ Hlt) as [obj Hobj].
  exists obj. split; [exact Hobj|].
  apply (target_content env st2 target obj names Hreg2 Hs2); [|exact Hobj|].
  - intros t name Hdecl [type Hty]. rewrite Ht12 in Hty.
    apply (Hres2 t name type); [|exact Hty | apply (Htypes name type Hty)].
    unfold declared in *. rewrite Hu12 in Hdecl. exact Hdecl.
  - intros name. rewrite <- Hd. unfold declared. rewrite Hu12. reflexivity.
Qed.

(** Reading a function in such a [locals]. *)
Lemma read_local_value env b st (obj : gmap string value) names s f :
  registry_ok env st ->
  (forall s v, globalScope st !! s = Some v <->
     exists d, d ∈ definitions b /\ def_name d = s /\ def_value d = v) ->
  (forall s v, obj !! s = Some v <-> s ∈ names /\ globalScope st !! s = Some v) ->
  typeof f = "function" ->
  makeSafeProxy env obj undeclaredDependencyError s = Ok f <-> local_value env b names s f.
Proof.
  intros (_ & _ & Hproto) Hdefs Hobj Hfun. unfold local_value. split.
  - intros Hread.
    assert (Hget : f = get_property env obj s).
    { unfold makeSafeProxy in Hread.
      destruct (hasProxy env); [destruct (has_property env obj s); [|discriminate]|];
        congruence. }
    unfold get_property in Hget. destruct (obj !! s) as [v|] eqn:Ev.
    + subst v. apply Hobj in Ev as [Hn Hg]. left. split; [exact Hn|]. apply Hdefs, Hg.
    + destruct (Object_prototype env !! s) as [p|]; simpl in Hget; [right; congruence|].
      subst f. discriminate Hfun.
  - intros [[Hn Hd]|Hp].
    + apply makeSafeProxy_own, Hobj. split; [exact Hn | apply Hdefs, Hd].
    + assert (Hnone : obj !! s = None).
      { apply eq_None_not_Some. intros [v Hv]. apply Hobj in Hv as [_ Hg].
        rewrite Hproto in Hp by eauto. discriminate. }
      unfold makeSafeProxy, get_property. rewrite Hnone, Hp.
      assert (Hhas : has_property env obj s = true) by (apply has_property_true; eauto).
      rewrite Hhas. destruct (hasProxy env); reflexivity.
Qed.

(** A view is ready in such a bundle when it can be linked by its builder. *)
Lemma view_ready_linkable env b st (h : list (gmap string value)) (obj : gmap string value)
    (n : Bundle State Action World) names descriptor :
  registry_ok env st ->
  (forall s v, globalScope st !! s = Some v <->
     exists d, d ∈ definitions b /\ def_name d = s /\ def_value d = v) ->
  h !! locals n = Some obj ->
  (forall s v, obj !! s = Some v <-> s ∈ names /\ globalScope st !! s = Some v) ->
  view_ready env h n descriptor <-> view_linkable env b names descriptor.
Proof.
  intros Hreg Hdefs Ho Hobj. destruct descriptor as [name view selector].
  destruct selector; simpl; try reflexivity.
  rewrite Ho. simpl. split; intros (f & Hf & Hfun); exists f; (split; [|exact Hfun]);
    apply (read_local_value env b st obj names s f Hreg Hdefs Hobj Hfun); exact Hf.
Qed.

End FirstPass.

(** ** Views and selector names *)

Section SelectorNames.
Context {State Action World : Type} (action_type : Action -> value).
Implicit Types (this n : Bundle State Action World) (b : list (directive State Action World))
  (st : Linker).

Lemma nodes_erase this : nodes (erase this) = map erase (nodes this).
Proof.
  induction this as [this IH] using Bundle_tree_ind.
  destruct this as [l bs e a t v df s z]; simpl in *. f_equal.
  rewrite concat_map, !map_map. f_equal. apply map_ext_in. intros c Hc.
  rewrite Forall_forall in IH. apply IH, Hc.
Qed.

Lemma nodes_views_erase this : map views (nodes (erase this)) = map views (nodes this).
Proof.
  rewrite nodes_erase, map_map. apply map_ext. intros n. destruct n; reflexivity.
Qed.

Lemma nodes_views_seal this : map views (nodes (_seal this)) = map views (nodes this).
Proof.
  rewrite nodes_seal, map_map. apply map_ext. intros n. destruct n; reflexivity.
Qed.

(** Two lists of bundles with the same views, bundle by bundle. *)
Lemma Forall2_same_views {C} (P : list viewDescriptor -> C -> Prop)
    (l1 l2 : list (Bundle State Action World)) (k : list C) :
  map views l1 = map views l2 ->
  Forall2 (fun n => P (views n)) l1 k -> Forall2 (fun n => P (views n)) l2 k.
Proof.
  intros Heq H. revert l2 Heq.
  induction H as [|n c l1 k Hn _ IH]; intros [|n2 l2] Heq; try discriminate Heq.
  - constructor.
  - simpl in Heq. injection Heq as Hv Heq. constructor; [rewrite <- Hv; exact Hn|].
    apply IH, Heq.
Qed.

(** The tree of a builder that was run, sealed or not, has the views of the
    tree the builder describes. *)
Lemma root_nodes_views env b root1 st1 :
  run_builder env b root0 st0 = Ok (root1, st1) ->
  map views (nodes root1) = map views (nodes (builder_tree b)) /\
  map views (nodes (_seal root1)) = map views (nodes (builder_tree b)) /\
  tree_viewNames (_seal root1) = tree_viewNames (builder_tree b) /\
  tree_views (_seal root1) = tree_views (builder_tree b).
Proof.
  intros Hrun. destruct (run_root_definitions env b root1 st1 Hrun) as (_ & Herase & _).
  rewrite <- Herase. split; [symmetry; apply nodes_views_erase|].
  split; [rewrite nodes_views_seal; symmetry; apply nodes_views_erase|]. split.
  - rewrite <- (tree_viewNames_erase (_seal root1)), erase_seal. reflexivity.
  - rewrite <- (tree_views_erase (_seal root1)), erase_seal. reflexivity.
Qed.

(** The state after the two passes of injection around view linking, bundle
    by bundle: the views of the bundle could be linked, and each view with a
    selector name is linked as the [locals] of the bundle reads the name. *)
Lemma link_phases_selectors env b root1 st1 st2 st3 st4 :
  run_builder env b root0 st0 = Ok (root1, st1) ->
  injectAll env (FilterArray ["action"; "selector"; "value"]) st1 = Ok (tt, st2) ->
  _linkViews env (_seal root1) st2 = Ok (tt, st3) ->
  injectAll env (FilterString "views") st3 = Ok (tt, st4) ->
  Forall2 (fun n names =>
             Forall (view_linkable env b names) (views n) /\
             forall name view s, View name view (VStr s) ∈ views n ->
               selector_resolved env b st4 n names name view s)
          (nodes root1) (tree_uses b).
Proof.
  intros Hrun E1 E2 E3.
  destruct (run_root_definitions env b root1 st1 Hrun) as (_ & _ & Hdefs1 & _).
  destruct (root_nodes_views env b root1 st1 Hrun) as (_ & _ & _ & Hviews).
  destruct (first_pass_locals env b root1 st1 st2 Hrun E1) as (Hreg2 & Hs2 & Hg12 & Hloc2).
  assert (Hdefs2 : forall s v, globalScope st2 !! s = Some v <->
            exists d, d ∈ definitions b /\ def_name d = s /\ def_value d = v)
    by (rewrite Hg12; exact Hdefs1).
  destruct (_linkViews_selectors env (tree_views (_seal root1)) (heap st2) (_seal root1)
              st2 st3 (fun d H => H) eq_refl E2) as [(Hsub23 & _) Hsel].
  rewrite Hviews in Hsel.
  destruct (link_phases_linked env b root1 st1 st2 st3 st4 Hrun E1 E2 E3)
    as (Hreg4 & Hs4 & Hres4 & _ & _ & _ & _ & Hu & Hh).
  destruct (run_root_builder env b root1 st1 Hrun) as (Hreg1 & Hq1 & Hs1 & _).
  destruct (_linkViews_linked env (_seal root1) st2 st3 Hs2 Hreg2 E2)
    as ((Hs3 & Hreg3) & (_ & _ & _ & Hh23 & Hu23 & _) & _).
  assert (Ho12 : only_locals_changed st1 st2).
  { pose proof (injectAll_spec env _ st1 (or_introl eq_refl)) as H. rewrite E1 in H.
    apply H. intros name. apply Hreg1. }
  assert (Ho34 : only_locals_changed st3 st4).
  { pose proof (injectAll_spec env _ st3 (or_intror eq_refl)) as H. rewrite E3 in H.
    apply H. intros name. apply Hreg3. }
  destruct Ho34 as (Hg34 & _ & _ & _ & _ & _ & Hc34 & Hd34).
  pose proof (root_nodes_uses env b root1 st1 Hrun) as Hall.
  apply Forall2_same_length_lookup_2; [eapply Forall2_length; exact Hall|].
  intros i n names Hi Hnames.
  destruct (Forall2_lookup_lr _ _ _ i n names Hall Hi Hnames) as [Hlt Hd].
  destruct (Hloc2 (locals n) names Hlt Hd) as (obj2 & Hobj2 & Hcontent2).
  assert (Hin : _seal n ∈ nodes (_seal root1)).
  { rewrite nodes_seal. apply list_elem_of_In, in_map, list_elem_of_In.
    eapply list_elem_of_lookup_2. exact Hi. }
  assert (Hlocals : locals (_seal n) = locals n) by (destruct n; reflexivity).
  assert (Hvn : views (_seal n) = views n) by (destruct n; reflexivity).
  specialize (Hsel (_seal n) Hin). rewrite Hvn in Hsel.
  split.
  - apply Forall_forall. intros d Hdv. apply list_elem_of_In in Hdv.
    destruct (Hsel d Hdv) as [Hready _].
    apply (view_ready_linkable env b st2 (heap st2) obj2 (_seal n) names d Hreg2 Hdefs2);
      [rewrite Hlocals; exact Hobj2 | exact Hcontent2 | exact Hready].
  - intros name view s Hview.
    destruct (Hsel _ Hview) as [_ Hl].
    destruct (Hl s eq_refl) as (sel & k & Hread & Hfun & Hname & Hk & Hlabel).
    rewrite Hlocals, Hobj2 in Hread. simpl in Hread.
    pose proof (proj1 (read_local_value env b st2 obj2 names s sel Hreg2 Hdefs2 Hcontent2 Hfun)
                  Hread) as Hlocal.
    assert (Hlt4 : locals n < length (heap st4)) by (rewrite Hh; exact Hlt).
    destruct (lookup_lt_is_Some_2 _ _ Hlt4) as [obj4 Hobj4].
    assert (Hcontent4 : forall x v,
              obj4 !! x = Some v <-> x ∈ names /\ globalScope st4 !! x = Some v).
    { apply (target_content env st4 (locals n) obj4 names Hreg4 Hs4 Hres4 Hobj4).
      intros x. rewrite <- Hd. unfold declared. rewrite Hu. reflexivity. }
    exists sel, k, obj4. split; [exact Hobj4|]. split.
    + unfold get_property. destruct Hlocal as [[Hn Hdef]|Hp].
      * assert (Hv : obj4 !! s = Some sel).
        { apply Hcontent4. split; [exact Hn|]. rewrite Hg34.
          eapply lookup_weaken; [|exact Hsub23]. apply Hdefs2, Hdef. }
        rewrite Hv. reflexivity.
      * assert (Hnone : obj4 !! s = None).
        { apply eq_None_not_Some. intros [v Hv]. apply Hcontent4 in Hv as [_ Hg].
          destruct Hreg4 as (_ & _ & Hproto). rewrite Hproto in Hp by eauto. discriminate. }
        rewrite Hnone, Hp. reflexivity.
    + split; [exact Hlocal|]. split; [exact Hfun|].
      rewrite Hg34, Hc34, Hd34. auto.
Qed.

(** The builders [link] accepts are those that can be linked. *)
Lemma link_frame_linkable env b :
  (exists frame : linkFrame State Action World, link_frame env b = Ok frame) <->
  linkable env b.
Proof.
  split.
  - intros [frame E].
    destruct (link_frame_Ok env b frame E)
      as (root1 & st1 & st1' & st2 & st3 & Hrun & _ & _ & _ & E1 & E2 & E3 & _ & Hroot).
    destruct (run_root_definitions env b root1 st1 Hrun) as (Hfree & _ & Hdefs1 & _).
    destruct (root_nodes_views env b root1 st1 Hrun) as (Hnv & _ & Hnames & _).
    destruct (link_frame_published env b frame E) as [Hnd Hdom].
    split; [exact Hfree|]. split; [exact Hnd|]. split; [|split].
    + pose proof (_linkViews_published env (_seal root1) st2) as Hpv.
      rewrite E2, Hnames in Hpv. destruct Hpv as (_ & Hfv & _).
      apply Forall_forall. intros name Hname.
      apply list_elem_of_In, Hfv, has_property_false in Hname. apply Hname.
    + apply (Forall2_same_views
               (fun vs names => Forall (view_linkable env b names) vs) (nodes root1));
        [exact Hnv|].
      eapply List.Forall2_impl;
        [|exact (link_phases_selectors env b root1 st1 st2 st3 _ Hrun E1 E2 E3)].
      intros n names [H _]. exact H.
    + intros Hproxy name reducer Hin.
      destruct (link_frame_reads env b frame E) as [Hreads Hrn].
      destruct (link_frame_linked env b frame E) as (_ & Hs & _).
      rewrite <- Hrn, <- tree_actionReducers_names in Hin.
      apply list_elem_of_In, in_map_iff in Hin as ([[target name'] reducer'] & [= -> ->] & Hin).
      rewrite Forall_forall in Hreads. destruct (Hreads _ Hin) as (v & Hread & _).
      pose proof (read_has_property env _ target name v Hs Hproxy Hread) as Hp.
      apply has_property_true in Hp as [Hown|Hp]; [left | right; exact Hp].
      apply Hdom, Hown.
  - intros (Hfree & Hnd & Hproto & Hviews & Hnamed).
    destruct (conflict_free_accepted env (definitions b) Hfree) as (st1' & Hdefs & _).
    pose proof (run_builder_simulates env b root0 st0 initialLinker eq_refl
                  (conj eq_refl (conj eq_refl eq_refl))) as Hsim.
    rewrite Hdefs in Hsim.
    destruct Hsim as (root1 & st1 & Hrun & _).
    change (run_builder env b root0 st0 = Ok (root1, st1)) in Hrun.
    destruct (run_root_builder env b root1 st1 Hrun) as (Hreg1 & Hq1 & Hs1 & _).
    destruct (run_root_definitions env b root1 st1 Hrun) as (_ & Herase & Hdefs1 & _).
    destruct (root_nodes_views env b root1 st1 Hrun) as (Hnv & _ & Hnames & Htv).
    destruct (injectAll_returns env _ st1 (or_introl eq_refl) Hreg1 Hq1) as [st2 E1].
    destruct (first_pass_locals env b root1 st1 st2 Hrun E1) as (Hreg2 & Hs2 & Hg12 & Hloc2).
    assert (Hdefs2 : forall s v, globalScope st2 !! s = Some v <->
              exists d, d ∈ definitions b /\ def_name d = s /\ def_value d = v)
      by (rewrite Hg12; exact Hdefs1).
    assert (Ho12 : only_locals_changed st1 st2).
    { pose proof (injectAll_spec env _ st1 (or_introl eq_refl)) as H. rewrite E1 in H.
      apply H. intros name. apply Hreg1. }
    destruct Ho12 as (_ & _ & _ & _ & Hu12 & Hh12 & _).
    (* the views *)
    unfold published_names in Hnd. apply list.NoDup_app in Hnd as (_ & Hdisj & Hndv).
    destruct (_linkViews_returns env (heap st2) (_seal root1) st2 eq_refl)
      as (st3 & E2 & Hp23 & Hh23).
    { pose proof (root_nodes_uses env b root1 st1 Hrun) as Hall.
      pose proof (Forall2_same_views
                    (fun vs names => Forall (view_linkable env b names) vs)
                    _ (nodes root1) _ (eq_sym Hnv) Hviews) as Hviews1.
      intros n Hn d Hd. rewrite nodes_seal in Hn.
      apply list_elem_of_In, in_map_iff in Hn as (n1 & <- & Hn1).
      apply list_elem_of_In, list_elem_of_lookup_1 in Hn1 as [i Hi].
      destruct (Forall2_lookup_l _ _ _ i n1 Hall Hi) as (names & Hnames' & Hlt & Hdecl).
      pose proof (Forall2_lookup_lr _ _ _ i n1 names Hviews1 Hi Hnames') as Hlinkable.
      destruct (Hloc2 (locals n1) names Hlt Hdecl) as (obj2 & Hobj2 & Hcontent2).
      assert (Hlocals : locals (_seal n1) = locals n1) by (destruct n1; reflexivity).
      assert (Hvn : views (_seal n1) = views n1) by (destruct n1; reflexivity).
      rewrite Hvn in Hd.
      apply (view_ready_linkable env b st2 (heap st2) obj2 (_seal n1) names d Hreg2 Hdefs2);
        [rewrite Hlocals; exact Hobj2 | exact Hcontent2 |].
      rewrite Forall_forall in Hlinkable. apply Hlinkable, list_elem_of_In, Hd. }
    { rewrite Hnames. exact Hndv. }
    { rewrite Hnames. intros name Hname. apply has_property_false. split.
      - apply eq_None_not_Some. intros [v Hv].
        apply Hdefs2 in Hv as (d & Hd & <- & _).
        apply (Hdisj (def_name d)); [|exact Hname].
        apply list_elem_of_In, in_map, list_elem_of_In, Hd.
      - rewrite Forall_forall in Hproto. apply Hproto, list_elem_of_In, Hname. }
    destruct (_linkViews_linked env (_seal root1) st2 st3 Hs2 Hreg2 E2)
      as ((Hs3 & Hreg3) & (_ & _ & _ & Hh23' & Hu23 & _) & _).
    assert (Hq3 : queue_ok st3).
    { apply (queue_ok_same st1); [congruence | rewrite Hh23'; exact Hh12 | exact Hq1]. }
    destruct (injectAll_returns env _ st3 (or_intror eq_refl) Hreg3 Hq3) as [st4 E3].
    destruct (link_phases_linked env b root1 st1 st2 st3 st4 Hrun E1 E2 E3)
      as (Hreg4 & Hs4 & Hres4 & Hnodes4 & Hviews4 & Hvals4 & _).
    (* the action map *)
    assert (Hreads : Forall (fun entry : nat * string * (State -> Action -> State) =>
                exists v, makeSafeProxy env (default ∅ (heap st4 !! entry.1.1))
                            undeclaredDependencyError entry.1.2 = Ok v)
             (tree_actionReducers (_seal root1))).
    { pose proof (tree_actionReducers_declared _ _ Hnodes4) as Hdecl.
      rewrite Forall_forall in *. intros [[target name] reducer] Hin. simpl.
      destruct (hasProxy env) eqn:Hproxy;
        [|unfold makeSafeProxy; rewrite Hproxy; eauto].
      assert (Hin' : (name, reducer) ∈ tree_namedReducers (builder_tree b)).
      { rewrite <- Herase, <- (erase_seal root1), tree_namedReducers_erase,
          <- tree_actionReducers_names.
        apply list_elem_of_In, in_map_iff. exists (target, name, reducer). auto. }
      destruct (Hnamed eq_refl name reducer Hin') as [Hpub|Hp].
      - assert (Hg : is_Some (globalScope st4 !! name)).
        { unfold published_names in Hpub. apply list.elem_of_app in Hpub as [Hdef|Hview].
          - apply list_elem_of_In, in_map_iff in Hdef as (d & <- & Hd).
            apply list_elem_of_In in Hd. rewrite (Hvals4 d Hd). eauto.
          - rewrite tree_viewNames_views in Hview.
            apply list_elem_of_In, in_map_iff in Hview as (d & <- & Hd).
            rewrite <- Htv in Hd. apply list_elem_of_In in Hd.
            specialize (Hviews4 d Hd). destruct d as [vname view selector].
            destruct Hviews4 as (v & Hv & _). simpl. eauto. }
        destruct (Hres4 target name (Hdecl _ Hin)) as (obj & w & Ho & Hw & _);
          [apply Hreg4; exact Hg|].
        exists w. rewrite Ho. simpl.
        apply (makeSafeProxy_own env obj undeclaredDependencyError _ w Hw).
      - unfold makeSafeProxy. rewrite Hproxy.
        assert (Hhas : has_property env (default ∅ (heap st4 !! target)) name = true)
          by (apply has_property_true; auto).
        rewrite Hhas. eauto. }
    destruct (_buildActionMap_returns env st4 (_seal root1) Hreads ∅) as [am Eam].
    exists (mkFrame (_seal root1) st4 am).
    rewrite link_frame_phases, Hrun, E1, E2, E3, Eam. reflexivity.
Qed.

(** A view declared with a selector name, after a successful [link]. *)
Lemma link_frame_selector env b (frame : linkFrame State Action World) i n names name view s :
  link_frame env b = Ok frame ->
  nodes (builder_tree b) !! i = Some n -> tree_uses b !! i = Some names ->
  View name view (VStr s) ∈ views n ->
  exists n',
    nodes (rootBundle frame) !! i = Some n' /\ views n' = views n /\
    selector_resolved env b (linker frame) n' names name view s.
Proof.
  intros E Hi Hnames Hview.
  destruct (link_frame_Ok env b frame E)
    as (root1 & st1 & st1' & st2 & st3 & Hrun & _ & _ & Herase & E1 & E2 & E3 & _ & Hroot).
  pose proof (link_phases_selectors env b root1 st1 st2 st3 _ Hrun E1 E2 E3) as Hall.
  rewrite <- Herase, nodes_erase in Hi.
  change (map erase (nodes root1)) with (erase <$> nodes root1) in Hi.
  rewrite list_lookup_fmap in Hi.
  destruct (nodes root1 !! i) as [n1|] eqn:Hi1; [|discriminate Hi].
  injection Hi as <-.
  destruct (Forall2_lookup_lr _ _ _ i n1 names Hall Hi1 Hnames) as [_ Hres].
  exists (_seal n1). split; [|split].
  - rewrite Hroot, nodes_seal.
    change (map _seal (nodes root1)) with (_seal <$> nodes root1).
    rewrite list_lookup_fmap, Hi1. reflexivity.
  - destruct n1; reflexivity.
  - assert (Hv1 : View name view (VStr s) ∈ views n1) by (destruct n1; exact Hview).
    destruct (Hres name view s Hv1) as (selector & k & obj & Hobj & H).
    exists selector, k, obj. split; [destruct n1; exact Hobj | exact H].
Qed.

(** C9: a view declared with a selector name, in any tree of builders.  Let
    the [i]-th bundle of the tree (its builder declares the names [names])
    declare the view [name] with the selector name [s].
    - (1) When the linking of [link] succeeds, in the state it ends with
      ([frame]) the selector of the view is what the [locals] of that
      bundle has under [s]: the value of a definition of the tree
      if the builder of the bundle declared [s] ([use], a definition or
      [addReducer]), else what every object inherits; whether the global
      scope has [s] does not matter.  It is a function, the view is
      published under its name as the component [connect] made of that
      function and the view, and the component is labelled
      "View(" + name + ")" (a builder has no such component to give as a
      view of its own, [connect] makes it during linking: [not_given] keeps
      the components of another [link] apart).
    - (2) When the [locals] of the bundle has no function under [s] -- the
      builder did not declare [s], nobody defines it, or its value is not a
      function -- [link] fails.
    - (3) Views make [link] fail in no other way: [link] succeeds exactly
      when the definitions do not clash, no name is published twice or
      inherited, every view is an object, every selector a function and
      every selector name a function in the [locals] of its bundle, and
      the names given to [addReducer] can be read. *)
Theorem view_selector_resolution env b i n names name view s :
  nodes (builder_tree b) !! i = Some n -> tree_uses b !! i = Some names ->
  View name view (VStr s) ∈ views n ->
  (forall frame : linkFrame State Action World,
     link_frame env b = Ok frame ->
     exists n' selector k obj,
       nodes (rootBundle frame) !! i = Some n' /\ views n' = views n /\
       heap (linker frame) !! locals n' = Some obj /\
       get_property env obj s = selector /\
       local_value env b names s selector /\
       typeof selector = "function" /\
       globalScope (linker frame) !! name = Some (VConnected k) /\
       connected (linker frame) !! k = Some (selector, view) /\
       (not_given (tree_views (builder_tree b)) k ->
        displayName (linker frame) !! VConnected k = Some ("View(" +:+ name +:+ ")"))) /\
  ((forall f, local_value env b names s f -> typeof f <> "function") ->
   exists e, link action_type env b = Throw e) /\
  ((exists l, link action_type env b = Ok l) <-> linkable env b).
Proof.
  intros Hi Hnames Hview. split; [|split].
  - intros frame E.
    destruct (link_frame_selector env b frame i n names name view s E Hi Hnames Hview)
      as (n' & Hn' & Hviews & selector & k & obj & H).
    exists n', selector, k, obj. auto.
  - intros Hnone. unfold link.
    destruct (link_frame env b) as [frame|e] eqn:E; [|eauto].
    destruct (link_frame_selector env b frame i n names name view s E Hi Hnames Hview)
      as (_ & _ & _ & selector & _ & _ & _ & _ & Hlocal & Hfun & _).
    destruct (Hnone selector Hlocal Hfun).
  - rewrite <- link_frame_linkable. unfold link. split.
    + intros [l Hl]. destruct (link_frame env b) as [frame|e]; [eauto | discriminate Hl].
    + intros [frame ->]. eauto.
Qed.

End SelectorNames.

(** Bundle A defines the selector [getItems].  The view [List] of a bundle
    that uses [getItems] is connected to it and labelled; in a bundle that
    does not declare [getItems] the same view makes [link] fail, although
    the global scope has the selector. *)
Lemma view_selector_resolution_witness :
  let env := {| hasProxy := true; Object_prototype := ∅ |} in
  let A : list (directive unit unit unit) := [DefineSelector "getItems" (VFun 1)] in
  let b := [Include A; Include [Use ["getItems"]; DefineView "List" (VStr "getItems") (VFun 2)]] in
  let b' := [Include A; Include [DefineView "List" (VStr "getItems") (VFun 2)]] in
  (exists frame k,
     link_frame env b = Ok frame /\
     globalScope (linker frame) !! "List" = Some (VConnected k) /\
     connected (linker frame) !! k = Some (VFun 1, VFun 2) /\
     displayName (linker frame) !! VConnected k = Some "View(List)") /\
  (exists e, link (fun _ => VUndefined) env b' = Throw e).
Proof.
  intros env A b b'.
  set (n := mkBundle (State := unit) (Action := unit) (World := unit) 0 [] [] [] []
              [View "List" (VFun 2) (VStr "getItems")] [] [] false).
  assert (Hin : View "List" (VFun 2) (VStr "getItems") ∈ views n) by left.
  destruct (view_selector_resolution (fun _ => VUndefined) env b 2 n ["getItems"; "List"]
              "List" (VFun 2) "getItems" eq_refl eq_refl Hin) as (Hlinked & _ & Hiff).
  destruct (view_selector_resolution (fun _ => VUndefined) env b' 2 n ["List"]
              "List" (VFun 2) "getItems" eq_refl eq_refl Hin) as (_ & Hfails & _).
  split.
  - destruct (proj2 Hiff) as [l Hl].
    { split; [|split; [|split; [|split]]].
      - split; [apply NoDup_singleton|]. split; [apply NoDup_nil_2|].
        repeat constructor.
      - simpl. apply list.NoDup_cons. split; [|apply NoDup_singleton].
        intros H. apply list_elem_of_singleton in H. discriminate H.
      - repeat constructor.
      - repeat constructor. simpl. exists (VFun 1). split; [|reflexivity].
        left. split; [left|]. exists (Published "selector" "getItems" (VFun 1)).
        split; [left | split; reflexivity].
      - intros _ name reducer H. inversion H. }
    unfold link in Hl. destruct (link_frame env b) as [frame|e] eqn:E; [|discriminate Hl].
    destruct (Hlinked frame eq_refl)
      as (n' & selector & k & obj & _ & _ & _ & _ & Hlocal & _ & Hname & Hk & Hlabel).
    assert (Hsel : selector = VFun 1).
    { destruct Hlocal as [[_ (d & Hd & _ & Hv)]|Hp];
        [|unfold env in Hp; simpl in Hp; rewrite lookup_empty in Hp; discriminate].
      apply list_elem_of_singleton in Hd. subst d. symmetry. exact Hv. }
    subst selector. exists frame, k. split; [reflexivity|]. split; [exact Hname|].
    split; [exact Hk|]. apply Hlabel.
    intros name H. apply list_elem_of_singleton in H. discriminate H.
  - apply Hfails. intros f [[Hn _]|Hp];
      [|unfold env in Hp; simpl in Hp; rewrite lookup_empty in Hp; discriminate].
    apply list_elem_of_singleton in Hn. discriminate Hn.
Defined.
